(** * An in-place expression evaluator: tokenizer, collapse and fold

    A shallow embedding of the expression parser (the variant with
    identifiers, implicit multiplication and unary minus), and the
    properties of its tokenizer, evaluator and registries.

    - [real] is C's [double]: IEEE 754 binary64, here Rocq's primitive
      floats, whose [+ - * /] and [sqrt] are the correctly rounded IEEE
      operations.
    - The global token array [toks] with its fill level [toks_size] is a
      record [TokBuf]; a [Tok *] is the index it points at.
    - [exit(1)] after an error message is the outcome [Exit]; an access
      outside an array is the outcome [Undef].
    - [char] is signed: the tables of the operators are indexed by the
      character of a token converted to [size_t], and for a character from
      128 on that is an index outside them.
    - The loops of [eval] and [collapse] are not bounded by the source, so
      their model takes fuel and a run that needs more yields [OutOfFuel]. *)

From Stdlib Require Import PrimFloat Uint63 List String Ascii Bool Arith NArith ZArith Lia.
Import ListNotations.


(* ================================================================= *)
(** ** Outcomes *)

Inductive Error : Type :=
| UnmatchedCloseParen                               (* "unmatched ')'" *)
| UnmatchedOpenParen                                (* "unmatched '('" *)
| UnrecognizedCharacter (pos : nat) (c : ascii)     (* "unrecognized token at %zd: '%c'" *)
| ExpectedDelimiter                                 (* "expected delimiter at beginning of expression" *)
| UncollapsibleUnaryMinus                           (* "uncollapsable expression after minus factor" *)
| InvalidTokenOrder                                 (* "invalid token order" *)
| UnhandledOperator                                 (* "unhandled operator '%c'" *)
| ArityMismatch (name : string) (expected got : nat) (* "function %s() requires exactly ..." *)
| UnknownFunction (name : string)                   (* "unknown function: %s()" *)
| UnknownVariable (name : string).                  (* "unknown variable: %s" *)

Inductive outcome (A : Type) : Type :=
| Ok (a : A)
| Exit (e : Error)
| Undef
| OutOfFuel.

Arguments Ok {A} a.
Arguments Exit {A} e.
Arguments Undef {A}.
Arguments OutOfFuel {A}.

Definition bind {A B : Type} (m : outcome A) (k : A -> outcome B) : outcome B :=
  match m with
  | Ok a => k a
  | Exit e => Exit e
  | Undef => Undef
  | OutOfFuel => OutOfFuel
  end.

Declare Scope outcome_scope.
Delimit Scope outcome_scope with outcome.
Notation "x <- m ;; k" := (bind m (fun x => k))
  (at level 61, m at next level, right associativity) : outcome_scope.
Notation "' p <- m ;; k" := (bind m (fun x => let 'p := x in k))
  (at level 61, p pattern, m at next level, right associativity) : outcome_scope.
Local Open Scope outcome_scope.

(* ================================================================= *)
(** ** Tokens and the token array *)

Definition real := float.

Inductive Tok : Type :=
| TokNull
| TokOp (Char : ascii)
| TokNum (Num : real)
| TokIdent (Str : string).

Definition TOKS_CAP : N := 65536.

(** [toks] lists the array from index 0; every slot past the end of the list
    still holds the zero of static initialisation, [TokNull]. Slots at
    [toks_size] and beyond may hold stale tokens left by [del_toks]. *)
Record TokBuf : Type := { toks : list Tok; toks_size : nat }.

Definition init_buf : TokBuf := {| toks := []; toks_size := 0 |}.

Definition in_cap (i : nat) : bool := (N.of_nat i <? TOKS_CAP)%N.

Definition tok_at (a : list Tok) (i : nat) : Tok := nth i a TokNull.

Fixpoint store (i : nat) (v : Tok) (a : list Tok) : list Tok :=
  match i, a with
  | 0, [] => [v]
  | 0, _ :: a' => v :: a'
  | S i', [] => TokNull :: store i' v []
  | S i', x :: a' => x :: store i' v a'
  end.

(** The tokens in use: slots [0 .. toks_size - 1]. *)
Definition live (s : TokBuf) : list Tok :=
  map (tok_at (toks s)) (seq 0 (toks_size s)).

Definition read (s : TokBuf) (i : nat) : outcome Tok :=
  if in_cap i then Ok (tok_at (toks s) i) else Undef.

Definition write (i : nat) (v : Tok) (s : TokBuf) : outcome TokBuf :=
  if in_cap i then Ok {| toks := store i v (toks s); toks_size := toks_size s |}
  else Undef.

(* ================================================================= *)
(** ** Operator tables and character classes *)

(** The tables [op_prec[256]] and [op_order[256]], the entry of a character
    being the one at its code, 0 to 255; the entries not initialised are 0,
    which is also [OrderLtr]. *)
Definition op_prec (c : ascii) : nat :=
  if (c =? "+")%char then 1
  else if (c =? "-")%char then 1
  else if (c =? "*")%char then 2
  else if (c =? "/")%char then 2
  else if (c =? "^")%char then 3
  else 0.

Inductive Order : Type := OrderLtr | OrderRtl.

Definition op_order (c : ascii) : Order :=
  if (c =? "^")%char then OrderRtl else OrderLtr.

Definition order_eqb (a b : Order) : bool :=
  match a, b with
  | OrderLtr, OrderLtr | OrderRtl, OrderRtl => true
  | _, _ => false
  end.

(** [OP_PREC(tok_char)] is [op_prec[(size_t)tok_char]], and [tok_char] a
    [char], which is signed: a character from 128 on is negative, and as a
    [size_t] an index far past the 256 entries. Only the characters below
    128 are looked up in the table. *)
Definition in_table (tok_char : ascii) : bool := nat_of_ascii tok_char <? 128.

Definition OP_PREC (tok_char : ascii) : outcome nat :=
  if in_table tok_char then Ok (op_prec tok_char) else Undef.

(** [OP_ORDER(tok_char)] is [op_order[(size_t)tok_char]]. *)
Definition OP_ORDER (tok_char : ascii) : outcome Order :=
  if in_table tok_char then Ok (op_order tok_char) else Undef.

Definition IS_FLOAT (c : ascii) : bool :=
  let n := nat_of_ascii c in ((48 <=? n) && (n <=? 57)) || (n =? 46).

Definition IS_ALPHA (c : ascii) : bool :=
  let n := nat_of_ascii c in ((65 <=? n) && (n <=? 90)) || ((97 <=? n) && (n <=? 122)).

(** The characters of the [switch] in [tokenize]. *)
Definition is_op_char (c : ascii) : bool :=
  (c =? "(")%char || (c =? ")")%char || (c =? ",")%char || (c =? "+")%char
  || (c =? "-")%char || (c =? "*")%char || (c =? "/")%char || (c =? "^")%char.

(* ================================================================= *)
(** ** The C library on the inputs the program gives it *)

(** [strtod] on a buffer of at most 15 digits and points, which is all
    [tokenize] passes: the longest prefix [digits [. digits]] is converted,
    correctly rounded; no digit at all is no conversion, and the value 0.
    The digits form an integer below [10^15 < 2^53] and the scale is at most
    [10^14], both exact in binary64, so one IEEE division rounds correctly. *)
Definition is_digit (c : ascii) : bool :=
  let n := nat_of_ascii c in (48 <=? n) && (n <=? 57).

Fixpoint span_digits (l : list ascii) : list ascii * list ascii :=
  match l with
  | c :: l' =>
      if is_digit c then let (d, r) := span_digits l' in (c :: d, r) else ([], l)
  | [] => ([], [])
  end.

Definition decimal (ds : list ascii) : Z :=
  fold_left (fun acc c => (10 * acc + (Z.of_nat (nat_of_ascii c) - 48))%Z) ds 0%Z.

Definition real_of_Z (z : Z) : real := PrimFloat.of_uint63 (Uint63.of_Z z).

Definition strtod (buf : list ascii) : real :=
  let (ip, r) := span_digits buf in
  let fp := match r with
            | "."%char :: r' => fst (span_digits r')
            | _ => []
            end in
  match ip ++ fp with
  | [] => 0%float
  | ds => (real_of_Z (decimal ds) / real_of_Z (10 ^ Z.of_nat (List.length fp)))%float
  end.

(** The functions of [math.h] other than [sqrt] are parameters. *)
Record Libm : Type := {
  c_pow : real -> real -> real;
  c_fmod : real -> real -> real;
  c_round : real -> real;
  c_floor : real -> real;
  c_ceil : real -> real;
  c_sin : real -> real;
  c_cos : real -> real
}.

(** [M_PI] and [M_E] of [math.h]: the binary64 values nearest to pi and e. *)
Definition M_PI : real := 0x1.921fb54442d18p+1%float.
Definition M_E : real := 0x1.5bf0a8b145769p+1%float.

(* ================================================================= *)
(** ** The tokenizer *)

Definition push_tok (t : Tok) (s : TokBuf) : TokBuf :=
  if (N.of_nat (toks_size s) <? TOKS_CAP)%N
  then {| toks := store (toks_size s) t (toks s); toks_size := S (toks_size s) |}
  else s.

(** [last = toks[toks_size-1]], or a [TokNull] token for an empty array. *)
Definition last_tok (s : TokBuf) : Tok :=
  match toks_size s with
  | 0 => TokNull
  | S n => tok_at (toks s) n
  end.

(** [last.kind == TokIdent || (last.kind == TokOp && last.Char == ')') ||
    last.kind == TokNum] *)
Definition ends_term (last : Tok) : bool :=
  match last with
  | TokIdent _ => true
  | TokOp c => (c =? ")")%char
  | TokNum _ => true
  | TokNull => false
  end.

(** [(last.kind == TokOp && last.Char == ')') || last.kind == TokNum] *)
Definition ends_value (last : Tok) : bool :=
  match last with
  | TokOp c => (c =? ")")%char
  | TokNum _ => true
  | _ => false
  end.

(** [while (i < limit && IS_x(curr[i])) i++], counted from [i = 1]: the
    number of further characters taken, at most [room = limit - 1]. *)
Fixpoint scan_run (is_c : ascii -> bool) (room : nat) (l : list ascii) : nat :=
  match room, l with
  | S room', c :: l' => if is_c c then S (scan_run is_c room' l') else 0
  | _, _ => 0
  end.

(** [size_t paren_depth]: 64 bits, [++] wraps. *)
Definition size_incr (n : N) : N := ((n + 1) mod 2 ^ 64)%N.

Definition tokenize_end (paren_depth : N) (s : TokBuf) : outcome TokBuf :=
  if (0 <? paren_depth)%N then Exit UnmatchedOpenParen
  else Ok (push_tok (TokOp ")") s).

(** The scanning loop. [curr] is the text from the current character to the
    terminator, [pos] is [curr - expr]. Every turn takes at least one
    character, so [S (length curr)] turns of fuel are enough. [malloc] for
    the name of an identifier is taken to succeed. *)
Fixpoint tokenize_loop (fuel : nat) (curr : list ascii) (pos : nat)
    (paren_depth : N) (s : TokBuf) : outcome TokBuf :=
  match fuel with
  | 0 => OutOfFuel
  | S fuel' =>
    match curr with
    | [] => tokenize_end paren_depth s
    | c :: rest =>
      if (c =? Ascii.zero)%char then tokenize_end paren_depth s
      else
        let last := last_tok s in
        if (c =? " ")%char then tokenize_loop fuel' rest (S pos) paren_depth s
        else if IS_FLOAT c then
          let i := S (scan_run IS_FLOAT 14 rest) in
          let num := strtod (firstn i curr) in
          let s1 := if ends_term last then push_tok (TokOp "*") s else s in
          tokenize_loop fuel' (skipn i curr) (pos + i) paren_depth
            (push_tok (TokNum num) s1)
        else if IS_ALPHA c then
          let i := S (scan_run IS_ALPHA 30 rest) in
          let buf := string_of_list_ascii (firstn i curr) in
          let s1 := if ends_term last then push_tok (TokOp "*") s else s in
          tokenize_loop fuel' (skipn i curr) (pos + i) paren_depth
            (push_tok (TokIdent buf) s1)
        else if (c =? ")")%char && (paren_depth =? 0)%N then Exit UnmatchedCloseParen
        else
          let paren_depth' :=
            if (c =? "(")%char then size_incr paren_depth
            else if (c =? ")")%char then (paren_depth - 1)%N
            else paren_depth in
          if is_op_char c then
            let s1 := if (c =? "(")%char && ends_value last
                      then push_tok (TokOp "*") s else s in
            tokenize_loop fuel' rest (S pos) paren_depth' (push_tok (TokOp c) s1)
          else Exit (UnrecognizedCharacter pos c)
    end
  end.

Definition tokenize (expr : string) (s : TokBuf) : outcome TokBuf :=
  let curr := list_ascii_of_string expr in
  tokenize_loop (S (List.length curr)) curr 0 0%N
    (push_tok (TokOp "(") s).

(* ================================================================= *)
(** ** The registries *)

(** [name] is a pointer to a string the registry does not copy; [main]
    passes string literals, and the model holds their text. *)
Record Var : Type := { name : string; val : real }.

Definition VARS_CAP : nat := 256.

(** The registry is the list [vars[0 .. vars_size-1]]. *)
Fixpoint set_var_loop (n : string) (v : real) (vars : list Var) : option (list Var) :=
  match vars with
  | [] => None
  | x :: vars' =>
      if String.eqb (name x) n then Some ({| name := name x; val := v |} :: vars')
      else option_map (cons x) (set_var_loop n v vars')
  end.

(** [vars[vars_size++] = ...] is not guarded: with the array full it writes
    past its end. *)
Definition set_var (n : string) (v : real) (vars : list Var) : outcome (list Var) :=
  match set_var_loop n v vars with
  | Some vars' => Ok vars'
  | None =>
      if List.length vars <? VARS_CAP then Ok (vars ++ [{| name := n; val := v |}])
      else Undef
  end.

Fixpoint unset_var (n : string) (vars : list Var) : list Var :=
  match vars with
  | [] => []
  | x :: vars' => if String.eqb (name x) n then vars' else x :: unset_var n vars'
  end.

(** [func] receives the array of evaluated arguments. *)
Record Function : Type := {
  fn_name : string;
  func : list real -> real;
  n_args : nat
}.

Definition FUNCTIONS_CAP : nat := 256.

Definition add_func (n : string) (f : list real -> real) (k : nat)
    (functions : list Function) : list Function :=
  if List.length functions <? FUNCTIONS_CAP
  then functions ++ [{| fn_name := n; func := f; n_args := k |}]
  else functions.

(** [args[i]]. The array has 16 slots and those past the collected arguments
    are not initialised; the arity check before the call keeps the functions
    of [main] within the collected ones. *)
Definition arg (args : list real) (i : nat) : real := nth i args 0%float.

Section Builtins.
Variable m : Libm.

Definition fn_sqrt (args : list real) : real := PrimFloat.sqrt (arg args 0).
Definition fn_pow (args : list real) : real := c_pow m (arg args 0) (arg args 1).
Definition fn_mod (args : list real) : real := c_fmod m (arg args 0) (arg args 1).
Definition fn_round (args : list real) : real := c_round m (arg args 0).
Definition fn_floor (args : list real) : real := c_floor m (arg args 0).
Definition fn_ceil (args : list real) : real := c_ceil m (arg args 0).
Definition fn_sin (args : list real) : real := c_sin m (arg args 0).
Definition fn_cos (args : list real) : real := c_cos m (arg args 0).

(** The registrations of [main], in its order. *)
Definition main_functions : list Function :=
  add_func "cos" fn_cos 1
    (add_func "sin" fn_sin 1
      (add_func "ceil" fn_ceil 1
        (add_func "floor" fn_floor 1
          (add_func "round" fn_round 1
            (add_func "mod" fn_mod 2
              (add_func "pow" fn_pow 2
                (add_func "sqrt" fn_sqrt 1 []))))))).
End Builtins.

Definition main_vars : outcome (list Var) :=
  vs <- set_var "pi" M_PI (unset_var "x" []) ;;
  set_var "e" M_E vs.

(* ================================================================= *)
(** ** The evaluator *)

Definition is_op (c : ascii) (t : Tok) : bool :=
  match t with
  | TokOp c' => (c' =? c)%char
  | _ => false
  end.

(** [t.kind == TokOp && OP_PREC(t.Char) == 0]: the table is read for an
    operator only. *)
Definition at_delim (t : Tok) : outcome bool :=
  match t with
  | TokOp c => prec <- OP_PREC c ;; Ok (prec =? 0)
  | _ => Ok false
  end.

Definition pad (n : nat) (a : list Tok) : list Tok :=
  a ++ repeat TokNull (n - List.length a).

(** [memmove(toks + dst, toks + src, n * sizeof(Tok))] *)
Definition memmove_toks (dst src n : nat) (a : list Tok) : list Tok :=
  firstn dst (pad dst a) ++ map (fun k => tok_at a (src + k)) (seq 0 n)
    ++ skipn (dst + n) a.

(** Delete the tokens from [b] to [e], [e] excluded. The length of the move,
    [toks_size - (end - toks)], is unsigned: with [e] past [toks_size] it
    wraps to a length no array has. [toks_size -= end - begin] is
    [toks_size + b - e]. *)
Definition del_toks (b e : nat) (s : TokBuf) : outcome TokBuf :=
  if toks_size s <? e then Undef
  else Ok {| toks := memmove_toks b e (toks_size s - e) (toks s);
             toks_size := toks_size s + b - e |}.

(** [for (i = ...; !(t[i].kind == TokOp && OP_PREC(t[i].Char) == 0); i++);]
    from the slot [j] on, as an index into [toks]. Past the end of the list
    every slot is a [TokNull], so the scan leaves the array. *)
Fixpoint scan_delim (l : list Tok) (j : nat) : option nat :=
  match l with
  | [] => None
  | x :: l' =>
      match at_delim x with
      | Ok true => Some j
      | Ok false => scan_delim l' (S j)
      | _ => None
      end
  end.

(** The scan is undefined where it leaves the array or the table. *)
Definition find_delim (s : TokBuf) (j : nat) : outcome nat :=
  match scan_delim (skipn j (toks s)) j with
  | Some k => if in_cap k then Ok k else Undef
  | None => Undef
  end.

(** The loop over [functions]: no [break], the last entry of the name wins,
    and the first entry of the name with another arity ends the program. *)
Fixpoint call_loop (n : string) (args : list real) (fs : list Function)
    (outer_res : option real) : outcome (option real) :=
  match fs with
  | [] => Ok outer_res
  | f :: fs' =>
      if String.eqb n (fn_name f) then
        if List.length args =? n_args f
        then call_loop n args fs' (Some (func f args))
        else Exit (ArityMismatch (fn_name f) (n_args f) (List.length args))
      else call_loop n args fs' outer_res
  end.

(** The loop over [vars]: no [break], the last entry of the name wins. *)
Fixpoint var_loop (n : string) (vs : list Var) (res : option real) : option real :=
  match vs with
  | [] => res
  | v :: vs' => var_loop n vs' (if String.eqb n (name v) then Some (val v) else res)
  end.

Section Evaluator.
Variable m : Libm.
Variable vars : list Var.
Variable functions : list Function.

(** The [switch (curr_op)] of the fold. *)
Definition apply_op (curr_op : ascii) (lhs rhs : real) : outcome real :=
  if (curr_op =? "+")%char then Ok (lhs + rhs)%float
  else if (curr_op =? "-")%char then Ok (lhs - rhs)%float
  else if (curr_op =? "*")%char then Ok (lhs * rhs)%float
  else if (curr_op =? "/")%char then Ok (lhs / rhs)%float
  else if (curr_op =? "^")%char then Ok (c_pow m lhs rhs)
  else Exit UnhandledOperator.

(** The bodies of [collapse], of the [while (1)] over the arguments of a
    call, of [eval] and of the [while (1)] of [eval], over the functions
    they call. [t] is the index [t - toks]. *)
Section Bodies.
Variable collapse : nat -> TokBuf -> outcome TokBuf.
Variable collapse_args : nat -> list real -> TokBuf -> outcome (list real * TokBuf).
Variable eval : nat -> TokBuf -> outcome (real * TokBuf).
Variable eval_loop : nat -> TokBuf -> outcome (real * TokBuf).

Definition collapse_body (t : nat) (s : TokBuf) : outcome TokBuf :=
  (* Collapse factor. *)
  t1 <- read s (t + 1) ;;
  s1 <- (if is_op "-" t1 then
           s' <- collapse (t + 1) s ;;
           t2 <- read s' (t + 2) ;;
           match t2 with
           | TokNum n =>
               s'' <- write (t + 2) (TokNum (n * -1)%float) s' ;;
               del_toks (t + 1) (t + 2) s''
           | _ => Exit UncollapsibleUnaryMinus
           end
         else Ok s) ;;
  (* Collapse parentheses. *)
  t1 <- read s1 (t + 1) ;;
  s2 <- (if is_op "(" t1 then
           '(res, s') <- eval (t + 1) s1 ;;
           i <- find_delim s' (t + 2) ;;
           s'' <- del_toks (t + 2) (i + 1) s' ;;
           write (t + 1) (TokNum res) s''
         else Ok s1) ;;
  t1 <- read s2 (t + 1) ;;
  match t1 with
  | TokIdent str =>
      t2 <- (if t + 2 <? toks_size s2 then read s2 (t + 2) else Ok TokNull) ;;
      if (t + 2 <? toks_size s2) && is_op "(" t2 then
        (* Collapse function. *)
        '(arg_results, s3) <- collapse_args (t + 2) [] s2 ;;
        t1 <- read s3 (t + 1) ;;
        match t1 with
        | TokIdent str =>
            r <- call_loop str arg_results functions None ;;
            match r with
            | Some outer_res => write (t + 1) (TokNum outer_res) s3
            | None => Exit (UnknownFunction str)
            end
        | _ => Undef
        end
      else
        (* Collapse variable. *)
        match var_loop str vars None with
        | Some res => write (t + 1) (TokNum res) s2
        | None => Exit (UnknownVariable str)
        end
  | _ => Ok s2
  end.

Definition collapse_args_body (t : nat) (arg_results : list real) (s : TokBuf)
    : outcome (list real * TokBuf) :=
  '(arg_results', s1) <-
    (if List.length arg_results <? 16 then
       '(v, s1) <- eval t s ;; Ok (arg_results ++ [v], s1)
     else Ok (arg_results, s)) ;;
  i <- find_delim s1 (t + 1) ;;
  ti <- read s1 i ;;
  if is_op ")" ti then
    s2 <- del_toks t (i + 1) s1 ;; Ok (arg_results', s2)
  else if is_op "," ti then
    s2 <- del_toks t i s1 ;; collapse_args t arg_results' s2
  else collapse_args t arg_results' s1.

Definition eval_body (t : nat) (s : TokBuf) : outcome (real * TokBuf) :=
  t0 <- read s t ;;
  delim <- at_delim t0 ;;
  if delim then eval_loop t s else Exit ExpectedDelimiter.

Definition eval_loop_body (t : nat) (s : TokBuf) : outcome (real * TokBuf) :=
  s1 <- collapse t s ;;
  t0 <- read s1 t ;;
  match t0 with
  | TokOp curr_op =>
    t1 <- read s1 (t + 1) ;;
    match t1 with
    | TokNum rhs =>
      t2 <- read s1 (t + 2) ;;
      match t2 with
      | TokOp next_op =>
        curr_prec <- OP_PREC curr_op ;;
        next_prec <- OP_PREC next_op ;;
        (* [OP_ORDER(curr_op)], which the source reads where the precedences
           are equal, is the entry at the index [OP_PREC(curr_op)] has read. *)
        curr_order <- OP_ORDER curr_op ;;
        (* Delimiters have a precedence of 0. *)
        if (curr_prec =? 0) && (next_prec =? 0) then Ok (rhs, s1)
        else if (curr_prec <? next_prec)
                || ((next_prec =? curr_prec) && order_eqb curr_order OrderRtl)
        then eval_loop (t + 2) s1
        else if (next_prec <? curr_prec)
                || ((next_prec =? curr_prec) && order_eqb curr_order OrderLtr)
        then
          match t with
          | S (S t') =>
            tl <- read s1 (S t') ;;
            match tl with
            | TokNum lhs =>
                res <- apply_op curr_op lhs rhs ;;
                s2 <- write (t + 1) (TokNum res) s1 ;;
                s3 <- del_toks (S t') (t + 1) s2 ;;
                eval_loop t' s3
            | _ => Undef
            end
          | _ => Undef
          end
        else eval_loop t s1
      | _ => Exit InvalidTokenOrder
      end
    | _ => Exit InvalidTokenOrder
    end
  | _ => Exit InvalidTokenOrder
  end.
End Bodies.

(** The recursion: every call and every turn of a loop takes one unit of
    fuel. *)
Fixpoint collapse (fuel : nat) (t : nat) (s : TokBuf) : outcome TokBuf :=
  match fuel with
  | 0 => OutOfFuel
  | S fuel' =>
      collapse_body (collapse fuel') (collapse_args fuel') (eval fuel') t s
  end

with collapse_args (fuel : nat) (t : nat) (arg_results : list real) (s : TokBuf)
    : outcome (list real * TokBuf) :=
  match fuel with
  | 0 => OutOfFuel
  | S fuel' => collapse_args_body (collapse_args fuel') (eval fuel') t arg_results s
  end

with eval (fuel : nat) (t : nat) (s : TokBuf) : outcome (real * TokBuf) :=
  match fuel with
  | 0 => OutOfFuel
  | S fuel' => eval_body (eval_loop fuel') t s
  end

with eval_loop (fuel : nat) (t : nat) (s : TokBuf) : outcome (real * TokBuf) :=
  match fuel with
  | 0 => OutOfFuel
  | S fuel' => eval_loop_body (collapse fuel') (eval_loop fuel') t s
  end.

(** [tokenize(expr); eval(toks)] on the empty token array, as in [main];
    [print_toks] between the two only prints the tokens. *)
Definition run (fuel : nat) (expr : string) : outcome real :=
  s <- tokenize expr init_buf ;;
  '(res, _) <- eval fuel 0 s ;;
  Ok res.
End Evaluator.

(* ================================================================= *)
(** ** Printing and releasing the tokens, and [main] *)

(** The two ways [print_toks] ends the program. *)
Inductive PrintError : Type :=
| UnexpectedEndOfTokenStream     (* "unexpected end of token stream" *)
| UnhandledToken.                (* "unhandled token" *)

(** The conversions of [printf] on a [double]: parameters, as the functions
    of [math.h] are. *)
Record Stdio : Type := {
  fmt_2f : real -> string;       (* "%.2f" *)
  fmt_f : real -> string         (* "%f" *)
}.

Definition newline : string := String (ascii_of_nat 10) EmptyString.

(** One turn of the [switch] of [print_toks]: the text printed, or the
    error. [Str] holds the text of the C string. *)
Definition print_tok (io : Stdio) (t : Tok) : string + PrintError :=
  match t with
  | TokOp c =>
      if (c =? Ascii.zero)%char then inr UnexpectedEndOfTokenStream
      else inl (String c " ")
  | TokNum x => inl (String.append (fmt_2f io x) " ")
  | TokIdent str => inl (String.append str " ")
  | TokNull => inr UnhandledToken
  end.

(** The loop of [print_toks] over [toks[0 .. toks_size-1]]: what has been
    written to the standard output, and the error that ended the program
    there, if one did. *)
Fixpoint print_loop (io : Stdio) (l : list Tok) (out : string)
    : string * option PrintError :=
  match l with
  | [] => (String.append out newline, None)
  | t :: l' =>
      match print_tok io t with
      | inl txt => print_loop io l' (String.append out txt)
      | inr e => (out, Some e)
      end
  end.

Definition print_toks (io : Stdio) (s : TokBuf) : string * option PrintError :=
  print_loop io (live s) EmptyString.

(** [cleanup]: the names handed to [free], in the order of the array. *)
Definition cleanup (s : TokBuf) : list string :=
  flat_map (fun t => match t with TokIdent str => [str] | _ => [] end) (live s).

(** How the program ends. *)
Inductive Status : Type :=
| Returned                       (* [main] returns *)
| UsageShown                     (* [exit(1)] after the usage line *)
| Failed (e : Error)             (* [exit(1)] in [tokenize], [collapse] or [eval] *)
| PrintFailed (e : PrintError)   (* [exit(1)] in [print_toks] *)
| Undefined                      (* an access outside an array *)
| Unfinished.                    (* the fuel of the model is used up *)

(** [main] on [argv[0 .. argc-1]]: the text on the standard output and how
    the program ends. The registries are empty when it starts. *)
Definition main (io : Stdio) (m : Libm) (fuel : nat) (argv : list string)
    : string * Status :=
  match argv with
  | [_; expr] =>
      if String.eqb expr "-h" || String.eqb expr "--help" then (EmptyString, UsageShown)
      else
        match main_vars with
        | Ok vars =>
            match tokenize expr init_buf with
            | Ok s =>
                match print_toks io s with
                | (out, Some e) => (out, PrintFailed e)
                | (out, None) =>
                    match eval m vars (main_functions m) fuel 0 s with
                    | Ok (res, _) =>
                        (String.append out
                           (String.append "Result: "
                              (String.append (fmt_f io res) newline)), Returned)
                    | Exit e => (out, Failed e)
                    | Undef => (out, Undefined)
                    | OutOfFuel => (out, Unfinished)
                    end
                end
            | Exit e => (EmptyString, Failed e)
            | Undef => (EmptyString, Undefined)
            | OutOfFuel => (EmptyString, Unfinished)
            end
        | Exit e => (EmptyString, Failed e)
        | Undef => (EmptyString, Undefined)
        | OutOfFuel => (EmptyString, Unfinished)
        end
  | _ => (EmptyString, UsageShown)
  end.

(* ================================================================= *)
(** ** Reference definitions for the statements *)

(** The capacity as a number of slots. *)
Definition cap : nat := N.to_nat TOKS_CAP.

(** *** The text seen character by character *)

Definition recognized (c : ascii) : bool :=
  (c =? " ")%char || IS_FLOAT c || IS_ALPHA c || is_op_char c.

(** The first failure of a scan that looks at one character at a time and
    only counts parentheses. *)
Fixpoint first_error (l : list ascii) (pos depth : nat) : option Error :=
  match l with
  | [] => if 0 <? depth then Some UnmatchedOpenParen else None
  | c :: l' =>
      if (c =? Ascii.zero)%char then
        if 0 <? depth then Some UnmatchedOpenParen else None
      else if negb (recognized c) then Some (UnrecognizedCharacter pos c)
      else if (c =? ")")%char then
        match depth with
        | 0 => Some UnmatchedCloseParen
        | S depth' => first_error l' (S pos) depth'
        end
      else if (c =? "(")%char then first_error l' (S pos) (S depth)
      else first_error l' (S pos) depth
  end.

(** The text of a C string: the characters before the terminator. *)
Fixpoint c_str (l : list ascii) : list ascii :=
  match l with
  | [] => []
  | c :: l' => if (c =? Ascii.zero)%char then [] else c :: c_str l'
  end.

Definition count_char (c : ascii) (l : list ascii) : nat :=
  List.length (filter (Ascii.eqb c) l).

(** *** The tokens of the text before implicit multiplication *)

Fixpoint lex_loop (fuel : nat) (curr : list ascii) : list Tok :=
  match fuel with
  | 0 => []
  | S fuel' =>
    match curr with
    | [] => []
    | c :: rest =>
      if (c =? Ascii.zero)%char then []
      else if (c =? " ")%char then lex_loop fuel' rest
      else if IS_FLOAT c then
        let i := S (scan_run IS_FLOAT 14 rest) in
        TokNum (strtod (firstn i curr)) :: lex_loop fuel' (skipn i curr)
      else if IS_ALPHA c then
        let i := S (scan_run IS_ALPHA 30 rest) in
        TokIdent (string_of_list_ascii (firstn i curr)) :: lex_loop fuel' (skipn i curr)
      else if is_op_char c then TokOp c :: lex_loop fuel' rest
      else []
    end
  end.

Definition lex (expr : string) : list Tok :=
  let curr := list_ascii_of_string expr in
  lex_loop (S (List.length curr)) curr.

(** [rule prev next]: a ['*'] goes between the tokens [prev] and [next]. *)
Fixpoint insert_mul (rule : Tok -> Tok -> bool) (prev : Tok) (l : list Tok) : list Tok :=
  match l with
  | [] => []
  | t :: l' =>
      (if rule prev t then [TokOp "*"; t] else [t]) ++ insert_mul rule t l'
  end.

(** The rule of the code: a number or an identifier after a number, an
    identifier or [')']; a ['('] after a number or [')'] only, for an
    identifier before ['('] is a call. *)
Definition implicit_mul (prev next : Tok) : bool :=
  match next with
  | TokNum _ | TokIdent _ => ends_term prev
  | TokOp c => (c =? "(")%char && ends_value prev
  | TokNull => false
  end.

(** The rule in the words of the specification: any of a number, an
    identifier or ['('] after any of a number, an identifier or [')']. *)
Definition stated_mul (prev next : Tok) : bool :=
  match next with
  | TokNum _ | TokIdent _ => ends_term prev
  | TokOp c => (c =? "(")%char && ends_term prev
  | TokNull => false
  end.

(** All the tokens of a text, with no bound on their number. *)
Definition all_tokens (rule : Tok -> Tok -> bool) (expr : string) : list Tok :=
  TokOp "(" :: insert_mul rule (TokOp "(") (lex expr) ++ [TokOp ")"].

(** *** Registries, buffers and runs used in the statements *)


Definition entries (n : string) (vars : list Var) : list Var :=
  filter (fun x => String.eqb (name x) n) vars.

(** The variables after [main] has set them. *)
Definition builtin_vars : list Var :=
  [{| name := "pi"; val := M_PI |}; {| name := "e"; val := M_E |}].

(** A token array holding exactly the tokens [l]. *)
Definition buf_of (l : list Tok) : TokBuf :=
  {| toks := l; toks_size := List.length l |}.

Definition value_of (r : outcome (real * TokBuf)) : outcome real :=
  '(v, _) <- r ;; Ok v.

(** An instance of [Libm] to run the program on: [pow] by repeated
    multiplication, exact on the small integers of the examples, for the
    exponents 0 to 63; the other functions are not called in them. *)
Fixpoint pow_nat (x : real) (n : nat) : real :=
  match n with
  | 0 => 1%float
  | S n' => (x * pow_nat x n')%float
  end.

Definition small_pow (x y : real) : real :=
  match find (fun n => PrimFloat.eqb y (real_of_Z (Z.of_nat n))) (seq 0 64) with
  | Some n => pow_nat x n
  | None => nan
  end.

Definition sample_libm : Libm :=
  {| c_pow := small_pow;
     c_fmod := fun x _ => x;
     c_round := fun x => x;
     c_floor := fun x => x;
     c_ceil := fun x => x;
     c_sin := fun x => x;
     c_cos := fun x => x |}.

(** A text of [n] minus signs. *)
Definition minus_signs (n : nat) : string :=
  string_of_list_ascii (repeat "-"%char n).

(** *** Expressions and the value the evaluator gives them *)

(** The expressions of the grammar: a term is a number, a negated term, an
    expression in parentheses, a variable or a call; an expression is terms
    joined by binary operators; arguments are expressions joined by commas. *)
Inductive term : Type :=
| TNum (v : real)
| TNeg (t : term)
| TParen (e : expr)
| TVar (x : string)
| TCall (f : string) (a : args)
with expr : Type :=
| ETerm (t : term)
| EBin (t : term) (op : ascii) (e : expr)
with args : Type :=
| AOne (e : expr)
| ACons (e : expr) (a : args).

Fixpoint flat_term (t : term) : list Tok :=
  match t with
  | TNum v => [TokNum v]
  | TNeg t' => TokOp "-" :: flat_term t'
  | TParen e => TokOp "(" :: flat_expr e ++ [TokOp ")"]
  | TVar x => [TokIdent x]
  | TCall f a => TokIdent f :: TokOp "(" :: flat_args a ++ [TokOp ")"]
  end
with flat_expr (e : expr) : list Tok :=
  match e with
  | ETerm t => flat_term t
  | EBin t op e' => flat_term t ++ TokOp op :: flat_expr e'
  end
with flat_args (a : args) : list Tok :=
  match a with
  | AOne e => flat_expr e
  | ACons e a' => flat_expr e ++ TokOp "," :: flat_args a'
  end.

Fixpoint size_term (t : term) : nat :=
  match t with
  | TNum _ | TVar _ => 1
  | TNeg t' => S (size_term t')
  | TParen e => S (size_expr e)
  | TCall _ a => S (size_args a)
  end
with size_expr (e : expr) : nat :=
  match e with
  | ETerm t => S (size_term t)
  | EBin t _ e' => S (size_term t + size_expr e')
  end
with size_args (a : args) : nat :=
  match a with
  | AOne e => S (size_expr e)
  | ACons e a' => S (size_expr e + size_args a')
  end.

Fixpoint nargs (a : args) : nat :=
  match a with
  | AOne _ => 1
  | ACons _ a' => S (nargs a')
  end.

(** The operands and operators that [eval] has passed and not yet folded:
    the last one passed comes first. In the array they stand in the order
    passed. *)
Definition stack : Type := list (real * ascii).

Fixpoint flat_stack (st : stack) : list Tok :=
  match st with
  | [] => []
  | (lhs, op) :: st' => flat_stack st' ++ [TokNum lhs; TokOp op]
  end.

(** [next_prec > curr_prec || (next_prec == curr_prec &&
    OP_ORDER(curr_op) == OrderRtl)]: the operator on the right binds first. *)
Definition defers (curr_op next_op : ascii) : bool :=
  (op_prec curr_op <? op_prec next_op)
  || ((op_prec next_op =? op_prec curr_op) && order_eqb (op_order curr_op) OrderRtl).

Section Semantics.
Variable m : Libm.
Variable vars : list Var.
Variable functions : list Function.

(** The value of a term, of arguments, and of an expression to the right of
    a stack of pending operands and operators: the decisions of the loop of
    [eval] on numbers and operators alone. With nothing pending the first
    operator is passed ([climb_first]) and a lone term is the value
    ([climb_done]); with [lhs cop] pending, the next operator [op] is passed
    when [cop] defers to it ([climb_defer]), and otherwise, or at the end,
    [cop] is applied to [lhs] and the term ([climb_fold],
    [climb_fold_last]). *)
Inductive term_val : term -> real -> Prop :=
| val_num v : term_val (TNum v) v
| val_neg t v : term_val t v -> term_val (TNeg t) (v * -1)%float
| val_paren e v : climb [] e v -> term_val (TParen e) v
| val_var x v : var_loop x vars None = Some v -> term_val (TVar x) v
| val_call f a vs r :
    args_val a vs -> List.length vs <= 16 ->
    call_loop f vs functions None = Ok (Some r) ->
    term_val (TCall f a) r
with args_val : args -> list real -> Prop :=
| val_one e v : climb [] e v -> args_val (AOne e) [v]
| val_cons e v a vs :
    climb [] e v -> args_val a vs -> args_val (ACons e a) (v :: vs)
with climb : stack -> expr -> real -> Prop :=
| climb_done t v : term_val t v -> climb [] (ETerm t) v
| climb_first t n op e v :
    term_val t n -> 0 < op_prec op ->
    climb [(n, op)] e v ->
    climb [] (EBin t op e) v
| climb_defer lhs cop st t n op e v :
    term_val t n -> 0 < op_prec op -> defers cop op = true ->
    climb ((n, op) :: (lhs, cop) :: st) e v ->
    climb ((lhs, cop) :: st) (EBin t op e) v
| climb_fold lhs cop st t n op e res v :
    term_val t n -> 0 < op_prec op -> defers cop op = false ->
    apply_op m cop lhs n = Ok res ->
    climb st (EBin (TNum res) op e) v ->
    climb ((lhs, cop) :: st) (EBin t op e) v
| climb_fold_last lhs cop st t n res v :
    term_val t n ->
    apply_op m cop lhs n = Ok res ->
    climb st (ETerm (TNum res)) v ->
    climb ((lhs, cop) :: st) (ETerm t) v.

Definition expr_val (e : expr) (v : real) : Prop := climb [] e v.

(** [f] is registered, and only with [k] arguments. *)
Definition registered (f : string) (k : nat) : Prop :=
  In f (map fn_name functions)
  /\ forall g, In g functions -> fn_name g = f -> n_args g = k.

(** The expressions the evaluator accepts: binary operators between the
    terms, variables that are set, calls of registered functions with as
    many arguments as registered, at most 16. *)
Fixpoint valid_term (t : term) : Prop :=
  match t with
  | TNum _ => True
  | TNeg t' => valid_term t'
  | TParen e => valid_expr e
  | TVar x => In x (map name vars)
  | TCall f a => valid_args a /\ nargs a <= 16 /\ registered f (nargs a)
  end
with valid_expr (e : expr) : Prop :=
  match e with
  | ETerm t => valid_term t
  | EBin t op e' => valid_term t /\ 0 < op_prec op /\ valid_expr e'
  end
with valid_args (a : args) : Prop :=
  match a with
  | AOne e => valid_expr e
  | ACons e a' => valid_expr e /\ valid_args a'
  end.
End Semantics.

Scheme term_val_min := Minimality for term_val Sort Prop
  with args_val_min := Minimality for args_val Sort Prop
  with climb_min := Minimality for climb Sort Prop.
Combined Scheme val_mutind from term_val_min, args_val_min, climb_min.

(** *** Predicates of the proofs *)

(** The pushes of one turn of the scanning loop. *)
Definition push_all (l : list Tok) (s : TokBuf) : TokBuf :=
  fold_left (fun s t => push_tok t s) l s.

(** The outcome of [tokenize] that goes with a failure of the character-wise
    scan, or with none. *)
Definition outcome_of (e : option Error) (r : outcome TokBuf) : Prop :=
  match e with
  | Some e => r = Exit e
  | None => exists s', r = Ok s'
  end.

(** Balanced parentheses, [depth] of them open before the text: no prefix
    closes more than are open, and none is left open at the end. *)
Definition well_parenthesized (depth : nat) (cs : list ascii) : Prop :=
  (forall n, count_char ")" (firstn n cs) <= depth + count_char "(" (firstn n cs))
  /\ depth + count_char "(" cs = count_char ")" cs.

(** [r] is [r'], or ran out of fuel. *)
Definition le_out {A : Type} (r r' : outcome A) : Prop :=
  r = OutOfFuel \/ r = r'.

(** The tokens in use do not exceed the array. *)
Definition fits (s : TokBuf) : Prop := toks_size s <= cap.

(** Every operator of the stack is a binary operator. *)
Definition binary_stack (st : stack) : Prop :=
  Forall (fun p => 0 < op_prec (snd p)) st.

Section Effects.
Variable m : Libm.
Variable vars : list Var.
Variable functions : list Function.

Local Abbreviation collapse := (collapse m vars functions).
Local Abbreviation collapse_args := (collapse_args m vars functions).
Local Abbreviation eval := (eval m vars functions).
Local Abbreviation eval_loop := (eval_loop m vars functions).

(** What [collapse], the loop over the arguments and the loop of [eval] do
    on the tokens of a term, of arguments and of an expression, with enough
    fuel. *)
Definition collapses (t : term) (v : real) : Prop :=
  forall s pre x post,
    live s = pre ++ x :: flat_term t ++ post -> fits s ->
    is_op "(" (hd TokNull post) = false ->
    exists fuel s',
      (forall fuel', fuel <= fuel' -> collapse fuel' (List.length pre) s = Ok s')
      /\ live s' = pre ++ x :: TokNum v :: post /\ fits s'.

Definition collapses_args (a : args) (vs : list real) : Prop :=
  forall s pre d post acc,
    live s = pre ++ d :: flat_args a ++ TokOp ")" :: post -> fits s ->
    at_delim d = Ok true -> List.length acc + List.length vs <= 16 ->
    exists fuel s',
      (forall fuel', fuel <= fuel' ->
         collapse_args fuel' (List.length pre) acc s = Ok (acc ++ vs, s'))
      /\ live s' = pre ++ post /\ fits s'.

Definition climbs (st : stack) (e : expr) (v : real) : Prop :=
  forall s pre d dc post,
    binary_stack st ->
    live s = pre ++ d :: flat_stack st ++ flat_expr e ++ dc :: post -> fits s ->
    at_delim d = Ok true -> at_delim dc = Ok true -> is_op "(" dc = false ->
    exists fuel s',
      (forall fuel', fuel <= fuel' ->
         eval_loop fuel' (List.length pre + 2 * List.length st) s = Ok (v, s'))
      /\ live s' = pre ++ d :: TokNum v :: dc :: post /\ fits s'.
End Effects.

(** *** Shapes of tokens and of arrays *)

(** The tokens [tokenize] makes: one of the eight operator characters, a
    number, or a name of 1 to 31 letters. *)
Definition token_ok (t : Tok) : bool :=
  match t with
  | TokOp c => is_op_char c
  | TokNum _ => true
  | TokIdent str =>
      let l := list_ascii_of_string str in
      (1 <=? List.length l) && (List.length l <=? 31) && forallb IS_ALPHA l
  | TokNull => false
  end.

(** No two neighbours of [prev :: l] are a place where [rule] puts a ['*']. *)
Fixpoint no_gap (rule : Tok -> Tok -> bool) (prev : Tok) (l : list Tok) : Prop :=
  match l with
  | [] => True
  | t :: l' => rule prev t = false /\ no_gap rule t l'
  end.

(** The tokens [print_toks] prints. *)
Definition printable (t : Tok) : bool :=
  match t with
  | TokOp c => negb (c =? Ascii.zero)%char
  | TokNum _ | TokIdent _ => true
  | TokNull => false
  end.

Definition tok_text (io : Stdio) (t : Tok) : string :=
  match print_tok io t with
  | inl txt => txt
  | inr _ => EmptyString
  end.

(** The parentheses of the tokens are balanced, [depth] of them being open
    before the tokens: none closes what is not open, and none is left open. *)
Fixpoint balanced (depth : nat) (l : list Tok) : Prop :=
  match l with
  | [] => depth = 0
  | t :: l' =>
      if is_op "(" t then balanced (S depth) l'
      else if is_op ")" t then
        match depth with
        | 0 => False
        | S d => balanced d l'
        end
      else balanced depth l'
  end.

(** [s'] has the slots of [s] below [t], and no more tokens in use. *)
Definition keeps (t : nat) (s s' : TokBuf) : Prop :=
  (forall i, i < t -> tok_at (toks s') i = tok_at (toks s) i)
  /\ toks_size s' <= toks_size s.

(** The slots the loop of [eval] has gone right over, from [start] to [t]:
    binary operators, two slots apart. *)
Inductive passed (s : TokBuf) (start : nat) : nat -> Prop :=
| passed_start : passed s start start
| passed_step t c :
    passed s start t -> tok_at (toks s) (t + 2) = TokOp c -> 0 < op_prec c ->
    passed s start (t + 2).

(** What [eval] called on the slot [t] of [s] leaves when it returns [v]. *)
Definition eval_post (t : nat) (s : TokBuf) (v : real) (s' : TokBuf) : Prop :=
  keeps (S t) s s'
  /\ tok_at (toks s') (t + 1) = TokNum v
  /\ at_delim (tok_at (toks s') (t + 2)) = Ok true.

(** Every operator token of the array, in use or left behind, holds a
    character that [OP_PREC] and [OP_ORDER] look up in their tables. *)
Definition tabled_tok (t : Tok) : bool :=
  match t with
  | TokOp c => in_table c
  | _ => true
  end.

Definition tabled (s : TokBuf) : Prop :=
  Forall (fun t => tabled_tok t = true) (toks s).

(** The outcome is not the error of the [default] of the fold, and not the
    error of the check at the start of [eval]. *)
Definition handled {A : Type} (r : outcome A) : Prop := r <> Exit UnhandledOperator.

Definition delimited {A : Type} (r : outcome A) : Prop := r <> Exit ExpectedDelimiter.

(** [n + 1] arguments that are the number 1. *)
Fixpoint ones (n : nat) : args :=
  match n with
  | 0 => AOne (ETerm (TNum 1%float))
  | S n' => ACons (ETerm (TNum 1%float)) (ones n')
  end.

(** A text of [n] spaces. *)
Definition spaces (n : nat) : string := string_of_list_ascii (repeat " "%char n).

(** The status of [main] that goes with an outcome of [run]. *)
Definition status_of (r : outcome real) : Status :=
  match r with
  | Ok _ => Returned
  | Exit e => Failed e
  | Undef => Undefined
  | OutOfFuel => Unfinished
  end.

(** *** Parse trees *)

(** A tree of binary operators over terms, and the expression it is a parse
    of: its terms and operators from left to right. *)
Inductive tree : Type :=
| Leaf (t : term)
| Node (l : tree) (op : ascii) (r : tree).

Fixpoint expr_app (e1 : expr) (op : ascii) (e2 : expr) : expr :=
  match e1 with
  | ETerm t => EBin t op e2
  | EBin t o e1' => EBin t o (expr_app e1' op e2)
  end.

Fixpoint inorder (T : tree) : expr :=
  match T with
  | Leaf t => ETerm t
  | Node l op r => expr_app (inorder l) op (inorder r)
  end.

(** A subtree may be the left operand of [o] when its operator binds
    tighter than [o], or as tight with left associativity; the right
    operand when it binds tighter, or as tight with right associativity. *)
Definition left_ok (o : ascii) (T : tree) : Prop :=
  match T with
  | Leaf _ => True
  | Node _ l _ =>
      op_prec o < op_prec l \/ (op_prec l = op_prec o /\ op_order l = OrderLtr)
  end.

Definition right_ok (o : ascii) (T : tree) : Prop :=
  match T with
  | Leaf _ => True
  | Node _ r _ =>
      op_prec o < op_prec r \/ (op_prec r = op_prec o /\ op_order o = OrderRtl)
  end.

(** The parse trees of the usual reading: every operator is binary and its
    operands respect precedence and associativity. *)
Fixpoint respects (T : tree) : Prop :=
  match T with
  | Leaf _ => True
  | Node l o r =>
      0 < op_prec o /\ left_ok o l /\ right_ok o r /\ respects l /\ respects r
  end.

(** The first term of an expression, and the expression with a tree in the
    place of its first term. *)
Definition first_term (e : expr) : term :=
  match e with
  | ETerm t => t
  | EBin t _ _ => t
  end.

Definition with_first (T : tree) (e : expr) : expr :=
  match e with
  | ETerm _ => inorder T
  | EBin _ op e' => expr_app (inorder T) op e'
  end.

(** The trees of the operands on the stack, with the expression they and
    the rest make up. *)
Fixpoint unstack (ts : list (tree * ascii)) (e : expr) : expr :=
  match ts with
  | [] => e
  | (T, o) :: ts' => unstack ts' (expr_app (inorder T) o e)
  end.

(** Every operator of the expression satisfies [P]. *)
Fixpoint all_ops (P : ascii -> Prop) (e : expr) : Prop :=
  match e with
  | ETerm _ => True
  | EBin _ op e' => P op /\ all_ops P e'
  end.

(** The lookups without their loops. An identifier stands for the value of
    the entry [y], the last one of its name in the registry; a call with [k]
    arguments is answered by [g], the last function registered under the
    name, every function of the name being registered for [k] arguments. *)
Definition holds (vars : list Var) (x : string) (y : Var) : Prop :=
  exists l1 l2, vars = l1 ++ y :: l2 /\ name y = x /\ ~ In x (map name l2).

Definition serves (functions : list Function) (f : string) (k : nat)
    (g : Function) : Prop :=
  (exists l1 l2,
     functions = l1 ++ g :: l2 /\ fn_name g = f /\ ~ In f (map fn_name l2))
  /\ forall g', In g' functions -> fn_name g' = f -> n_args g' = k.

Section TreeValue.
Variable m : Libm.
Variable vars : list Var.
Variable functions : list Function.

(** The five binary operators on binary64 numbers. *)
Inductive binop_val : ascii -> real -> real -> real -> Prop :=
| binop_add a b : binop_val "+" a b (a + b)%float
| binop_sub a b : binop_val "-" a b (a - b)%float
| binop_mul a b : binop_val "*" a b (a * b)%float
| binop_div a b : binop_val "/" a b (a / b)%float
| binop_pow a b : binop_val "^" a b (c_pow m a b).

(** The value of an expression read as a tree, with no array and no loop.
    An expression has the value of a parse tree of it that respects
    precedence and associativity; a leaf of the tree is a term, and an
    expression in parentheses or an argument of a call inside the term is
    read as a tree in its turn. A minus sign belongs to the term: it negates
    the term after it, a multiplication by -1, before any binary operator
    applies. *)
Inductive term_den : term -> real -> Prop :=
| den_num v : term_den (TNum v) v
| den_neg t v : term_den t v -> term_den (TNeg t) (v * -1)%float
| den_paren e v : expr_den e v -> term_den (TParen e) v
| den_var x y : holds vars x y -> term_den (TVar x) (val y)
| den_call f a vs g :
    args_den a vs -> List.length vs <= 16 ->
    serves functions f (List.length vs) g ->
    term_den (TCall f a) (func g vs)
with args_den : args -> list real -> Prop :=
| den_one e v : expr_den e v -> args_den (AOne e) [v]
| den_cons e v a vs :
    expr_den e v -> args_den a vs -> args_den (ACons e a) (v :: vs)
with expr_den : expr -> real -> Prop :=
| den_parse T v : respects T -> tree_val T v -> expr_den (inorder T) v
with tree_val : tree -> real -> Prop :=
| tree_leaf t v : term_den t v -> tree_val (Leaf t) v
| tree_node l op r a b v :
    tree_val l a -> tree_val r b -> binop_val op a b v ->
    tree_val (Node l op r) v.

(** The expression itself makes a value that is not finite: a number or a
    variable of it is not finite, or one of its operations, a minus sign, a
    binary operator or a call, is given finite operands and returns a value
    that is not. *)
Inductive forces_term : term -> Prop :=
| forces_num v : PrimFloat.is_finite v = false -> forces_term (TNum v)
| forces_neg t v :
    term_den t v -> PrimFloat.is_finite v = true ->
    PrimFloat.is_finite (v * -1)%float = false ->
    forces_term (TNeg t)
| forces_negated t : forces_term t -> forces_term (TNeg t)
| forces_paren e : forces_expr e -> forces_term (TParen e)
| forces_var x y :
    holds vars x y -> PrimFloat.is_finite (val y) = false -> forces_term (TVar x)
| forces_call f a vs g :
    args_den a vs -> Forall (fun v => PrimFloat.is_finite v = true) vs ->
    serves functions f (List.length vs) g ->
    PrimFloat.is_finite (func g vs) = false ->
    forces_term (TCall f a)
| forces_argument f a : forces_args a -> forces_term (TCall f a)
with forces_args : args -> Prop :=
| forces_one e : forces_expr e -> forces_args (AOne e)
| forces_head e a : forces_expr e -> forces_args (ACons e a)
| forces_tail e a : forces_args a -> forces_args (ACons e a)
with forces_expr : expr -> Prop :=
| forces_parse T : respects T -> forces_tree T -> forces_expr (inorder T)
with forces_tree : tree -> Prop :=
| forces_leaf t : forces_term t -> forces_tree (Leaf t)
| forces_left l op r : forces_tree l -> forces_tree (Node l op r)
| forces_right l op r : forces_tree r -> forces_tree (Node l op r)
| forces_op l op r a b v :
    tree_val l a -> tree_val r b ->
    PrimFloat.is_finite a = true -> PrimFloat.is_finite b = true ->
    binop_val op a b v -> PrimFloat.is_finite v = false ->
    forces_tree (Node l op r).

(** The trees that stand for the operands on the stack of [climb]: each has
    the value on the stack and may be the left operand of its operator, and
    each operator defers to the one above it. *)
Inductive stack_ok : list (tree * ascii) -> stack -> Prop :=
| stack_nil : stack_ok [] []
| stack_cons T o lhs ts st :
    tree_val T lhs -> respects T -> left_ok o T -> 0 < op_prec o ->
    match ts with
    | [] => True
    | (_, o') :: _ => defers o' o = true
    end ->
    stack_ok ts st ->
    stack_ok ((T, o) :: ts) ((lhs, o) :: st).

(** The tree that stands for the first term of the expression. *)
Definition first_ok (ts : list (tree * ascii)) (T0 : tree) (e : expr) : Prop :=
  respects T0
  /\ (forall n, term_den (first_term e) n -> tree_val T0 n)
  /\ match ts with
     | [] => True
     | (_, o) :: _ => right_ok o T0
     end
  /\ match e with
     | ETerm _ => True
     | EBin _ op _ => left_ok op T0
     end.
End TreeValue.

Scheme term_den_min := Minimality for term_den Sort Prop
  with args_den_min := Minimality for args_den Sort Prop
  with expr_den_min := Minimality for expr_den Sort Prop
  with tree_val_min := Minimality for tree_val Sort Prop.
Combined Scheme den_mutind from term_den_min, args_den_min, expr_den_min, tree_val_min.

(* ================================================================= *)
(** * Properties *)

(** ** The token array *)

Lemma cap_N : N.of_nat cap = TOKS_CAP.
Proof. unfold cap. apply N2Nat.id. Qed.

Global Opaque cap.

Lemma in_cap_lt i : in_cap i = true <-> i < cap.
Proof.
  unfold in_cap. rewrite N.ltb_lt, <- cap_N. lia.
Qed.

Lemma in_cap_ge i : in_cap i = false <-> cap <= i.
Proof.
  unfold in_cap. rewrite N.ltb_ge, <- cap_N. lia.
Qed.

Lemma tok_at_store i v a j :
  tok_at (store i v a) j = if j =? i then v else tok_at a j.
Proof.
  unfold tok_at. revert a j.
  induction i as [|i IH]; intros [|x a] [|j]; simpl; try reflexivity.
  - now destruct j.
  - rewrite IH. destruct (j =? i); [reflexivity | now destruct j].
  - apply IH.
Qed.

Lemma live_length s : List.length (live s) = toks_size s.
Proof. unfold live. now rewrite length_map, length_seq. Qed.

Lemma nth_live s i :
  i < toks_size s -> nth i (live s) TokNull = tok_at (toks s) i.
Proof.
  intros H. unfold live.
  rewrite nth_indep with (d' := tok_at (toks s) 0)
    by now rewrite length_map, length_seq.
  rewrite map_nth, seq_nth by assumption. reflexivity.
Qed.

Lemma push_tok_full t s : cap <= toks_size s -> push_tok t s = s.
Proof.
  intros H. unfold push_tok.
  replace (N.of_nat (toks_size s) <? TOKS_CAP)%N with false; [reflexivity|].
  symmetry. apply N.ltb_ge. rewrite <- cap_N. lia.
Qed.

Lemma push_tok_room t s :
  toks_size s < cap ->
  push_tok t s = {| toks := store (toks_size s) t (toks s);
                    toks_size := S (toks_size s) |}.
Proof.
  intros H. unfold push_tok.
  replace (N.of_nat (toks_size s) <? TOKS_CAP)%N with true; [reflexivity|].
  symmetry. apply N.ltb_lt. rewrite <- cap_N. lia.
Qed.

Lemma live_push_room t s :
  toks_size s < cap -> live (push_tok t s) = live s ++ [t].
Proof.
  intros H. rewrite push_tok_room by assumption.
  unfold live; cbn [toks toks_size]. rewrite seq_S, map_app. cbn [map Nat.add].
  rewrite tok_at_store, Nat.eqb_refl. f_equal.
  apply map_ext_in. intros j Hj. apply in_seq in Hj.
  rewrite tok_at_store.
  destruct (j =? toks_size s) eqn:E; [apply Nat.eqb_eq in E; lia | reflexivity].
Qed.

Lemma last_tok_live s : last_tok s = last (live s) TokNull.
Proof.
  unfold last_tok, live. destruct (toks_size s) as [|n]; [reflexivity|].
  rewrite seq_S, map_app. simpl. now rewrite last_last.
Qed.

(** ** The tokenizer against the unbounded token list *)

Lemma push_sim acc t s :
  live s = firstn cap acc -> live (push_tok t s) = firstn cap (acc ++ [t]).
Proof.
  intros H. pose proof (live_length s) as L. rewrite H, length_firstn in L.
  destruct (Nat.lt_ge_cases (toks_size s) cap) as [R|F].
  - rewrite live_push_room, H by assumption.
    rewrite (firstn_all2 acc) by lia.
    rewrite firstn_all2; [reflexivity | rewrite length_app; simpl; lia].
  - rewrite push_tok_full, H by assumption.
    rewrite firstn_app. replace (cap - List.length acc) with 0 by lia.
    simpl. now rewrite app_nil_r.
Qed.

Lemma push_all_sim l : forall acc s,
  live s = firstn cap acc -> live (push_all l s) = firstn cap (acc ++ l).
Proof.
  induction l as [|t l IH]; intros acc s H; simpl.
  - now rewrite app_nil_r.
  - replace (acc ++ t :: l) with ((acc ++ [t]) ++ l) by now rewrite <- app_assoc.
    apply IH, push_sim, H.
Qed.

Lemma push_all_full l : forall s, cap <= toks_size s -> push_all l s = s.
Proof.
  induction l as [|t l IH]; intros s H; simpl; [reflexivity|].
  rewrite push_tok_full by assumption. now apply IH.
Qed.

Lemma step_sim acc l l' s :
  live s = firstn cap acc ->
  (toks_size s < cap -> l = l') ->
  live (push_all l s) = firstn cap (acc ++ l').
Proof.
  intros H E. destruct (Nat.lt_ge_cases (toks_size s) cap) as [R|F].
  - rewrite <- (E R). now apply push_all_sim.
  - rewrite push_all_full, H by assumption.
    pose proof (live_length s) as L. rewrite H, length_firstn in L.
    rewrite firstn_app. replace (cap - List.length acc) with 0 by lia.
    simpl. now rewrite app_nil_r.
Qed.

Lemma last_tok_sim acc s :
  live s = firstn cap acc -> toks_size s < cap -> last_tok s = last acc TokNull.
Proof.
  intros H R. pose proof (live_length s) as L. rewrite H, length_firstn in L.
  rewrite last_tok_live, H. now rewrite firstn_all2 by lia.
Qed.

Ltac as_push_all b :=
  match goal with
  | T : tokenize_loop _ _ _ _ (push_tok ?t ?s1) = _, H : live ?s = _ |- _ =>
      replace (push_tok t s1)
        with (push_all (if b then [TokOp "*"; t] else [t]) s)
        in T by (now destruct b)
  end.

Lemma last_snoc2 (acc : list Tok) a b d : last (acc ++ [a; b]) d = b.
Proof.
  replace (acc ++ [a; b]) with ((acc ++ [a]) ++ [b]) by now rewrite <- app_assoc.
  apply last_last.
Qed.

Ltac close_step :=
  rewrite ?last_snoc2, ?last_last; cbn [app]; rewrite <- ?app_assoc; reflexivity.

Lemma tokenize_loop_tokens fuel : forall curr pos depth s acc s',
  live s = firstn cap acc ->
  tokenize_loop fuel curr pos depth s = Ok s' ->
  live s' = firstn cap (acc ++ insert_mul implicit_mul (last acc TokNull)
                                  (lex_loop fuel curr) ++ [TokOp ")"]).
Proof.
  induction fuel as [|fuel IH]; intros curr pos depth s acc s' H T;
    [discriminate|].
  assert (End : tokenize_end depth s = Ok s' ->
                live s' = firstn cap (acc ++ [TokOp ")"])).
  { unfold tokenize_end. destruct (0 <? depth)%N; [discriminate|].
    intros [= <-]. now apply push_sim. }
  cbn [tokenize_loop lex_loop] in T |- *.
  destruct curr as [|c rest]; [now apply End|].
  destruct (c =? Ascii.zero)%char; [now apply End|].
  destruct (c =? " ")%char; [now apply (IH _ _ _ _ _ _ H T)|].
  destruct (IS_FLOAT c).
  { as_push_all (ends_term (last_tok s)).
    eapply IH in T.
    2:{ apply step_sim with (1 := H). intros R.
        rewrite (last_tok_sim _ _ H R). reflexivity. }
    rewrite T. cbn [insert_mul implicit_mul].
    destruct (ends_term (last acc TokNull)); close_step. }
  destruct (IS_ALPHA c).
  { as_push_all (ends_term (last_tok s)).
    eapply IH in T.
    2:{ apply step_sim with (1 := H). intros R.
        rewrite (last_tok_sim _ _ H R). reflexivity. }
    rewrite T. cbn [insert_mul implicit_mul].
    destruct (ends_term (last acc TokNull)); close_step. }
  destruct ((c =? ")")%char && (depth =? 0)%N); [discriminate|].
  destruct (is_op_char c); [|discriminate].
  as_push_all ((c =? "(")%char && ends_value (last_tok s)).
  eapply IH in T.
  2:{ apply step_sim with (1 := H). intros R.
      rewrite (last_tok_sim _ _ H R). reflexivity. }
  rewrite T. cbn [insert_mul implicit_mul].
  destruct ((c =? "(")%char && ends_value (last acc TokNull)); close_step.
Qed.

(** ** The failures of the tokenizer *)

Ltac all_chars c :=
  destruct c as [[] [] [] [] [] [] [] []]; vm_compute; intuition congruence.

Lemma float_char c :
  IS_FLOAT c = true ->
  (c =? Ascii.zero)%char = false /\ recognized c = true
  /\ (c =? ")")%char = false /\ (c =? "(")%char = false.
Proof. all_chars c. Qed.

Lemma alpha_char c :
  IS_ALPHA c = true ->
  (c =? Ascii.zero)%char = false /\ recognized c = true
  /\ (c =? ")")%char = false /\ (c =? "(")%char = false.
Proof. all_chars c. Qed.

Lemma space_char c :
  (c =? " ")%char = true ->
  recognized c = true /\ (c =? ")")%char = false /\ (c =? "(")%char = false.
Proof. all_chars c. Qed.

Lemma op_char c :
  is_op_char c = true -> recognized c = true /\ (c =? " ")%char = false
  /\ IS_FLOAT c = false /\ IS_ALPHA c = false /\ (c =? Ascii.zero)%char = false.
Proof. all_chars c. Qed.

Lemma other_char c :
  (c =? " ")%char = false -> IS_FLOAT c = false -> IS_ALPHA c = false ->
  is_op_char c = false -> recognized c = false.
Proof. all_chars c. Qed.

Lemma scan_run_le is_c room : forall l, scan_run is_c room l <= List.length l.
Proof.
  induction room as [|room IH]; intros [|c l]; simpl; try lia.
  destruct (is_c c); [specialize (IH l)|]; lia.
Qed.

Lemma scan_run_room is_c room : forall l, scan_run is_c room l <= room.
Proof.
  induction room as [|room IH]; intros [|c l]; simpl; try lia.
  destruct (is_c c); [specialize (IH l)|]; lia.
Qed.

Lemma scan_run_all is_c room : forall l,
  Forall (fun c => is_c c = true) (firstn (scan_run is_c room l) l).
Proof.
  induction room as [|room IH]; intros [|c l]; simpl; try constructor.
  destruct (is_c c) eqn:E; simpl; constructor; auto.
Qed.

(** A run of characters that are neither parentheses nor unknown leaves the
    character-wise scan where it was. *)
Lemma first_error_run (ok : ascii -> Prop) :
  (forall c, ok c -> (c =? Ascii.zero)%char = false /\ recognized c = true
                     /\ (c =? ")")%char = false /\ (c =? "(")%char = false) ->
  forall l1 l2 pos depth, Forall ok l1 ->
  first_error (l1 ++ l2) pos depth = first_error l2 (pos + List.length l1) depth.
Proof.
  intros Hok l1. induction l1 as [|c l1 IH]; intros l2 pos depth F; simpl.
  - now rewrite Nat.add_0_r.
  - inversion F as [|? ? Hc F']; subst.
    destruct (Hok c Hc) as (-> & -> & -> & ->). simpl.
    rewrite IH by assumption. f_equal. lia.
Qed.

Lemma size_incr_nat d :
  (N.of_nat d + 1 < 2 ^ 64)%N -> size_incr (N.of_nat d) = N.of_nat (S d).
Proof.
  intros H. unfold size_incr. rewrite N.mod_small by assumption. lia.
Qed.

Lemma tokenize_end_errors depth s :
  outcome_of (if 0 <? depth then Some UnmatchedOpenParen else None)
             (tokenize_end (N.of_nat depth) s).
Proof.
  unfold tokenize_end. destruct depth as [|d]; simpl; [now eexists|].
  reflexivity.
Qed.

Lemma tokenize_loop_errors fuel : forall curr pos depth s,
  List.length curr < fuel ->
  (N.of_nat (pos + List.length curr) < 2 ^ 64)%N ->
  depth <= pos ->
  outcome_of (first_error curr pos depth)
             (tokenize_loop fuel curr pos (N.of_nat depth) s).
Proof.
  induction fuel as [|fuel IH]; intros curr pos depth s Hf Hl Hd; [lia|].
  cbn [tokenize_loop].
  destruct curr as [|c rest]; [apply tokenize_end_errors|].
  cbn [first_error]. cbn [List.length] in Hf, Hl.
  destruct (c =? Ascii.zero)%char eqn:E0; [apply tokenize_end_errors|].
  destruct (c =? " ")%char eqn:Es.
  { destruct (space_char c Es) as (-> & -> & ->). simpl.
    apply IH; lia. }
  destruct (IS_FLOAT c) eqn:Ef.
  { destruct (float_char c Ef) as (_ & -> & -> & ->). simpl negb. cbv iota.
    pose proof (scan_run_le IS_FLOAT 14 rest) as Hle.
    rewrite <- (firstn_skipn (scan_run IS_FLOAT 14 rest) rest) at 1.
    rewrite (first_error_run (fun c => IS_FLOAT c = true) float_char)
      by apply scan_run_all.
    rewrite length_firstn, Nat.min_l by assumption.
    cbn [skipn]. replace (pos + S (scan_run IS_FLOAT 14 rest))
      with (S pos + scan_run IS_FLOAT 14 rest) by lia.
    apply IH; rewrite ?length_skipn; lia. }
  destruct (IS_ALPHA c) eqn:Ea.
  { destruct (alpha_char c Ea) as (_ & -> & -> & ->). simpl negb. cbv iota.
    pose proof (scan_run_le IS_ALPHA 30 rest) as Hle.
    rewrite <- (firstn_skipn (scan_run IS_ALPHA 30 rest) rest) at 1.
    rewrite (first_error_run (fun c => IS_ALPHA c = true) alpha_char)
      by apply scan_run_all.
    rewrite length_firstn, Nat.min_l by assumption.
    cbn [skipn]. replace (pos + S (scan_run IS_ALPHA 30 rest))
      with (S pos + scan_run IS_ALPHA 30 rest) by lia.
    apply IH; rewrite ?length_skipn; lia. }
  destruct (is_op_char c) eqn:Eo.
  2:{ rewrite (other_char c Es Ef Ea Eo). simpl negb. cbv iota.
      replace (c =? ")")%char with false; [reflexivity|].
      clear - Eo. revert Eo. all_chars c. }
  destruct (op_char c Eo) as (-> & _). simpl negb. cbv iota.
  destruct (c =? ")")%char eqn:Ec.
  { destruct depth as [|d]; [reflexivity|].
    replace (N.of_nat (S d) =? 0)%N with false by (symmetry; apply N.eqb_neq; lia).
    cbn [andb]. replace (c =? "(")%char with false
      by (clear - Ec; revert Ec; all_chars c).
    replace (N.of_nat (S d) - 1)%N with (N.of_nat d) by lia.
    apply IH; lia. }
  cbn [andb]. destruct (c =? "(")%char eqn:Eopen.
  - rewrite size_incr_nat by lia. apply IH; lia.
  - apply IH; lia.
Qed.

Lemma count_char_cons a c l :
  count_char a (c :: l) = (if (a =? c)%char then 1 else 0) + count_char a l.
Proof. unfold count_char. simpl. now destruct (a =? c)%char. Qed.

Lemma well_parenthesized_nil depth : well_parenthesized depth [] <-> depth = 0.
Proof.
  unfold well_parenthesized. split.
  - intros [_ H]. cbn in H. lia.
  - intros ->. split; [intros n; rewrite firstn_nil|]; cbn; lia.
Qed.

Lemma well_parenthesized_cons depth c cs :
  well_parenthesized depth (c :: cs) <->
  if (c =? ")")%char then
    match depth with 0 => False | S d => well_parenthesized d cs end
  else if (c =? "(")%char then well_parenthesized (S depth) cs
  else well_parenthesized depth cs.
Proof.
  unfold well_parenthesized. rewrite !count_char_cons.
  assert (Hc : (c =? ")")%char = true -> (c =? "(")%char = false)
    by (clear; all_chars c).
  pose proof (Ascii.eqb_sym ")" c) as E1. pose proof (Ascii.eqb_sym "(" c) as E2.
  assert (Fwd : forall d k1 k2,
            k1 = (if (")" =? c)%char then 1 else 0) ->
            k2 = (if ("(" =? c)%char then 1 else 0) ->
            (forall n, count_char ")" (firstn n (c :: cs))
                       <= d + count_char "(" (firstn n (c :: cs))) ->
            forall n, k1 + count_char ")" (firstn n cs)
                      <= d + (k2 + count_char "(" (firstn n cs))).
  { intros d k1 k2 -> -> H n. specialize (H (S n)). cbn [firstn] in H.
    now rewrite !count_char_cons in H. }
  assert (Bwd : forall d k1 k2,
            k1 = (if (")" =? c)%char then 1 else 0) ->
            k2 = (if ("(" =? c)%char then 1 else 0) ->
            (forall n, k1 + count_char ")" (firstn n cs)
                       <= d + (k2 + count_char "(" (firstn n cs))) ->
            forall n, count_char ")" (firstn n (c :: cs))
                      <= d + count_char "(" (firstn n (c :: cs))).
  { intros d k1 k2 -> -> H [|n]; cbn [firstn]; [cbn; lia|].
    rewrite !count_char_cons. apply H. }
  destruct (c =? ")")%char eqn:Ec.
  - rewrite (Hc eq_refl) in *. rewrite E1, E2 in *.
    destruct depth as [|d].
    + split; [|tauto]. intros [H _]. specialize (H 1). cbn [firstn] in H.
      rewrite !count_char_cons, E1, E2 in H. cbn in H. lia.
    + split.
      * intros [H E]. pose proof (Fwd _ _ _ eq_refl eq_refl H) as H'.
        split; [intros n; specialize (H' n)|]; lia.
      * intros [H E]. split; [|lia].
        apply (Bwd _ _ _ eq_refl eq_refl). intros n. specialize (H n). lia.
  - rewrite E1, E2 in *. destruct (c =? "(")%char.
    + split.
      * intros [H E]. pose proof (Fwd _ _ _ eq_refl eq_refl H) as H'.
        split; [intros n; specialize (H' n)|]; lia.
      * intros [H E]. split; [|lia].
        apply (Bwd _ _ _ eq_refl eq_refl). intros n. specialize (H n). lia.
    + split.
      * intros [H E]. pose proof (Fwd _ _ _ eq_refl eq_refl H) as H'.
        split; [intros n; specialize (H' n)|]; lia.
      * intros [H E]. split; [|lia].
        apply (Bwd _ _ _ eq_refl eq_refl). intros n. specialize (H n). lia.
Qed.

(** The character-wise scan finds nothing exactly on a text of recognized
    characters whose parentheses are balanced. *)
Lemma first_error_none l : forall pos depth,
  first_error l pos depth = None <->
  Forall (fun c => recognized c = true) (c_str l)
  /\ well_parenthesized depth (c_str l).
Proof.
  assert (End : forall depth,
            (if 0 <? depth then Some UnmatchedOpenParen else None) = None <->
            Forall (fun c => recognized c = true) [] /\ well_parenthesized depth []).
  { intros depth. rewrite well_parenthesized_nil.
    destruct depth; simpl; split; try easy; now intros [_ ?]. }
  induction l as [|c l IH]; intros pos depth; cbn [first_error c_str];
    [apply End|].
  destruct (c =? Ascii.zero)%char; [apply End|].
  rewrite Forall_cons_iff, well_parenthesized_cons.
  destruct (recognized c); cbn [negb].
  2:{ split; [discriminate | now intros [[? _] _]]. }
  destruct (c =? ")")%char.
  { destruct depth as [|d]; [split; [discriminate | tauto]|].
    rewrite IH. tauto. }
  destruct (c =? "(")%char; rewrite IH; tauto.
Qed.

(** The offset reported with an unrecognized character is where it stands. *)
Lemma first_error_offset l : forall pos depth p c,
  first_error l pos depth = Some (UnrecognizedCharacter p c) ->
  pos <= p /\ nth_error l (p - pos) = Some c /\ recognized c = false.
Proof.
  induction l as [|x l IH]; intros pos depth p c; cbn [first_error].
  - destruct (0 <? depth); discriminate.
  - destruct (x =? Ascii.zero)%char; [destruct (0 <? depth); discriminate|].
    destruct (recognized x) eqn:R; cbn [negb].
    2:{ intros [= <- <-]. rewrite Nat.sub_diag. auto. }
    assert (Step : forall d, first_error l (S pos) d = Some (UnrecognizedCharacter p c) ->
              pos <= p /\ nth_error (x :: l) (p - pos) = Some c /\ recognized c = false).
    { intros d H. apply IH in H. destruct H as (Hp & Hn & Hr).
      replace (p - pos) with (S (p - S pos)) by lia. auto with arith. }
    destruct (x =? ")")%char.
    { destruct depth; [discriminate | apply Step]. }
    destruct (x =? "(")%char; apply Step.
Qed.

(** ** Fuel *)

Lemma le_out_refl {A : Type} (r : outcome A) : le_out r r.
Proof. now right. Qed.

Lemma le_out_bind {A B : Type} (m m' : outcome A) (k k' : A -> outcome B) :
  le_out m m' -> (forall a, le_out (k a) (k' a)) ->
  le_out (bind m k) (bind m' k').
Proof.
  intros [-> | ->] Hk; [now left|].
  destruct m'; simpl; auto using le_out_refl.
Qed.

Ltac le_out_step IH :=
  first
    [ apply le_out_refl
    | apply IH
    | apply le_out_bind; [| intros ?]
    | match goal with
      | |- le_out (match ?x with _ => _ end) (match ?x with _ => _ end) => destruct x
      end ].

Section Fuel.
Variable m : Libm.
Variable vars : list Var.
Variable functions : list Function.

Local Abbreviation collapse := (collapse m vars functions).
Local Abbreviation collapse_args := (collapse_args m vars functions).
Local Abbreviation eval := (eval m vars functions).
Local Abbreviation eval_loop := (eval_loop m vars functions).

Lemma collapse_S fuel t s :
  collapse (S fuel) t s
  = collapse_body vars functions (collapse fuel) (collapse_args fuel) (eval fuel) t s.
Proof. reflexivity. Qed.

Lemma collapse_args_S fuel t a s :
  collapse_args (S fuel) t a s
  = collapse_args_body (collapse_args fuel) (eval fuel) t a s.
Proof. reflexivity. Qed.

Lemma eval_S fuel t s :
  eval (S fuel) t s = eval_body (eval_loop fuel) t s.
Proof. reflexivity. Qed.

Lemma eval_loop_S fuel t s :
  eval_loop (S fuel) t s = eval_loop_body m (collapse fuel) (eval_loop fuel) t s.
Proof. reflexivity. Qed.

Lemma fuel_step fuel :
  (forall t s, le_out (collapse fuel t s) (collapse (S fuel) t s))
  /\ (forall t a s, le_out (collapse_args fuel t a s) (collapse_args (S fuel) t a s))
  /\ (forall t s, le_out (eval fuel t s) (eval (S fuel) t s))
  /\ (forall t s, le_out (eval_loop fuel t s) (eval_loop (S fuel) t s)).
Proof.
  induction fuel as [|fuel (IHc & IHa & IHe & IHl)].
  - repeat split; intros; now left.
  - repeat split; intros.
    + rewrite (collapse_S (S fuel)), (collapse_S fuel). unfold collapse_body.
      repeat le_out_step IHc || le_out_step IHa || le_out_step IHe.
    + rewrite (collapse_args_S (S fuel)), (collapse_args_S fuel).
      unfold collapse_args_body.
      repeat le_out_step IHa || le_out_step IHe.
    + rewrite (eval_S (S fuel)), (eval_S fuel). unfold eval_body.
      repeat le_out_step IHl.
    + rewrite (eval_loop_S (S fuel)), (eval_loop_S fuel). unfold eval_loop_body.
      repeat le_out_step IHc || le_out_step IHl.
Qed.

Lemma fuel_mono fuel fuel' :
  fuel <= fuel' ->
  (forall t s, le_out (collapse fuel t s) (collapse fuel' t s))
  /\ (forall t a s, le_out (collapse_args fuel t a s) (collapse_args fuel' t a s))
  /\ (forall t s, le_out (eval fuel t s) (eval fuel' t s))
  /\ (forall t s, le_out (eval_loop fuel t s) (eval_loop fuel' t s)).
Proof.
  induction 1 as [|fuel' _ (IHc & IHa & IHe & IHl)].
  - repeat split; intros; apply le_out_refl.
  - destruct (fuel_step fuel') as (Sc & Sa & Se & Sl).
    repeat split; intros.
    + destruct (IHc t s) as [E|E]; [now left | rewrite E; apply Sc].
    + destruct (IHa t a s) as [E|E]; [now left | rewrite E; apply Sa].
    + destruct (IHe t s) as [E|E]; [now left | rewrite E; apply Se].
    + destruct (IHl t s) as [E|E]; [now left | rewrite E; apply Sl].
Qed.

Lemma eval_fuel fuel fuel' t s v s' :
  eval fuel t s = Ok (v, s') -> fuel <= fuel' -> eval fuel' t s = Ok (v, s').
Proof.
  intros E L. destruct (fuel_mono _ _ L) as (_ & _ & H & _).
  destruct (H t s) as [F|F]; congruence.
Qed.

Lemma eval_fuel_exit fuel fuel' t s e :
  eval fuel t s = Exit e -> fuel <= fuel' -> eval fuel' t s = Exit e.
Proof.
  intros E L. destruct (fuel_mono _ _ L) as (_ & _ & H & _).
  destruct (H t s) as [F|F]; congruence.
Qed.

Lemma run_fuel fuel fuel' expr r :
  run m vars functions fuel expr = r -> r <> OutOfFuel -> fuel <= fuel' ->
  run m vars functions fuel' expr = r.
Proof.
  unfold run. intros E N L. destruct (tokenize expr init_buf) as [s| | |];
    simpl in *; try assumption.
  destruct (fuel_mono _ _ L) as (_ & _ & H & _).
  destruct (H 0 s) as [F|F].
  - rewrite F in E. simpl in E. congruence.
  - now rewrite <- F.
Qed.
End Fuel.

(** ** Reading, writing and deleting in terms of the tokens in use *)

Lemma live_ext s l :
  toks_size s = List.length l ->
  (forall i, i < List.length l -> tok_at (toks s) i = nth i l TokNull) ->
  live s = l.
Proof.
  intros Hs Hn. apply nth_ext with (d := TokNull) (d' := TokNull).
  - now rewrite live_length.
  - intros i Hi. rewrite live_length in Hi.
    rewrite nth_live by assumption. apply Hn. lia.
Qed.

Lemma live_tok_at s l i :
  live s = l -> i < List.length l -> tok_at (toks s) i = nth i l TokNull.
Proof.
  intros <- Hi. rewrite live_length in Hi. now rewrite nth_live.
Qed.

Lemma tok_at_pad n a i : tok_at (pad n a) i = tok_at a i.
Proof.
  unfold tok_at, pad. destruct (Nat.lt_ge_cases i (List.length a)).
  - now rewrite app_nth1.
  - rewrite app_nth2, nth_repeat by assumption. now rewrite nth_overflow.
Qed.

Lemma tok_at_memmove dst src n a i :
  tok_at (memmove_toks dst src n a) i =
  if i <? dst then tok_at a i
  else if i <? dst + n then tok_at a (src + (i - dst))
  else tok_at a i.
Proof.
  unfold memmove_toks.
  assert (Lp : List.length (firstn dst (pad dst a)) = dst).
  { rewrite length_firstn. unfold pad. rewrite length_app, repeat_length. lia. }
  destruct (i <? dst) eqn:E1.
  - apply Nat.ltb_lt in E1. unfold tok_at at 1.
    rewrite app_nth1 by lia. rewrite nth_firstn.
    replace (i <? dst) with true by (symmetry; now apply Nat.ltb_lt).
    apply tok_at_pad.
  - apply Nat.ltb_ge in E1. unfold tok_at at 1. rewrite app_nth2 by lia.
    rewrite Lp. destruct (i <? dst + n) eqn:E2.
    + apply Nat.ltb_lt in E2.
      rewrite app_nth1 by (rewrite length_map, length_seq; lia).
      rewrite nth_indep with (d' := tok_at a (src + 0))
        by (rewrite length_map, length_seq; lia).
      rewrite (map_nth (fun k => tok_at a (src + k))).
      rewrite seq_nth by lia. reflexivity.
    + apply Nat.ltb_ge in E2.
      rewrite app_nth2 by (rewrite length_map, length_seq; lia).
      rewrite length_map, length_seq, nth_skipn. unfold tok_at. f_equal. lia.
Qed.

Lemma read_at s l1 x l2 :
  live s = l1 ++ x :: l2 -> fits s -> read s (List.length l1) = Ok x.
Proof.
  intros H F. unfold read.
  assert (L : List.length l1 < toks_size s).
  { rewrite <- live_length, H, length_app. simpl. lia. }
  replace (in_cap (List.length l1)) with true
    by (symmetry; apply in_cap_lt; unfold fits in F; lia).
  rewrite (live_tok_at _ _ _ H) by (rewrite length_app; simpl; lia).
  now rewrite nth_middle.
Qed.

Lemma write_at s l1 x l2 v :
  live s = l1 ++ x :: l2 -> fits s ->
  exists s', write (List.length l1) v s = Ok s' /\ live s' = l1 ++ v :: l2
             /\ toks_size s' = toks_size s.
Proof.
  intros H F. unfold write.
  assert (L : List.length l1 < toks_size s).
  { rewrite <- live_length, H, length_app. simpl. lia. }
  replace (in_cap (List.length l1)) with true
    by (symmetry; apply in_cap_lt; unfold fits in F; lia).
  eexists. split; [reflexivity|]. split; [|reflexivity].
  apply live_ext; cbn [toks toks_size].
  - rewrite <- live_length, H, !length_app. reflexivity.
  - intros i Hi. rewrite tok_at_store.
    destruct (i =? List.length l1) eqn:E.
    + apply Nat.eqb_eq in E. subst i. now rewrite nth_middle.
    + apply Nat.eqb_neq in E.
      rewrite (live_tok_at _ _ _ H)
        by (rewrite length_app in *; simpl in *; lia).
      destruct (Nat.lt_ge_cases i (List.length l1)).
      * now rewrite !app_nth1 by assumption.
      * rewrite !app_nth2 by assumption.
        destruct (i - List.length l1) as [|k] eqn:K; [lia | reflexivity].
Qed.

Lemma del_at s l1 mid l2 :
  live s = l1 ++ mid ++ l2 ->
  exists s', del_toks (List.length l1) (List.length l1 + List.length mid) s = Ok s'
             /\ live s' = l1 ++ l2.
Proof.
  intros H. unfold del_toks.
  assert (L : toks_size s = List.length l1 + List.length mid + List.length l2).
  { rewrite <- live_length, H, !length_app. lia. }
  replace (toks_size s <? List.length l1 + List.length mid) with false
    by (symmetry; apply Nat.ltb_ge; lia).
  eexists. split; [reflexivity|].
  apply live_ext; cbn [toks toks_size].
  - rewrite length_app. lia.
  - intros i Hi. rewrite length_app in Hi. rewrite tok_at_memmove.
    destruct (i <? List.length l1) eqn:E1.
    + apply Nat.ltb_lt in E1.
      rewrite (live_tok_at _ _ _ H) by (rewrite !length_app; lia).
      now rewrite !app_nth1 by assumption.
    + apply Nat.ltb_ge in E1.
      replace (i <? List.length l1 + (toks_size s - (List.length l1 + List.length mid)))
        with true by (symmetry; apply Nat.ltb_lt; lia).
      rewrite (live_tok_at _ _ _ H) by (rewrite !length_app; lia).
      rewrite app_nth2 by lia. rewrite app_nth2 by lia. rewrite app_nth2 by lia.
      f_equal. lia.
Qed.

Lemma binary_in_table c : 0 < op_prec c -> in_table c = true.
Proof.
  unfold op_prec.
  destruct (c =? "+")%char eqn:E1; [apply Ascii.eqb_eq in E1; now subst|].
  destruct (c =? "-")%char eqn:E2; [apply Ascii.eqb_eq in E2; now subst|].
  destruct (c =? "*")%char eqn:E3; [apply Ascii.eqb_eq in E3; now subst|].
  destruct (c =? "/")%char eqn:E4; [apply Ascii.eqb_eq in E4; now subst|].
  destruct (c =? "^")%char eqn:E5; [apply Ascii.eqb_eq in E5; now subst|].
  lia.
Qed.

Lemma OP_PREC_in c : in_table c = true -> OP_PREC c = Ok (op_prec c).
Proof. unfold OP_PREC. now intros ->. Qed.

Lemma OP_ORDER_in c : in_table c = true -> OP_ORDER c = Ok (op_order c).
Proof. unfold OP_ORDER. now intros ->. Qed.

Lemma OP_PREC_ok c p : OP_PREC c = Ok p -> in_table c = true /\ p = op_prec c.
Proof.
  unfold OP_PREC. destruct (in_table c); [|discriminate].
  intros [= <-]. now split.
Qed.

Lemma OP_ORDER_ok c o : OP_ORDER c = Ok o -> in_table c = true /\ o = op_order c.
Proof.
  unfold OP_ORDER. destruct (in_table c); [|discriminate].
  intros [= <-]. now split.
Qed.

Lemma at_delim_op d :
  at_delim d = Ok true -> exists c, d = TokOp c /\ in_table c = true /\ op_prec c = 0.
Proof.
  destruct d as [|c| |]; cbn [at_delim]; try discriminate.
  destruct (OP_PREC c) as [p| | |] eqn:E; cbn [bind]; try discriminate.
  apply OP_PREC_ok in E. destruct E as [I ->].
  intros [= H]. apply Nat.eqb_eq in H. now exists c.
Qed.

Lemma at_delim_in c : in_table c = true -> at_delim (TokOp c) = Ok (op_prec c =? 0).
Proof. intros H. cbn [at_delim]. now rewrite OP_PREC_in. Qed.

Lemma scan_delim_some l : forall j mid d l2,
  l = mid ++ d :: l2 -> Forall (fun x => at_delim x = Ok false) mid ->
  at_delim d = Ok true -> scan_delim l j = Some (j + List.length mid).
Proof.
  induction l as [|x l IH]; intros j mid d l2 E Hm Hd.
  - now destruct mid.
  - destruct mid as [|y mid]; simpl in E; injection E as -> ->; cbn [scan_delim].
    + rewrite Hd. f_equal. simpl. lia.
    + inversion Hm as [|? ? Hy Hm']; subst. rewrite Hy.
      rewrite (IH (S j) mid d l2 eq_refl Hm' Hd). f_equal. simpl. lia.
Qed.

Lemma at_delim_not_null x : at_delim x = Ok true -> x <> TokNull.
Proof. now destruct x. Qed.

Lemma skipn_live s l1 l2 :
  live s = l1 ++ l2 ->
  exists r, skipn (List.length l1) (pad (toks_size s) (toks s)) = l2 ++ r.
Proof.
  intros H.
  assert (L : toks_size s = List.length l1 + List.length l2).
  { rewrite <- live_length, H, length_app. reflexivity. }
  exists (skipn (toks_size s) (pad (toks_size s) (toks s))).
  assert (P : firstn (toks_size s) (pad (toks_size s) (toks s)) = l1 ++ l2).
  { rewrite <- H. apply nth_ext with (d := TokNull) (d' := TokNull).
    - rewrite live_length, length_firstn. unfold pad.
      rewrite length_app, repeat_length. lia.
    - intros i Hi. rewrite length_firstn in Hi.
      rewrite nth_firstn. replace (i <? toks_size s) with true
        by (symmetry; apply Nat.ltb_lt; lia).
      rewrite nth_live by lia. apply tok_at_pad. }
  rewrite <- (firstn_skipn (toks_size s) (pad (toks_size s) (toks s))) at 1.
  rewrite P, <- app_assoc, skipn_app, skipn_all2, Nat.sub_diag by lia.
  reflexivity.
Qed.

Lemma in_skipn {A : Type} (x : A) n l : In x (skipn n l) -> In x l.
Proof.
  intros H. rewrite <- (firstn_skipn n l). apply in_or_app. now right.
Qed.

Lemma scan_delim_pad a n j :
  scan_delim (a ++ repeat TokNull n) j = scan_delim a j.
Proof.
  revert j. induction a as [|x a IH]; intros j; simpl.
  - revert j. induction n as [|n IHn]; intros j; simpl; auto.
  - now rewrite IH.
Qed.

Lemma find_delim_at s l1 mid d l2 :
  live s = l1 ++ mid ++ d :: l2 -> fits s ->
  Forall (fun x => at_delim x = Ok false) mid -> at_delim d = Ok true ->
  find_delim s (List.length l1) = Ok (List.length l1 + List.length mid).
Proof.
  intros H F Hm Hd. unfold find_delim.
  destruct (skipn_live _ _ _ H) as [r Hr].
  assert (E : scan_delim (skipn (List.length l1) (toks s)) (List.length l1)
              = Some (List.length l1 + List.length mid)).
  { rewrite <- (scan_delim_pad _ (toks_size s - List.length (toks s) - 0)).
    destruct (Nat.lt_ge_cases (List.length l1) (List.length (toks s))) as [Lt|Ge].
    - replace (skipn (List.length l1) (toks s) ++ repeat TokNull (toks_size s - List.length (toks s) - 0))
        with (skipn (List.length l1) (pad (toks_size s) (toks s))).
      + rewrite Hr. eapply scan_delim_some; eauto. now rewrite <- app_assoc.
      + unfold pad. rewrite skipn_app.
        replace (List.length l1 - List.length (toks s)) with 0 by lia.
        simpl. now rewrite Nat.sub_0_r.
    - exfalso. unfold pad in Hr. rewrite skipn_app, skipn_all2 in Hr by lia.
      simpl in Hr.
      assert (In d (repeat TokNull (toks_size s - List.length (toks s)))).
      { apply (in_skipn d (List.length l1 - List.length (toks s))). rewrite Hr.
        rewrite !in_app_iff. left. right. now left. }
      apply repeat_spec in H0. now apply at_delim_not_null in Hd. }
  rewrite E.
  replace (in_cap (List.length l1 + List.length mid)) with true; [reflexivity|].
  symmetry. apply in_cap_lt. unfold fits in F.
  rewrite <- live_length, H, !length_app in F. simpl in F. lia.
Qed.

(** ** The variable registry *)

Lemma main_vars_builtin : main_vars = Ok builtin_vars.
Proof. reflexivity. Qed.

Lemma set_var_loop_names n v vars : forall vars',
  set_var_loop n v vars = Some vars' -> map name vars' = map name vars.
Proof.
  induction vars as [|x vars IH]; intros vars'; simpl; [discriminate|].
  destruct (String.eqb (name x) n).
  - now intros [= <-].
  - destruct (set_var_loop n v vars) as [r|]; simpl; [|discriminate].
    intros [= <-]. simpl. f_equal. now apply IH.
Qed.

Lemma set_var_loop_none n v vars :
  set_var_loop n v vars = None <-> ~ In n (map name vars).
Proof.
  induction vars as [|x vars IH]; simpl; [tauto|].
  destruct (String.eqb (name x) n) eqn:E.
  - apply String.eqb_eq in E. split; [discriminate | tauto].
  - apply String.eqb_neq in E.
    destruct (set_var_loop n v vars); simpl.
    + split; [discriminate|]. intros H. exfalso. apply H. right.
      destruct (in_dec string_dec n (map name vars)) as [I|I]; [assumption|].
      now apply IH in I.
    + split; [|reflexivity]. intros _ [H|H]; [contradiction|].
      now apply (proj1 IH).
Qed.

Lemma entries_absent n vars : ~ In n (map name vars) -> entries n vars = [].
Proof.
  induction vars as [|x vars IH]; simpl; [reflexivity|]. intros H.
  destruct (String.eqb (name x) n) eqn:E.
  - apply String.eqb_eq in E. tauto.
  - apply IH. tauto.
Qed.

Lemma set_var_loop_entries n v vars : forall vars',
  NoDup (map name vars) -> set_var_loop n v vars = Some vars' ->
  entries n vars' = [{| name := n; val := v |}].
Proof.
  induction vars as [|x vars IH]; intros vars' D; simpl; [discriminate|].
  inversion D as [|? ? Hx D']; subst.
  destruct (String.eqb (name x) n) eqn:E.
  - intros [= <-]. simpl. rewrite E. apply String.eqb_eq in E. subst n.
    now rewrite entries_absent.
  - destruct (set_var_loop n v vars) as [r|] eqn:R; simpl; [|discriminate].
    intros [= <-]. simpl. rewrite E. now apply IH.
Qed.


Lemma set_var_entries n v vars vars' :
  NoDup (map name vars) -> set_var n v vars = Ok vars' ->
  entries n vars' = [{| name := n; val := v |}].
Proof.
  unfold set_var. intros D.
  destruct (set_var_loop n v vars) as [r|] eqn:R.
  - intros [= <-]. now apply (set_var_loop_entries n v vars).
  - destruct (List.length vars <? VARS_CAP); [|discriminate].
    intros [= <-]. apply set_var_loop_none in R.
    unfold entries. rewrite filter_app. fold (entries n vars).
    rewrite entries_absent by assumption. simpl. now rewrite String.eqb_refl.
Qed.




Lemma unset_var_removes n vars :
  NoDup (map name vars) -> ~ In n (map name (unset_var n vars)).
Proof.
  induction vars as [|y vars IH]; simpl; [tauto|]. intros D.
  inversion D as [|? ? Hy D']; subst.
  destruct (String.eqb (name y) n) eqn:E.
  - apply String.eqb_eq in E. now subst n.
  - apply String.eqb_neq in E. simpl. intros [H|H]; [contradiction|].
    now apply IH in H.
Qed.


Lemma var_loop_entries n vars : forall res,
  var_loop n vars res =
  match rev (entries n vars) with
  | x :: _ => Some (val x)
  | [] => res
  end.
Proof.
  induction vars as [|x vars IH]; intros res; simpl; [reflexivity|].
  rewrite IH, (String.eqb_sym n). destruct (String.eqb (name x) n); simpl.
  - destruct (rev (entries n vars)) as [|y r]; simpl; [reflexivity|]. reflexivity.
  - reflexivity.
Qed.



(** ** The claims on the tokenizer *)

Lemma length_list_ascii expr :
  List.length (list_ascii_of_string expr) = String.length expr.
Proof. induction expr as [|c expr IH]; simpl; congruence. Qed.

Lemma tokenize_outcome expr s :
  (N.of_nat (String.length expr) < 2 ^ 64)%N ->
  outcome_of (first_error (list_ascii_of_string expr) 0 0) (tokenize expr s).
Proof.
  intros H. unfold tokenize. apply (tokenize_loop_errors _ _ 0 0).
  - lia.
  - now rewrite length_list_ascii.
  - lia.
Qed.

Lemma tokenize_exit_iff expr s e :
  (N.of_nat (String.length expr) < 2 ^ 64)%N ->
  tokenize expr s = Exit e <-> first_error (list_ascii_of_string expr) 0 0 = Some e.
Proof.
  intros H. pose proof (tokenize_outcome expr s H) as O.
  destruct (first_error (list_ascii_of_string expr) 0 0) as [e'|]; simpl in O.
  - rewrite O. split; congruence.
  - destruct O as [s' ->]. split; discriminate.
Qed.

Lemma first_error_kind l : forall pos depth e,
  first_error l pos depth = Some e ->
  e = UnmatchedOpenParen \/ e = UnmatchedCloseParen
  \/ exists p c, e = UnrecognizedCharacter p c.
Proof.
  induction l as [|x l IH]; intros pos depth e; cbn [first_error].
  - destruct (0 <? depth); [intros [= <-]; auto | discriminate].
  - destruct (x =? Ascii.zero)%char.
    { destruct (0 <? depth); [intros [= <-]; auto | discriminate]. }
    destruct (negb (recognized x)); [intros [= <-]; eauto|].
    destruct (x =? ")")%char.
    { destruct depth; [intros [= <-]; auto | apply IH]. }
    destruct (x =? "(")%char; apply IH.
Qed.

(** C4: [tokenize] fails exactly when the text holds an unrecognized
    character, a [')'] with no open parenthesis before it, or an open
    parenthesis left at the end. The failure is the first one a scan
    character by character meets, [exit(1)] ends the program there, so no
    token array is returned; without such a failure [tokenize] returns. The
    offset reported with an unrecognized character is its position. On
    ["(1+2"], ["1+2)"] and ["1@2"] the failures are the stated ones. *)
Theorem tokenize_fails_exactly (expr : string) (s : TokBuf) :
  (N.of_nat (String.length expr) < 2 ^ 64)%N ->
  let l := list_ascii_of_string expr in
  (forall e, tokenize expr s = Exit e <-> first_error l 0 0 = Some e)
  /\ ((exists s', tokenize expr s = Ok s') <->
      Forall (fun c => recognized c = true) (c_str l)
      /\ well_parenthesized 0 (c_str l))
  /\ ((exists e, tokenize expr s = Exit e) <->
      ~ (Forall (fun c => recognized c = true) (c_str l)
         /\ well_parenthesized 0 (c_str l)))
  /\ (forall e, tokenize expr s = Exit e ->
        e = UnmatchedOpenParen \/ e = UnmatchedCloseParen
        \/ exists p c, e = UnrecognizedCharacter p c
                       /\ nth_error l p = Some c /\ recognized c = false)
  /\ tokenize "(1+2" s = Exit UnmatchedOpenParen
  /\ tokenize "1+2)" s = Exit UnmatchedCloseParen
  /\ tokenize "1@2" s = Exit (UnrecognizedCharacter 1 "@").
Proof.
  intros H l. pose proof (tokenize_outcome expr s H) as O. fold l in O.
  pose proof (first_error_none l 0 0) as N.
  assert (A : forall e, tokenize expr s = Exit e <-> first_error l 0 0 = Some e)
    by (intros e; now apply tokenize_exit_iff).
  assert (B : (exists s', tokenize expr s = Ok s') <-> first_error l 0 0 = None).
  { destruct (first_error l 0 0) as [e'|]; simpl in O.
    - rewrite O. split; [intros [s' ?]|]; discriminate.
    - split; [reflexivity | intros _; exact O]. }
  split; [exact A|]. split; [now rewrite B|]. split; [|split].
  - rewrite <- N. split.
    + intros [e He] Hn. apply A in He. congruence.
    + intros Hn. destruct (first_error l 0 0) as [e'|] eqn:E; [|contradiction].
      exists e'. now apply A.
  - intros e He. apply A in He.
    destruct (first_error_kind _ _ _ _ He) as [->|[->|(p & c & ->)]]; auto.
    right. right. exists p, c.
    destruct (first_error_offset _ _ _ _ _ He) as (_ & Hn & Hr).
    now rewrite Nat.sub_0_r in Hn.
  - split; [|split].
    + apply (tokenize_outcome "(1+2" s). reflexivity.
    + apply (tokenize_outcome "1+2)" s). reflexivity.
    + apply (tokenize_outcome "1@2" s). reflexivity.
Qed.

Lemma tokenize_fails_exactly_witness :
  (N.of_nat (String.length "2*(3+4))") < 2 ^ 64)%N
  /\ tokenize "2*(3+4))" init_buf = Exit UnmatchedCloseParen.
Proof.
  assert (H : (N.of_nat (String.length "2*(3+4))") < 2 ^ 64)%N) by reflexivity.
  split; [exact H|].
  apply (proj1 (tokenize_fails_exactly "2*(3+4))" init_buf H)). reflexivity.
Defined.

Lemma tokenize_tokens expr s :
  tokenize expr init_buf = Ok s ->
  live s = firstn cap (all_tokens implicit_mul expr).
Proof.
  unfold tokenize, all_tokens, lex. intros T.
  apply (tokenize_loop_tokens _ _ _ _ _ [TokOp "("]) in T; [exact T|].
  apply (push_sim [] (TokOp "(") init_buf). now rewrite firstn_nil.
Qed.

Lemma firstn_cap_small (l : list Tok) :
  List.length l <= 1000 -> firstn cap l = l.
Proof.
  intros H. apply firstn_all2. pose proof cap_N as C.
  unfold TOKS_CAP in C. lia.
Qed.

Ltac run_example :=
  match goal with
  | L : ?n <= ?fuel |- run ?m ?v ?f ?fuel ?e = ?r =>
      apply (run_fuel m v f n fuel e r); [| discriminate | exact L]
  end.

(** C3, as amended: before a number or an identifier a ['*'] is inserted
    when the token before is a number, an identifier or [')']; before a
    ['('] it is inserted when the token before is a number or [')'], and not
    after an identifier, which with the ['('] is a call. The tokens that
    [tokenize] returns are those of the text with the ['*'] of this rule
    between them, inside ['('] and [')'], up to the capacity. So ["2x"],
    ["x y"], ["(a)(b)"] and ["2(3)"] get their ['*'], ["2(3+4)"] evaluates
    to 14 and ["2pi"] to twice [M_PI]. *)
Theorem implicit_multiplication (m : Libm) (fuel : nat) :
  40 <= fuel ->
  (forall prev next, implicit_mul prev next =
     match next with
     | TokNum _ | TokIdent _ => ends_term prev
     | TokOp c => (c =? "(")%char && ends_value prev
     | TokNull => false
     end)
  /\ (forall expr s, tokenize expr init_buf = Ok s ->
        live s = firstn cap (all_tokens implicit_mul expr))
  /\ all_tokens implicit_mul "2x"
     = [TokOp "("; TokNum 2%float; TokOp "*"; TokIdent "x"; TokOp ")"]
  /\ all_tokens implicit_mul "x y"
     = [TokOp "("; TokIdent "x"; TokOp "*"; TokIdent "y"; TokOp ")"]
  /\ all_tokens implicit_mul "(a)(b)"
     = [TokOp "("; TokOp "("; TokIdent "a"; TokOp ")"; TokOp "*";
        TokOp "("; TokIdent "b"; TokOp ")"; TokOp ")"]
  /\ all_tokens implicit_mul "2(3)"
     = [TokOp "("; TokNum 2%float; TokOp "*"; TokOp "("; TokNum 3%float; TokOp ")"; TokOp ")"]
  /\ run m builtin_vars (main_functions m) fuel "2(3+4)" = Ok 14%float
  /\ run m builtin_vars (main_functions m) fuel "2pi" = Ok (2 * M_PI)%float.
Proof.
  intros L. split; [reflexivity|]. split; [exact tokenize_tokens|].
  repeat (split; [reflexivity|]).
  split; run_example; vm_compute; reflexivity.
Qed.

Lemma implicit_multiplication_witness :
  40 <= 40
  /\ run sample_libm builtin_vars (main_functions sample_libm) 40 "2(3+4)"
     = Ok 14%float.
Proof.
  split; [apply le_n|].
  apply (implicit_multiplication sample_libm 40 (le_n 40)).
Defined.

(** C3, as stated, fails: no ['*'] goes between an identifier and the ['(']
    after it. *)
Lemma stated_mul_counterexample :
  ~ (forall expr s, tokenize expr init_buf = Ok s ->
       live s = firstn cap (all_tokens stated_mul expr)).
Proof.
  intros H.
  specialize (H "x(2)"%string
                (buf_of [TokOp "("; TokIdent "x"; TokOp "("; TokNum 2%float;
                         TokOp ")"; TokOp ")"]) eq_refl).
  rewrite firstn_cap_small in H by (vm_compute; lia).
  vm_compute in H. discriminate H.
Qed.

Lemma first_error_minus n : forall pos,
  first_error (repeat "-"%char n) pos 0 = None.
Proof. induction n as [|n IH]; intros pos; simpl; [reflexivity | apply IH]. Qed.

Lemma lex_loop_minus n : forall fuel,
  n < fuel -> lex_loop fuel (repeat "-"%char n) = repeat (TokOp "-") n.
Proof.
  induction n as [|n IH]; intros [|fuel] H; try lia; [reflexivity|].
  cbn [repeat lex_loop]. simpl. f_equal. apply IH. lia.
Qed.

Lemma insert_mul_minus n : forall prev,
  insert_mul implicit_mul prev (repeat (TokOp "-") n) = repeat (TokOp "-") n.
Proof.
  induction n as [|n IH]; intros prev; simpl; [reflexivity|].
  f_equal. apply IH.
Qed.

Lemma all_tokens_minus n :
  all_tokens implicit_mul (minus_signs n)
  = TokOp "(" :: repeat (TokOp "-") n ++ [TokOp ")"].
Proof.
  unfold all_tokens, lex, minus_signs.
  rewrite list_ascii_of_string_of_list_ascii, repeat_length.
  rewrite lex_loop_minus by lia. now rewrite insert_mul_minus.
Qed.

Lemma firstn_repeat_S {A : Type} (x : A) k l :
  firstn k (repeat x (S k) ++ l) = repeat x k.
Proof. induction k as [|k IH]; simpl; [reflexivity | f_equal; exact IH]. Qed.

Lemma tokenize_size fuel : forall curr pos depth s s',
  fits s -> tokenize_loop fuel curr pos depth s = Ok s' -> fits s'.
Proof.
  assert (P : forall t s, fits s -> fits (push_tok t s)).
  { intros t s F. unfold fits in *.
    destruct (Nat.lt_ge_cases (toks_size s) cap).
    - rewrite push_tok_room by assumption. simpl. lia.
    - now rewrite push_tok_full. }
  assert (End : forall depth s s', fits s -> tokenize_end depth s = Ok s' -> fits s').
  { intros depth s s' F. unfold tokenize_end.
    destruct (0 <? depth)%N; [discriminate|]. intros [= <-]. now apply P. }
  induction fuel as [|fuel IH]; intros curr pos depth s s' F; [discriminate|].
  cbn [tokenize_loop]. destruct curr as [|c rest]; [now apply End|].
  destruct (c =? Ascii.zero)%char; [now apply End|].
  destruct (c =? " ")%char; [now apply IH|].
  destruct (IS_FLOAT c).
  { apply IH, P. destruct (ends_term (last_tok s)); auto. }
  destruct (IS_ALPHA c).
  { apply IH, P. destruct (ends_term (last_tok s)); auto. }
  destruct ((c =? ")")%char && (depth =? 0)%N); [discriminate|].
  destruct (is_op_char c); [|discriminate].
  apply IH, P. destruct ((c =? "(")%char && ends_value (last_tok s)); auto.
Qed.

(** C10: the token array holds 65536 tokens; [push_tok] on a full array
    changes nothing and reports nothing; [tokenize] then returns as it would
    have, never failing for the lack of room (whether and how it fails does
    not depend on the array it fills), and what it returns is the first
    65536 tokens of the text. A text of 65536 minus signs has 65538 tokens
    and [tokenize] returns normally with the opening ['('] and 65535 of the
    minus signs, the rest and the closing [')'] being lost. *)
Theorem capacity_truncation :
  TOKS_CAP = 65536%N
  /\ (forall t s, cap <= toks_size s -> push_tok t s = s)
  /\ (forall expr s, tokenize expr init_buf = Ok s ->
        live s = firstn cap (all_tokens implicit_mul expr) /\ toks_size s <= cap)
  /\ (forall expr s1 s2 e,
        (N.of_nat (String.length expr) < 2 ^ 64)%N ->
        tokenize expr s1 = Exit e -> tokenize expr s2 = Exit e)
  /\ exists s,
       tokenize (minus_signs cap) init_buf = Ok s
       /\ List.length (all_tokens implicit_mul (minus_signs cap)) = cap + 2
       /\ live s = TokOp "(" :: repeat (TokOp "-") (cap - 1).
Proof.
  split; [reflexivity|]. split; [exact push_tok_full|]. split; [|split].
  - intros expr s T. split; [now apply tokenize_tokens|].
    unfold tokenize in T. apply tokenize_size in T; [exact T|].
    unfold fits, push_tok. simpl. pose proof cap_N as C. unfold TOKS_CAP in C. lia.
  - intros expr s1 s2 e H T.
    apply (tokenize_exit_iff expr s1 e H) in T.
    now apply (tokenize_exit_iff expr s2 e H).
  - pose proof cap_N as C. unfold TOKS_CAP in C.
    assert (L : String.length (minus_signs cap) = cap).
    { unfold minus_signs.
      now rewrite <- length_list_ascii, list_ascii_of_string_of_list_ascii, repeat_length. }
    assert (H : (N.of_nat (String.length (minus_signs cap)) < 2 ^ 64)%N).
    { rewrite L, cap_N. reflexivity. }
    pose proof (tokenize_outcome (minus_signs cap) init_buf H) as O.
    unfold minus_signs in O at 1.
    rewrite list_ascii_of_string_of_list_ascii, first_error_minus in O.
    destruct O as [s T]. exists s. split; [exact T|].
    rewrite all_tokens_minus. split.
    + simpl. rewrite length_app, repeat_length. simpl. lia.
    + rewrite (tokenize_tokens _ _ T), all_tokens_minus.
      assert (E : cap = S (cap - 1)) by lia. revert E.
      generalize (cap - 1). intros k ->. cbn [firstn]. f_equal.
      apply firstn_repeat_S.
Qed.

(** The run of a class of characters is scanned to its end or to the limit. *)
Lemma scan_run_app is_c room : forall r rest,
  Forall (fun c => is_c c = true) r ->
  (List.length r < room -> match rest with c :: _ => is_c c = false | [] => True end) ->
  scan_run is_c room (r ++ rest) = Nat.min room (List.length r).
Proof.
  induction room as [|room IH]; intros r rest F M; [reflexivity|].
  destruct r as [|c r]; simpl.
  - destruct rest as [|c rest]; [reflexivity|]. rewrite M; simpl; [reflexivity | lia].
  - inversion F as [|? ? Hc F']; subst. rewrite Hc. f_equal.
    apply IH; [assumption|]. intros L. apply M. simpl. lia.
Qed.

(** C8, as amended: a run of at most 15 digits and points, up to a character
    that is neither, becomes one number token, the value [strtod] gives the
    run. Of a longer run the first 15 characters become one number token and
    no error is raised; the scan goes on at the 16th character, which starts
    a further number, so that ["1234567890123456"] is tokenized as
    [123456789012345 * 6]. *)
Theorem number_literal (r rest : list ascii) (fuel pos : nat) (depth : N) (s : TokBuf) :
  r <> [] ->
  Forall (fun c => IS_FLOAT c = true) r ->
  match rest with c :: _ => IS_FLOAT c = false | [] => True end ->
  tokenize_loop (S fuel) (r ++ rest) pos depth s
  = tokenize_loop fuel (skipn 15 r ++ rest) (pos + Nat.min 15 (List.length r)) depth
      (push_tok (TokNum (strtod (firstn 15 r)))
         (if ends_term (last_tok s) then push_tok (TokOp "*") s else s))
  /\ (List.length r <= 15 -> firstn 15 r = r /\ skipn 15 r ++ rest = rest)
  /\ (15 < List.length r ->
      exists c r', skipn 15 r = c :: r' /\ IS_FLOAT c = true)
  /\ exists s', tokenize "1234567890123456" init_buf = Ok s'
       /\ live s' = [TokOp "("; TokNum 123456789012345%float; TokOp "*";
                     TokNum 6%float; TokOp ")"].
Proof.
  intros Hr F M. destruct r as [|c r]; [contradiction|].
  inversion F as [|? ? Hc F']; subst. split; [|split; [|split]].
  - cbn [app tokenize_loop].
    destruct (float_char c Hc) as (-> & _).
    replace (c =? " ")%char with false by (clear - Hc; revert Hc; all_chars c).
    rewrite Hc, (scan_run_app IS_FLOAT 14 r rest F') by (intros _; exact M).
    cbn [List.length].
    replace (S (Nat.min 14 (List.length r))) with (Nat.min 15 (S (List.length r)))
      by lia.
    assert (E1 : firstn (Nat.min 15 (S (List.length r))) (c :: r ++ rest)
                 = firstn 15 (c :: r)).
    { change (c :: r ++ rest) with ((c :: r) ++ rest).
      rewrite firstn_app. cbn [List.length].
      replace (Nat.min 15 (S (List.length r)) - S (List.length r)) with 0 by lia.
      rewrite firstn_O, app_nil_r.
      destruct (Nat.le_gt_cases (S (List.length r)) 15).
      - rewrite Nat.min_r by assumption.
        rewrite !firstn_all2; [reflexivity | simpl; lia | simpl; lia].
      - rewrite Nat.min_l by lia. reflexivity. }
    assert (E2 : skipn (Nat.min 15 (S (List.length r))) (c :: r ++ rest)
                 = skipn 15 (c :: r) ++ rest).
    { change (c :: r ++ rest) with ((c :: r) ++ rest).
      rewrite skipn_app. cbn [List.length].
      replace (Nat.min 15 (S (List.length r)) - S (List.length r)) with 0 by lia.
      rewrite skipn_O. f_equal.
      destruct (Nat.le_gt_cases (S (List.length r)) 15).
      - rewrite Nat.min_r by assumption.
        rewrite !skipn_all2; [reflexivity | simpl; lia | simpl; lia].
      - rewrite Nat.min_l by lia. reflexivity. }
    rewrite E1, E2. reflexivity.
  - intros L. rewrite firstn_all2, skipn_all2 by assumption. now split.
  - intros L.
    destruct (skipn 15 (c :: r)) as [|x r'] eqn:E.
    + apply (f_equal (@List.length ascii)) in E. rewrite length_skipn in E.
      simpl in E, L. lia.
    + exists x, r'. split; [reflexivity|].
      assert (I : In x (c :: r)).
      { apply (in_skipn x 15). rewrite E. now left. }
      rewrite Forall_forall in F. now apply F.
  - eexists. split; [vm_compute; reflexivity | vm_compute; reflexivity].
Qed.

Lemma number_literal_witness :
  exists s,
    tokenize_loop 5 (list_ascii_of_string "12.5+1") 0 0%N init_buf = Ok s
    /\ live s = [TokNum 12.5%float; TokOp "+"; TokNum 1%float; TokOp ")"].
Proof.
  destruct (number_literal (list_ascii_of_string "12.5") (list_ascii_of_string "+1")
              4 0 0%N init_buf) as (E & _);
    [discriminate | repeat constructor | reflexivity |].
  change (list_ascii_of_string "12.5+1")
    with (list_ascii_of_string "12.5" ++ list_ascii_of_string "+1").
  rewrite E. eexists. split; vm_compute; reflexivity.
Defined.

(** C8, as stated, fails: a run of 16 digits does not become a single number
    token holding its first 15 characters. *)
Lemma long_literal_counterexample :
  ~ (forall r, r <> [] -> Forall (fun c => IS_FLOAT c = true) r ->
       exists s, tokenize (string_of_list_ascii r) init_buf = Ok s
                 /\ live s = [TokOp "("; TokNum (strtod (firstn 15 r)); TokOp ")"]).
Proof.
  intros H.
  destruct (H (list_ascii_of_string "1234567890123456")) as (s & T & L).
  - discriminate.
  - repeat constructor.
  - vm_compute in T. injection T as <-. vm_compute in L. discriminate L.
Qed.

(** ** The evaluator on the tokens of an expression *)

Lemma read_in s l1 x l2 i :
  live s = l1 ++ x :: l2 -> fits s -> i = List.length l1 -> read s i = Ok x.
Proof. intros H F ->. now apply (read_at s l1 x l2). Qed.

Lemma fits_live s s' :
  fits s -> List.length (live s') <= List.length (live s) -> fits s'.
Proof. unfold fits. rewrite !live_length. lia. Qed.

Lemma write_in s l1 x l2 v i :
  live s = l1 ++ x :: l2 -> fits s -> i = List.length l1 ->
  exists s', write i v s = Ok s' /\ live s' = l1 ++ v :: l2 /\ fits s'.
Proof.
  intros H F ->. destruct (write_at s l1 x l2 v H F) as (s' & W & L & Sz).
  exists s'. repeat split; try assumption. unfold fits in *. now rewrite Sz.
Qed.

Lemma del_in s l1 mid l2 b e :
  live s = l1 ++ mid ++ l2 -> fits s ->
  b = List.length l1 -> e = b + List.length mid ->
  exists s', del_toks b e s = Ok s' /\ live s' = l1 ++ l2 /\ fits s'.
Proof.
  intros H F -> ->. destruct (del_at s l1 mid l2 H) as (s' & D & L).
  exists s'. repeat split; try assumption.
  apply (fits_live s s' F). rewrite L, H, !length_app. lia.
Qed.

Lemma find_delim_in s l1 mid d l2 j k :
  live s = l1 ++ mid ++ d :: l2 -> fits s ->
  Forall (fun x => at_delim x = Ok false) mid -> at_delim d = Ok true ->
  j = List.length l1 -> k = j + List.length mid ->
  find_delim s j = Ok k.
Proof. intros H F Hm Hd -> ->. now apply (find_delim_at s l1 mid d l2). Qed.

Lemma flat_stack_length st : List.length (flat_stack st) = 2 * List.length st.
Proof.
  induction st as [|[lhs op] st IH]; simpl; [reflexivity|].
  rewrite length_app, IH. simpl. lia.
Qed.

Ltac reassoc :=
  cbn [flat_stack flat_expr flat_term flat_args];
  repeat (progress (repeat rewrite <- app_assoc; cbn [app]));
  reflexivity.
Ltac len :=
  repeat (progress (rewrite ?length_app, ?flat_stack_length; cbn [List.length]));
  lia.
Ltac side H := first [assumption | (rewrite H; reassoc) | len].

Lemma binary_not_paren op : 0 < op_prec op -> (op =? "(")%char = false.
Proof.
  destruct op as [[] [] [] [] [] [] [] []]; vm_compute; intros H;
    try reflexivity; inversion H.
Qed.

Lemma apply_op_binary m cop lhs n res :
  apply_op m cop lhs n = Ok res -> 0 < op_prec cop.
Proof.
  unfold apply_op, op_prec.
  destruct (cop =? "+")%char; [lia|]. destruct (cop =? "-")%char; [lia|].
  destruct (cop =? "*")%char; [lia|]. destruct (cop =? "/")%char; [lia|].
  destruct (cop =? "^")%char; [lia | discriminate].
Qed.

Section Refinement.
Variable m : Libm.
Variable vars : list Var.
Variable functions : list Function.

Local Abbreviation collapse := (collapse m vars functions).
Local Abbreviation collapse_args := (collapse_args m vars functions).
Local Abbreviation eval := (eval m vars functions).
Local Abbreviation eval_loop := (eval_loop m vars functions).
Local Abbreviation collapses := (collapses m vars functions).
Local Abbreviation collapses_args := (collapses_args m vars functions).
Local Abbreviation climbs := (climbs m vars functions).

Lemma collapses_num v : collapses (TNum v) v.
Proof.
  intros s pre x post H F P. exists 1, s. split; [|now split].
  intros [|fuel] Hf; [lia|].
  rewrite collapse_S. unfold collapse_body.
  do 3 (rewrite (read_in s (pre ++ [x]) (TokNum v) post) by side H;
        cbn [bind is_op]).
  reflexivity.
Qed.
Lemma collapses_var x v :
  var_loop x vars None = Some v -> collapses (TVar x) v.
Proof.
  intros Hv s pre x0 post H F P. cbn [flat_term app] in H.
  destruct (write_in s (pre ++ [x0]) (TokIdent x) post (TokNum v)
              (List.length pre + 1)) as (s' & W & L & F'); try side H.
  exists 1, s'. split; [|split; [rewrite L; reassoc | assumption]].
  intros [|fuel] Hf; [lia|].
  rewrite collapse_S. unfold collapse_body.
  do 3 (rewrite (read_in s (pre ++ [x0]) (TokIdent x) post) by side H;
        cbn [bind is_op]).
  destruct post as [|y post].
  - replace (List.length pre + 2 <? toks_size s) with false
      by (symmetry; apply Nat.ltb_ge; rewrite <- live_length, H; len).
    cbn [bind andb]. now rewrite Hv.
  - replace (List.length pre + 2 <? toks_size s) with true
      by (symmetry; apply Nat.ltb_lt; rewrite <- live_length, H; len).
    rewrite (read_in s (pre ++ [x0; TokIdent x]) y post) by side H.
    cbn [bind andb]. cbn [hd] in P. rewrite P. now rewrite Hv.
Qed.

Lemma collapses_neg t v : collapses t v -> collapses (TNeg t) (v * -1)%float.
Proof.
  intros IH s pre x post H F P. cbn [flat_term app] in H.
  destruct (IH s (pre ++ [x]) (TokOp "-") post) as (n1 & s1 & E1 & L1 & F1);
    try side H.
  rewrite length_app in E1. cbn [List.length] in E1.
  destruct (write_in s1 (pre ++ [x; TokOp "-"]) (TokNum v) post
              (TokNum (v * -1)%float) (List.length pre + 2))
    as (s2 & W2 & L2 & F2); try side L1.
  destruct (del_in s2 (pre ++ [x]) [TokOp "-"] (TokNum (v * -1)%float :: post)
              (List.length pre + 1) (List.length pre + 2))
    as (s3 & D3 & L3 & F3); try side L2.
  exists (S n1), s3. split; [|split; [rewrite L3; reassoc | assumption]].
  intros [|fuel] Hf; [lia|].
  rewrite collapse_S. unfold collapse_body.
  rewrite (read_in s (pre ++ [x]) (TokOp "-") (flat_term t ++ post)) by side H.
  cbn [bind]. change (is_op "-" (TokOp "-")) with true. cbv iota.
  rewrite E1 by lia. cbn [bind].
  rewrite (read_in s1 (pre ++ [x; TokOp "-"]) (TokNum v) post) by side L1.
  cbn [bind]. rewrite W2. cbn [bind]. rewrite D3. cbn [bind].
  do 2 (rewrite (read_in s3 (pre ++ [x]) (TokNum (v * -1)%float) post) by side L3;
        cbn [bind is_op]).
  reflexivity.
Qed.

Lemma climbs_eval e v :
  climbs [] e v ->
  forall s pre d dc post,
    live s = pre ++ d :: flat_expr e ++ dc :: post -> fits s ->
    at_delim d = Ok true -> at_delim dc = Ok true -> is_op "(" dc = false ->
    exists fuel s',
      (forall fuel', fuel <= fuel' -> eval fuel' (List.length pre) s = Ok (v, s'))
      /\ live s' = pre ++ d :: TokNum v :: dc :: post /\ fits s'.
Proof.
  intros C s pre d dc post H F Hd Hdc Hp.
  destruct (C s pre d dc post (Forall_nil _) H F Hd Hdc Hp) as (n & s' & E & L & F').
  cbn [List.length] in E. rewrite Nat.mul_0_r, Nat.add_0_r in E.
  exists (S n), s'. split; [|now split].
  intros [|fuel] Hf; [lia|].
  rewrite eval_S. unfold eval_body.
  rewrite (read_in s pre d (flat_expr e ++ dc :: post)) by side H.
  cbn [bind]. rewrite Hd. cbn [bind]. apply E. lia.
Qed.

Lemma collapses_paren e v : climbs [] e v -> collapses (TParen e) v.
Proof.
  intros C s pre x post H F P. cbn [flat_term app] in H.
  destruct (climbs_eval e v C s (pre ++ [x]) (TokOp "(") (TokOp ")") post)
    as (n1 & s1 & E1 & L1 & F1); try side H; try reflexivity.
  rewrite length_app in E1. cbn [List.length] in E1.
  destruct (del_in s1 (pre ++ [x; TokOp "("]) [TokNum v; TokOp ")"] post
              (List.length pre + 2) (List.length pre + 2 + 1 + 1))
    as (s2 & D2 & L2 & F2); try side L1.
  destruct (write_in s2 (pre ++ [x]) (TokOp "(") post (TokNum v)
              (List.length pre + 1))
    as (s3 & W3 & L3 & F3); try side L2.
  exists (S n1), s3. split; [|split; [rewrite L3; reassoc | assumption]].
  intros [|fuel] Hf; [lia|].
  rewrite collapse_S. unfold collapse_body.
  rewrite (read_in s (pre ++ [x]) (TokOp "(")
             (flat_expr e ++ [TokOp ")"] ++ post)) by side H.
  cbn [bind]. change (is_op "-" (TokOp "(")) with false. cbv iota. cbn [bind].
  rewrite (read_in s (pre ++ [x]) (TokOp "(")
             (flat_expr e ++ [TokOp ")"] ++ post)) by side H.
  cbn [bind]. change (is_op "(" (TokOp "(")) with true. cbv iota.
  rewrite E1 by lia. cbn [bind].
  rewrite (find_delim_in s1 (pre ++ [x; TokOp "("]) [TokNum v] (TokOp ")") post
             (List.length pre + 2) (List.length pre + 2 + 1))
    by (try side L1; repeat constructor).
  cbn [bind]. rewrite D2. cbn [bind]. rewrite W3. cbn [bind].
  rewrite (read_in s3 (pre ++ [x]) (TokNum v) post) by side L3.
  reflexivity.
Qed.
Lemma collapses_call f a vs r :
  collapses_args a vs -> List.length vs <= 16 ->
  call_loop f vs functions None = Ok (Some r) ->
  collapses (TCall f a) r.
Proof.
  intros IH Hl Hc s pre x post H F P. cbn [flat_term app] in H.
  destruct (IH s (pre ++ [x; TokIdent f]) (TokOp "(") post [])
    as (n1 & s1 & E1 & L1 & F1); try side H; try reflexivity.
  rewrite length_app in E1. cbn [List.length app] in E1.
  destruct (write_in s1 (pre ++ [x]) (TokIdent f) post (TokNum r)
              (List.length pre + 1))
    as (s2 & W2 & L2 & F2); try side L1.
  exists (S n1), s2. split; [|split; [rewrite L2; reassoc | assumption]].
  intros [|fuel] Hf; [lia|].
  rewrite collapse_S. unfold collapse_body.
  do 3 (rewrite (read_in s (pre ++ [x]) (TokIdent f)
                   (TokOp "(" :: (flat_args a ++ [TokOp ")"]) ++ post)) by side H;
        cbn [bind is_op]).
  replace (List.length pre + 2 <? toks_size s) with true
    by (symmetry; apply Nat.ltb_lt; rewrite <- live_length, H; len).
  rewrite (read_in s (pre ++ [x; TokIdent f]) (TokOp "(")
             ((flat_args a ++ [TokOp ")"]) ++ post)) by side H.
  cbn [bind andb]. change (is_op "(" (TokOp "(")) with true. cbv iota.
  rewrite E1 by lia. cbn [bind].
  rewrite (read_in s1 (pre ++ [x]) (TokIdent f) post) by side L1.
  cbn [bind]. rewrite Hc. cbn [bind]. exact W2.
Qed.

Lemma collapses_args_one e v : climbs [] e v -> collapses_args (AOne e) [v].
Proof.
  intros C s pre d post acc H F Hd Hl. cbn [flat_args] in H.
  cbn [List.length] in Hl.
  destruct (climbs_eval e v C s pre d (TokOp ")") post)
    as (n1 & s1 & E1 & L1 & F1); try assumption; try reflexivity.
  destruct (del_in s1 pre [d; TokNum v; TokOp ")"] post
              (List.length pre) (List.length pre + 1 + 1 + 1))
    as (s2 & D2 & L2 & F2); try side L1.
  exists (S n1), s2. split; [|now split].
  intros [|fuel] Hf; [lia|].
  rewrite collapse_args_S. unfold collapse_args_body.
  replace (List.length acc <? 16) with true by (symmetry; apply Nat.ltb_lt; lia).
  rewrite E1 by lia. cbn [bind].
  rewrite (find_delim_in s1 (pre ++ [d]) [TokNum v] (TokOp ")") post
             (List.length pre + 1) (List.length pre + 1 + 1))
    by (try side L1; repeat constructor).
  cbn [bind].
  rewrite (read_in s1 (pre ++ [d; TokNum v]) (TokOp ")") post) by side L1.
  cbn [bind]. change (is_op ")" (TokOp ")")) with true. cbv iota.
  rewrite D2. reflexivity.
Qed.

Lemma collapses_args_cons e v a vs :
  climbs [] e v -> collapses_args a vs -> collapses_args (ACons e a) (v :: vs).
Proof.
  intros C IH s pre d post acc H F Hd Hl. cbn [flat_args] in H.
  cbn [List.length] in Hl.
  destruct (climbs_eval e v C s pre d (TokOp ",") (flat_args a ++ TokOp ")" :: post))
    as (n1 & s1 & E1 & L1 & F1); try side H; try reflexivity.
  destruct (del_in s1 pre [d; TokNum v] (TokOp "," :: flat_args a ++ TokOp ")" :: post)
              (List.length pre) (List.length pre + 1 + 1))
    as (s2 & D2 & L2 & F2); try side L1.
  destruct (IH s2 pre (TokOp ",") post (acc ++ [v]))
    as (n2 & s3 & E2 & L3 & F3); try assumption; try reflexivity.
  { rewrite length_app. cbn [List.length]. lia. }
  exists (S (Nat.max n1 n2)), s3. split; [|now split].
  intros [|fuel] Hf; [lia|].
  rewrite collapse_args_S. unfold collapse_args_body.
  replace (List.length acc <? 16) with true by (symmetry; apply Nat.ltb_lt; lia).
  rewrite E1 by lia. cbn [bind].
  rewrite (find_delim_in s1 (pre ++ [d]) [TokNum v] (TokOp ",")
             (flat_args a ++ TokOp ")" :: post)
             (List.length pre + 1) (List.length pre + 1 + 1))
    by (try side L1; repeat constructor).
  cbn [bind].
  rewrite (read_in s1 (pre ++ [d; TokNum v]) (TokOp ",")
             (flat_args a ++ TokOp ")" :: post)) by side L1.
  cbn [bind]. change (is_op ")" (TokOp ",")) with false.
  change (is_op "," (TokOp ",")) with true. cbv iota.
  rewrite D2. cbn [bind]. rewrite E2 by lia.
  now rewrite <- app_assoc.
Qed.

(** One turn of the loop of [eval], after [collapse] has made the term a
    number: return between two delimiters, go right past an operator that
    binds later, or fold the operator on the left. *)
Lemma eval_loop_return fuel s s1 pre c v c' post :
  collapse fuel (List.length pre) s = Ok s1 ->
  live s1 = pre ++ TokOp c :: TokNum v :: TokOp c' :: post -> fits s1 ->
  in_table c = true -> op_prec c = 0 -> in_table c' = true -> op_prec c' = 0 ->
  eval_loop (S fuel) (List.length pre) s = Ok (v, s1).
Proof.
  intros C L F Ic Hc Ic' Hc'.
  rewrite eval_loop_S. unfold eval_loop_body.
  rewrite C. cbn [bind].
  rewrite (read_in s1 pre (TokOp c) (TokNum v :: TokOp c' :: post)) by side L.
  cbn [bind].
  rewrite (read_in s1 (pre ++ [TokOp c]) (TokNum v) (TokOp c' :: post)) by side L.
  cbn [bind].
  rewrite (read_in s1 (pre ++ [TokOp c; TokNum v]) (TokOp c') post) by side L.
  cbn [bind]. rewrite (OP_PREC_in c Ic), (OP_PREC_in c' Ic'), (OP_ORDER_in c Ic).
  cbn [bind]. now rewrite Hc, Hc'.
Qed.

Lemma eval_loop_advance fuel s s1 pre cop n nop rest :
  collapse fuel (List.length pre) s = Ok s1 ->
  live s1 = pre ++ TokOp cop :: TokNum n :: TokOp nop :: rest -> fits s1 ->
  in_table cop = true -> 0 < op_prec nop -> defers cop nop = true ->
  eval_loop (S fuel) (List.length pre) s = eval_loop fuel (List.length pre + 2) s1.
Proof.
  intros C L F Ic Hn Hd.
  rewrite eval_loop_S. unfold eval_loop_body.
  rewrite C. cbn [bind].
  rewrite (read_in s1 pre (TokOp cop) (TokNum n :: TokOp nop :: rest)) by side L.
  cbn [bind].
  rewrite (read_in s1 (pre ++ [TokOp cop]) (TokNum n) (TokOp nop :: rest)) by side L.
  cbn [bind].
  rewrite (read_in s1 (pre ++ [TokOp cop; TokNum n]) (TokOp nop) rest) by side L.
  cbn [bind].
  rewrite (OP_PREC_in cop Ic), (OP_PREC_in nop (binary_in_table nop Hn)),
    (OP_ORDER_in cop Ic).
  cbn [bind].
  replace (op_prec nop =? 0) with false by (symmetry; apply Nat.eqb_neq; lia).
  rewrite andb_false_r. unfold defers in Hd. now rewrite Hd.
Qed.

Lemma fold_cond cop nop :
  defers cop nop = false ->
  (op_prec nop <? op_prec cop)
  || ((op_prec nop =? op_prec cop) && order_eqb (op_order cop) OrderLtr) = true.
Proof.
  unfold defers. intros H. apply orb_false_elim in H. destruct H as [H1 H2].
  apply Nat.ltb_ge in H1.
  destruct (op_prec nop <? op_prec cop) eqn:E; [reflexivity|].
  apply Nat.ltb_ge in E.
  replace (op_prec nop =? op_prec cop) with true in *
    by (symmetry; apply Nat.eqb_eq; lia).
  now destruct (op_order cop).
Qed.

Lemma eval_loop_fold s1 pre t' lhs cop n nop rest res :
  live s1 = pre ++ TokNum lhs :: TokOp cop :: TokNum n :: TokOp nop :: rest ->
  fits s1 -> List.length pre = S t' ->
  in_table nop = true ->
  defers cop nop = false -> apply_op m cop lhs n = Ok res ->
  exists s3,
    live s3 = pre ++ TokNum res :: TokOp nop :: rest /\ fits s3
    /\ forall fuel s,
         collapse fuel (S (S t')) s = Ok s1 ->
         eval_loop (S fuel) (S (S t')) s = eval_loop fuel t' s3.
Proof.
  intros L F Hp In Hd Ha. pose proof (apply_op_binary _ _ _ _ _ Ha) as Hb.
  pose proof (binary_in_table cop Hb) as Ic.
  destruct (write_in s1 (pre ++ [TokNum lhs; TokOp cop]) (TokNum n)
              (TokOp nop :: rest) (TokNum res) (S (S t') + 1))
    as (s2 & W2 & L2 & F2); try side L.
  destruct (del_in s2 pre [TokNum lhs; TokOp cop] (TokNum res :: TokOp nop :: rest)
              (S t') (S (S t') + 1))
    as (s3 & D3 & L3 & F3); try side L2.
  exists s3. split; [assumption|]. split; [assumption|]. intros fuel s C.
  rewrite eval_loop_S. unfold eval_loop_body.
  rewrite C. cbn [bind].
  rewrite (read_in s1 (pre ++ [TokNum lhs]) (TokOp cop)
             (TokNum n :: TokOp nop :: rest)) by side L.
  cbn [bind].
  rewrite (read_in s1 (pre ++ [TokNum lhs; TokOp cop]) (TokNum n)
             (TokOp nop :: rest)) by side L.
  cbn [bind].
  rewrite (read_in s1 (pre ++ [TokNum lhs; TokOp cop; TokNum n]) (TokOp nop) rest)
    by side L.
  cbn [bind].
  rewrite (OP_PREC_in cop Ic), (OP_PREC_in nop In), (OP_ORDER_in cop Ic).
  cbn [bind].
  replace (op_prec cop =? 0) with false by (symmetry; apply Nat.eqb_neq; lia).
  cbn [andb]. pose proof (fold_cond _ _ Hd) as Hf. unfold defers in Hd.
  rewrite Hd, Hf.
  rewrite (read_in s1 pre (TokNum lhs)
             (TokOp cop :: TokNum n :: TokOp nop :: rest)) by side L.
  cbn [bind]. rewrite Ha. cbn [bind]. rewrite W2. cbn [bind]. rewrite D3.
  reflexivity.
Qed.

Lemma defers_delim cop c :
  op_prec c = 0 -> 0 < op_prec cop -> defers cop c = false.
Proof.
  intros Hc Hb. unfold defers. rewrite Hc.
  replace (op_prec cop <? 0) with false by (symmetry; apply Nat.ltb_ge; lia).
  replace (0 =? op_prec cop) with false by (symmetry; apply Nat.eqb_neq; lia).
  reflexivity.
Qed.

Lemma climbs_done t v : collapses t v -> climbs [] (ETerm t) v.
Proof.
  intros IH s pre d dc post _ H F Hd Hdc Hp.
  destruct (at_delim_op d Hd) as (c & -> & Ic & Pc).
  destruct (at_delim_op dc Hdc) as (c' & -> & Ic' & Pc').
  destruct (IH s pre (TokOp c) (TokOp c' :: post))
    as (n1 & s1 & E1 & L1 & F1); try side H.
  cbn [List.length]. rewrite Nat.mul_0_r, Nat.add_0_r.
  exists (S n1), s1. split; [|now split].
  intros [|fuel] Hf; [lia|].
  apply (eval_loop_return fuel s s1 pre c v c' post); auto. apply E1. lia.
Qed.

Lemma climbs_first t n op e v :
  collapses t n -> 0 < op_prec op -> climbs [(n, op)] e v ->
  climbs [] (EBin t op e) v.
Proof.
  intros IH Hop IHc s pre d dc post _ H F Hd Hdc Hp.
  destruct (at_delim_op d Hd) as (c & -> & Ic & Pc).
  destruct (IH s pre (TokOp c) (TokOp op :: flat_expr e ++ dc :: post))
    as (n1 & s1 & E1 & L1 & F1); try side H.
  { cbn [hd is_op]. now apply binary_not_paren. }
  destruct (IHc s1 pre (TokOp c) dc post)
    as (n2 & s2 & E2 & L2 & F2); try side L1.
  { now repeat constructor. }
  cbn [List.length]. rewrite Nat.mul_0_r, Nat.add_0_r.
  exists (S (Nat.max n1 n2)), s2. split; [|now split].
  intros [|fuel] Hf; [lia|].
  rewrite (eval_loop_advance fuel s s1 pre c n op (flat_expr e ++ dc :: post));
    try assumption.
  - apply E2. lia.
  - apply E1. lia.
  - unfold defers. rewrite Pc.
    now replace (0 <? op_prec op) with true by (symmetry; now apply Nat.ltb_lt).
Qed.

Lemma climbs_defer lhs cop st t n op e v :
  collapses t n -> 0 < op_prec op -> defers cop op = true ->
  climbs ((n, op) :: (lhs, cop) :: st) e v ->
  climbs ((lhs, cop) :: st) (EBin t op e) v.
Proof.
  intros IH Hop Hdf IHc s pre d dc post B H F Hd Hdc Hp.
  destruct (IH s (pre ++ d :: flat_stack st ++ [TokNum lhs]) (TokOp cop)
              (TokOp op :: flat_expr e ++ dc :: post))
    as (n1 & s1 & E1 & L1 & F1); try side H.
  { cbn [hd is_op]. now apply binary_not_paren. }
  destruct (IHc s1 pre d dc post) as (n2 & s2 & E2 & L2 & F2); try side L1.
  { now constructor. }
  assert (Ic : in_table cop = true).
  { apply binary_in_table. now inversion B. }
  exists (S (Nat.max n1 n2)), s2. split; [|now split].
  intros [|fuel] Hf; [lia|].
  replace (List.length pre + 2 * List.length ((lhs, cop) :: st))
    with (List.length (pre ++ d :: flat_stack st ++ [TokNum lhs])) by len.
  rewrite (eval_loop_advance fuel s s1 _ cop n op (flat_expr e ++ dc :: post));
    try assumption.
  - replace (List.length (pre ++ d :: flat_stack st ++ [TokNum lhs]) + 2)
      with (List.length pre + 2 * List.length ((n, op) :: (lhs, cop) :: st)) by len.
    apply E2. lia.
  - apply E1. lia.
Qed.

Lemma folding_step lhs cop st t n nop rest res v (Q : TokBuf -> Prop) s pre d :
  collapses t n ->
  defers cop nop = false -> apply_op m cop lhs n = Ok res ->
  (nop =? "(")%char = false -> in_table nop = true ->
  live s = pre ++ d :: flat_stack st
           ++ TokNum lhs :: TokOp cop :: flat_term t ++ TokOp nop :: rest ->
  fits s ->
  (forall s3,
     live s3 = pre ++ d :: flat_stack st ++ TokNum res :: TokOp nop :: rest ->
     fits s3 ->
     exists fuel s',
       (forall fuel', fuel <= fuel' ->
          eval_loop fuel' (List.length pre + 2 * List.length st) s3 = Ok (v, s'))
       /\ Q s') ->
  exists fuel s',
    (forall fuel', fuel <= fuel' ->
       eval_loop fuel' (List.length pre + 2 * List.length ((lhs, cop) :: st)) s
       = Ok (v, s'))
    /\ Q s'.
Proof.
  intros IH Hdf Ha Hnp In H F Next.
  destruct (IH s (pre ++ d :: flat_stack st ++ [TokNum lhs]) (TokOp cop)
              (TokOp nop :: rest))
    as (n1 & s1 & E1 & L1 & F1); try side H; try assumption.
  destruct (eval_loop_fold s1 (pre ++ d :: flat_stack st)
              (List.length pre + 2 * List.length st) lhs cop n nop rest res)
    as (s3 & L3 & F3 & Step); try side L1; try assumption.
  destruct (Next s3) as (n2 & s2 & E2 & Q2); try side L3.
  exists (S (Nat.max n1 n2)), s2. split; [|assumption].
  intros [|fuel] Hf; [lia|].
  replace (List.length pre + 2 * List.length ((lhs, cop) :: st))
    with (S (S (List.length pre + 2 * List.length st))) by len.
  rewrite (Step fuel s).
  - apply E2. lia.
  - replace (S (S (List.length pre + 2 * List.length st)))
      with (List.length (pre ++ d :: flat_stack st ++ [TokNum lhs])) by len.
    apply E1. lia.
Qed.

Lemma climbs_fold lhs cop st t n op e res v :
  collapses t n -> 0 < op_prec op -> defers cop op = false ->
  apply_op m cop lhs n = Ok res ->
  climbs st (EBin (TNum res) op e) v ->
  climbs ((lhs, cop) :: st) (EBin t op e) v.
Proof.
  intros IH Hop Hdf Ha IHc s pre d dc post B H F Hd Hdc Hp.
  apply (folding_step lhs cop st t n op (flat_expr e ++ dc :: post) res v
           (fun s' => live s' = pre ++ d :: TokNum v :: dc :: post /\ fits s')
           s pre d);
    try assumption.
  - now apply binary_not_paren.
  - now apply binary_in_table.
  - rewrite H. reassoc.
  - intros s3 L3 F3. apply (IHc s3 pre d dc post); try assumption.
    now inversion B.
Qed.

Lemma climbs_fold_last lhs cop st t n res v :
  collapses t n -> apply_op m cop lhs n = Ok res ->
  climbs st (ETerm (TNum res)) v ->
  climbs ((lhs, cop) :: st) (ETerm t) v.
Proof.
  intros IH Ha IHc s pre d dc post B H F Hd Hdc Hp.
  destruct (at_delim_op dc Hdc) as (c' & E & Ic' & Pc'). subst dc.
  apply (folding_step lhs cop st t n c' post res v
           (fun s' => live s' = pre ++ d :: TokNum v :: TokOp c' :: post /\ fits s')
           s pre d);
    try assumption.
  - apply defers_delim; [assumption|]. now apply apply_op_binary in Ha.
  - rewrite H. reassoc.
  - intros s3 L3 F3. apply (IHc s3 pre d (TokOp c') post); try assumption.
    now inversion B.
Qed.

(** The evaluator computes the value of the expression in place: each term
    becomes the number holding its value, a call loses its arguments and
    its parentheses, and the loop of [eval] leaves the value between the two
    delimiters. *)
Lemma evaluator_refines :
  (forall t v, term_val m vars functions t v -> collapses t v)
  /\ (forall a vs, args_val m vars functions a vs -> collapses_args a vs)
  /\ (forall st e v, climb m vars functions st e v -> climbs st e v).
Proof.
  apply val_mutind; intros.
  - apply collapses_num.
  - now apply collapses_neg.
  - now apply collapses_paren.
  - now apply collapses_var.
  - now apply (collapses_call f a vs).
  - now apply collapses_args_one.
  - now apply collapses_args_cons.
  - now apply climbs_done.
  - now apply (climbs_first t n).
  - now apply (climbs_defer lhs cop st t n).
  - now apply (climbs_fold lhs cop st t n op e res).
  - now apply (climbs_fold_last lhs cop st t n res).
Qed.

(** The three cases of [collapse] on any array, not only on the tokens of a
    valid expression. *)
Lemma collapse_minus fuel s s1 pre x y z post :
  read s (List.length pre + 1) = Ok (TokOp "-") ->
  collapse fuel (List.length pre + 1) s = Ok s1 ->
  live s1 = pre ++ x :: y :: z :: post -> fits s1 ->
  match z with
  | TokNum n =>
      exists s3, collapse (S fuel) (List.length pre) s = Ok s3
                 /\ live s3 = pre ++ x :: TokNum (n * -1)%float :: post
  | _ => collapse (S fuel) (List.length pre) s = Exit UncollapsibleUnaryMinus
  end.
Proof.
  intros R C L F.
  assert (U : collapse (S fuel) (List.length pre) s
              = collapse_body vars functions (collapse fuel) (collapse_args fuel)
                  (eval fuel) (List.length pre) s) by reflexivity.
  unfold collapse_body in U. rewrite R in U. cbn [bind] in U.
  change (is_op "-" (TokOp "-")) with true in U. cbv iota in U.
  rewrite C in U. cbn [bind] in U.
  rewrite (read_in s1 (pre ++ [x; y]) z post) in U by side L. cbn [bind] in U.
  destruct z as [|c|n|i]; try exact U.
  destruct (write_in s1 (pre ++ [x; y]) (TokNum n) post
              (TokNum (n * -1)%float) (List.length pre + 2))
    as (s2 & W2 & L2 & F2); try side L.
  destruct (del_in s2 (pre ++ [x]) [y] (TokNum (n * -1)%float :: post)
              (List.length pre + 1) (List.length pre + 2))
    as (s3 & D3 & L3 & F3); try side L2.
  exists s3. split; [|rewrite L3; reassoc].
  rewrite U, W2. cbn [bind]. rewrite D3. cbn [bind].
  do 2 (rewrite (read_in s3 (pre ++ [x]) (TokNum (n * -1)%float) post) by side L3;
        cbn [bind is_op]).
  reflexivity.
Qed.

Lemma collapse_call f a vs :
  collapses_args a vs -> List.length vs <= 16 ->
  forall s pre x post,
    live s = pre ++ x :: flat_term (TCall f a) ++ post -> fits s ->
    exists fuel s1,
      live s1 = pre ++ x :: TokIdent f :: post /\ fits s1
      /\ forall fuel', fuel <= fuel' ->
           collapse fuel' (List.length pre) s
           = (r <- call_loop f vs functions None ;;
              match r with
              | Some outer_res => write (List.length pre + 1) (TokNum outer_res) s1
              | None => Exit (UnknownFunction f)
              end).
Proof.
  intros IH Hl s pre x post H F. cbn [flat_term app] in H.
  destruct (IH s (pre ++ [x; TokIdent f]) (TokOp "(") post [])
    as (n1 & s1 & E1 & L1 & F1); try side H; try reflexivity.
  rewrite length_app in E1. cbn [List.length app] in E1.
  exists (S n1), s1. split; [rewrite L1; reassoc|]. split; [assumption|].
  intros [|fuel] Hf; [lia|].
  rewrite collapse_S. unfold collapse_body.
  do 3 (rewrite (read_in s (pre ++ [x]) (TokIdent f)
                   (TokOp "(" :: (flat_args a ++ [TokOp ")"]) ++ post)) by side H;
        cbn [bind is_op]).
  replace (List.length pre + 2 <? toks_size s) with true
    by (symmetry; apply Nat.ltb_lt; rewrite <- live_length, H; len).
  rewrite (read_in s (pre ++ [x; TokIdent f]) (TokOp "(")
             ((flat_args a ++ [TokOp ")"]) ++ post)) by side H.
  cbn [bind andb]. change (is_op "(" (TokOp "(")) with true. cbv iota.
  rewrite E1 by lia. cbn [bind].
  rewrite (read_in s1 (pre ++ [x]) (TokIdent f) post) by side L1.
  reflexivity.
Qed.

Lemma collapse_variable fuel s pre x0 x post :
  live s = pre ++ x0 :: TokIdent x :: post -> fits s ->
  is_op "(" (hd TokNull post) = false ->
  collapse (S fuel) (List.length pre) s
  = match var_loop x vars None with
    | Some res => write (List.length pre + 1) (TokNum res) s
    | None => Exit (UnknownVariable x)
    end.
Proof.
  intros H F P.
  rewrite collapse_S. unfold collapse_body.
  do 3 (rewrite (read_in s (pre ++ [x0]) (TokIdent x) post) by side H;
        cbn [bind is_op]).
  destruct post as [|y post].
  - replace (List.length pre + 2 <? toks_size s) with false
      by (symmetry; apply Nat.ltb_ge; rewrite <- live_length, H; len).
    reflexivity.
  - replace (List.length pre + 2 <? toks_size s) with true
      by (symmetry; apply Nat.ltb_lt; rewrite <- live_length, H; len).
    rewrite (read_in s (pre ++ [x0; TokIdent x]) y post) by side H.
    cbn [bind andb]. cbn [hd] in P. now rewrite P.
Qed.

End Refinement.


(** ** Every valid expression has a value *)

Lemma size_term_pos t : 1 <= size_term t.
Proof. destruct t; simpl; lia. Qed.

Lemma var_loop_set x vars : forall res,
  In x (map name vars) \/ res <> None ->
  exists v, var_loop x vars res = Some v.
Proof.
  induction vars as [|y vars IH]; intros res H; simpl.
  - destruct H as [[]|H]. destruct res as [v|]; [now exists v | contradiction].
  - apply IH. destruct (String.eqb x (name y)) eqn:E.
    + right. discriminate.
    + apply String.eqb_neq in E. destruct H as [[H|H]|H]; auto; congruence.
Qed.

Lemma call_loop_registered f vs fs : forall res,
  (forall g, In g fs -> fn_name g = f -> n_args g = List.length vs) ->
  In f (map fn_name fs) \/ res <> None ->
  exists r, call_loop f vs fs res = Ok (Some r).
Proof.
  induction fs as [|g fs IH]; intros res A H; simpl.
  - destruct H as [[]|H]. destruct res as [r|]; [now exists r | contradiction].
  - destruct (String.eqb f (fn_name g)) eqn:E.
    + apply String.eqb_eq in E.
      rewrite (A g) by (simpl; auto). rewrite Nat.eqb_refl.
      apply IH; [intros; apply A; simpl; auto | right; discriminate].
    + apply String.eqb_neq in E. apply IH; [intros; apply A; simpl; auto|].
      destruct H as [[H|H]|H]; auto; congruence.
Qed.

Lemma apply_op_total m cop lhs n :
  0 < op_prec cop -> exists res, apply_op m cop lhs n = Ok res.
Proof.
  unfold apply_op, op_prec.
  destruct (cop =? "+")%char; [eauto|]. destruct (cop =? "-")%char; [eauto|].
  destruct (cop =? "*")%char; [eauto|]. destruct (cop =? "/")%char; [eauto|].
  destruct (cop =? "^")%char; [eauto | lia].
Qed.

Section Totality.
Variable m : Libm.
Variable vars : list Var.
Variable functions : list Function.

Local Abbreviation term_val := (term_val m vars functions).
Local Abbreviation args_val := (args_val m vars functions).
Local Abbreviation climb := (climb m vars functions).

Lemma args_val_length a vs : args_val a vs -> List.length vs = nargs a.
Proof.
  revert vs. induction a as [e|e a IH]; intros vs H; inversion H; subst; simpl.
  - reflexivity.
  - f_equal. now apply IH.
Qed.

Lemma valid_has_value k :
  (forall t, 2 * size_term t <= k -> valid_term vars functions t ->
             exists v, term_val t v)
  /\ (forall a, 2 * size_args a <= k -> valid_args vars functions a ->
                exists vs, args_val a vs)
  /\ (forall st e, 2 * size_expr e + List.length st <= k ->
                   valid_expr vars functions e -> binary_stack st ->
                   exists v, climb st e v).
Proof.
  induction k as [|k (IHt & IHa & IHc)].
  { repeat split.
    - intros t H. pose proof (size_term_pos t). lia.
    - intros [e|e a] H; simpl in H; lia.
    - intros st [t|t op e] H; simpl in H; lia. }
  repeat split.
  - intros [v|t|e|x|f a] Hs Hv; cbn [size_term valid_term] in Hs, Hv.
    + exists v. constructor.
    + destruct (IHt t) as [v V]; [lia | assumption|].
      eexists. apply val_neg. exact V.
    + destruct (IHc [] e) as [v V]; [simpl; lia | assumption | constructor|].
      exists v. now apply val_paren.
    + destruct (var_loop_set x vars None) as [v V]; [now left|].
      exists v. now apply val_var.
    + destruct Hv as (Va & Hn & Hin & Har).
      destruct (IHa a) as [vs V]; [lia | assumption|].
      pose proof (args_val_length a vs V) as L.
      destruct (call_loop_registered f vs functions None) as [r R].
      * intros g Hg Hf. rewrite L. now apply Har.
      * now left.
      * exists r. apply (val_call m vars functions f a vs r); [exact V | lia | exact R].
  - intros [e|e a] Hs Hv; cbn [size_args valid_args] in Hs, Hv.
    + destruct (IHc [] e) as [v V]; [simpl; lia | assumption | constructor|].
      exists [v]. now apply val_one.
    + destruct Hv as [Ve Va].
      destruct (IHc [] e) as [v V]; [simpl; lia | assumption | constructor|].
      destruct (IHa a) as [vs Vs]; [lia | assumption|].
      exists (v :: vs). now apply val_cons.
  - intros st [t|t op e] Hs Hv Hst; cbn [size_expr valid_expr] in Hs, Hv.
    + destruct (IHt t) as [n V]; [lia | assumption|].
      destruct st as [|[lhs cop] st].
      * exists n. now apply climb_done.
      * inversion Hst as [|? ? Hcop Hst']; subst. cbn [snd] in Hcop.
        destruct (apply_op_total m cop lhs n Hcop) as [res A].
        destruct (IHc st (ETerm (TNum res))) as [v C];
          [pose proof (size_term_pos t); simpl in *; lia | exact I | assumption|].
        exists v. now apply (climb_fold_last m vars functions lhs cop st t n res).
    + destruct Hv as (Vt & Hop & Ve).
      destruct (IHt t) as [n V]; [lia | assumption|].
      pose proof (size_term_pos t) as Hp.
      destruct st as [|[lhs cop] st].
      * destruct (IHc [(n, op)] e) as [v C];
          [simpl in *; lia | assumption | repeat constructor; assumption|].
        exists v. now apply (climb_first m vars functions t n).
      * inversion Hst as [|? ? Hcop Hst']; subst. cbn [snd] in Hcop.
        destruct (defers cop op) eqn:D.
        -- destruct (IHc ((n, op) :: (lhs, cop) :: st) e) as [v C];
             [simpl in *; lia | assumption | repeat constructor; assumption|].
           exists v. now apply (climb_defer m vars functions lhs cop st t n).
        -- destruct (apply_op_total m cop lhs n Hcop) as [res A].
           destruct (IHc st (EBin (TNum res) op e)) as [v C];
             [simpl in *; lia | repeat split; assumption | assumption|].
           exists v. now apply (climb_fold m vars functions lhs cop st t n op e res).
Qed.
End Totality.

(** ** The claims on the evaluator *)

Lemma live_buf_of l : live (buf_of l) = l.
Proof.
  apply live_ext; [reflexivity|]. intros i Hi. reflexivity.
Qed.

Lemma fits_buf_of l : List.length l <= 1000 -> fits (buf_of l).
Proof.
  intros H. unfold fits, buf_of. simpl. pose proof cap_N as C.
  unfold TOKS_CAP in C. lia.
Qed.

Lemma tokenize_fits txt s : tokenize txt init_buf = Ok s -> fits s.
Proof.
  unfold tokenize. apply tokenize_size.
  unfold fits, push_tok. simpl. pose proof cap_N as C. unfold TOKS_CAP in C. lia.
Qed.

Lemma value_of_fuel m vars functions n fuel t s r :
  value_of (eval m vars functions n t s) = r -> r <> OutOfFuel -> n <= fuel ->
  value_of (eval m vars functions fuel t s) = r.
Proof.
  intros E N L. destruct (fuel_mono m vars functions n fuel L) as (_ & _ & H & _).
  destruct (H t s) as [O|O].
  - rewrite O in E. simpl in E. congruence.
  - now rewrite <- O.
Qed.

Lemma binary_cases op :
  0 < op_prec op ->
  op = "+"%char \/ op = "-"%char \/ op = "*"%char \/ op = "/"%char \/ op = "^"%char.
Proof.
  unfold op_prec.
  destruct (op =? "+")%char eqn:E1; [apply Ascii.eqb_eq in E1; auto|].
  destruct (op =? "-")%char eqn:E2; [apply Ascii.eqb_eq in E2; auto|].
  destruct (op =? "*")%char eqn:E3; [apply Ascii.eqb_eq in E3; auto|].
  destruct (op =? "/")%char eqn:E4; [apply Ascii.eqb_eq in E4; auto|].
  destruct (op =? "^")%char eqn:E5; [apply Ascii.eqb_eq in E5; auto 6 | lia].
Qed.

Lemma call_loop_absent f vs fs : forall res,
  ~ In f (map fn_name fs) -> call_loop f vs fs res = Ok res.
Proof.
  induction fs as [|g fs IH]; intros res H; simpl; [reflexivity|].
  destruct (String.eqb f (fn_name g)) eqn:E.
  - apply String.eqb_eq in E. simpl in H. exfalso. auto.
  - apply IH. simpl in H. tauto.
Qed.

Lemma call_loop_mismatch f k vs fs : forall res,
  (forall g, In g fs -> fn_name g = f -> n_args g = k) ->
  In f (map fn_name fs) -> List.length vs <> k ->
  call_loop f vs fs res = Exit (ArityMismatch f k (List.length vs)).
Proof.
  induction fs as [|g fs IH]; intros res A I N; simpl; [destruct I|].
  destruct (String.eqb f (fn_name g)) eqn:E.
  - apply String.eqb_eq in E. pose proof (A g (or_introl eq_refl) (eq_sym E)) as K.
    rewrite K. replace (List.length vs =? k) with false
      by (symmetry; now apply Nat.eqb_neq).
    now rewrite <- E.
  - apply String.eqb_neq in E. apply IH; [intros; apply A; simpl; auto | | assumption].
    destruct I as [I|I]; [congruence | assumption].
Qed.

Lemma call_loop_result f vs fs : forall res r,
  call_loop f vs fs res = Ok (Some r) ->
  res = Some r \/ exists g, In g fs /\ fn_name g = f /\ r = func g vs.
Proof.
  induction fs as [|g fs IH]; intros res r; simpl.
  - intros [= ->]. now left.
  - destruct (String.eqb f (fn_name g)) eqn:E.
    + apply String.eqb_eq in E.
      destruct (List.length vs =? n_args g); [|discriminate].
      intros H. apply IH in H. destruct H as [[= <-]|(g' & I & Hn & Hr)].
      * right. exists g. auto.
      * right. exists g'. auto.
    + intros H. apply IH in H. destruct H as [H|(g' & I & Hn & Hr)]; [now left|].
      right. exists g'. auto.
Qed.

Lemma var_loop_absent x vars : forall res,
  ~ In x (map name vars) -> var_loop x vars res = res.
Proof.
  induction vars as [|y vars IH]; intros res H; simpl; [reflexivity|].
  simpl in H. destruct (String.eqb x (name y)) eqn:E.
  - apply String.eqb_eq in E. exfalso. auto.
  - apply IH. tauto.
Qed.

(** ** The lookups and the entries they end with *)

Lemma call_loop_app n args fs gs : forall res,
  call_loop n args (fs ++ gs) res
  = (r <- call_loop n args fs res ;; call_loop n args gs r).
Proof.
  induction fs as [|f fs IH]; intros res; simpl; [reflexivity|].
  destruct (String.eqb n (fn_name f)); [|apply IH].
  destruct (List.length args =? n_args f); [apply IH | reflexivity].
Qed.

Lemma var_loop_app x l1 l2 : forall res,
  var_loop x (l1 ++ l2) res = var_loop x l2 (var_loop x l1 res).
Proof. induction l1 as [|y l1 IH]; intros res; simpl; [reflexivity | apply IH]. Qed.

Lemma holds_cons vars x y z : holds vars x y -> holds (z :: vars) x y.
Proof.
  intros (l1 & l2 & -> & N & A). exists (z :: l1), l2. now repeat split.
Qed.

Lemma var_loop_holds x vars : forall res v,
  var_loop x vars res = Some v ->
  (res = Some v /\ ~ In x (map name vars)) \/ exists y, holds vars x y /\ v = val y.
Proof.
  induction vars as [|z vars IH]; intros res v H; simpl in H.
  - left. now split.
  - apply IH in H. destruct H as [[H A]|(y & Hy & ->)].
    + destruct (String.eqb x (name z)) eqn:E.
      * right. apply String.eqb_eq in E. injection H as <-.
        exists z. split; [|reflexivity]. exists [], vars. now repeat split.
      * left. split; [exact H|]. apply String.eqb_neq in E.
        simpl. intros [I|I]; [congruence | contradiction].
    + right. exists y. split; [now apply holds_cons | reflexivity].
Qed.

Lemma holds_var_loop vars x y :
  holds vars x y -> forall res, var_loop x vars res = Some (val y).
Proof.
  intros (l1 & l2 & -> & N & A) res. rewrite var_loop_app. simpl.
  rewrite <- N, String.eqb_refl. apply var_loop_absent. now rewrite N.
Qed.

Lemma holds_in vars x y : holds vars x y -> In y vars /\ name y = x.
Proof.
  intros (l1 & l2 & -> & N & _). split; [|exact N].
  apply in_or_app. right. now left.
Qed.

Lemma holds_distinct vars y :
  NoDup (map name vars) -> In y vars -> holds vars (name y) y.
Proof.
  intros D I. apply in_split in I. destruct I as (l1 & l2 & ->).
  exists l1, l2. split; [reflexivity|]. split; [reflexivity|].
  rewrite map_app in D. apply NoDup_remove_2 in D.
  intros I. apply D. apply in_or_app. now right.
Qed.

Lemma serves_cons fs f k g h :
  serves fs f k g -> (fn_name h = f -> n_args h = k) -> serves (h :: fs) f k g.
Proof.
  intros ((l1 & l2 & -> & N & A) & K) Hh. split.
  - exists (h :: l1), l2. now repeat split.
  - intros g' [<-|I] E; [now apply Hh | now apply K].
Qed.

Lemma call_loop_serves f vs fs : forall res r,
  call_loop f vs fs res = Ok (Some r) ->
  (res = Some r /\ ~ In f (map fn_name fs))
  \/ exists g, serves fs f (List.length vs) g /\ r = func g vs.
Proof.
  induction fs as [|h fs IH]; intros res r H; simpl in H.
  - left. injection H as ->. now split.
  - destruct (String.eqb f (fn_name h)) eqn:E.
    + apply String.eqb_eq in E.
      destruct (List.length vs =? n_args h) eqn:K; [|discriminate H].
      apply Nat.eqb_eq in K. right.
      apply IH in H. destruct H as [[H A]|(g & Hg & ->)].
      * injection H as <-. exists h. split; [|reflexivity]. split.
        -- exists [], fs. now repeat split.
        -- intros g' [<-|I] E'; [now symmetry|].
           exfalso. apply A. rewrite <- E'. now apply in_map.
      * exists g. split; [|reflexivity]. apply serves_cons; [exact Hg | now symmetry].
    + apply String.eqb_neq in E. apply IH in H. destruct H as [[H A]|(g & Hg & ->)].
      * left. split; [exact H|]. simpl. intros [I|I]; [congruence | contradiction].
      * right. exists g. split; [|reflexivity]. apply serves_cons; [exact Hg|].
        intros E'. congruence.
Qed.

Lemma call_loop_arities f vs fs : forall res,
  (forall g, In g fs -> fn_name g = f -> n_args g = List.length vs) ->
  exists r, call_loop f vs fs res = Ok r.
Proof.
  induction fs as [|h fs IH]; intros res K; simpl; [now exists res|].
  destruct (String.eqb f (fn_name h)) eqn:E.
  - apply String.eqb_eq in E. rewrite (K h (or_introl eq_refl) (eq_sym E)).
    rewrite Nat.eqb_refl. apply IH. intros g I. apply K. now right.
  - apply IH. intros g I. apply K. now right.
Qed.

Lemma serves_call_loop fs f vs g :
  serves fs f (List.length vs) g ->
  forall res, call_loop f vs fs res = Ok (Some (func g vs)).
Proof.
  intros ((l1 & l2 & -> & N & A) & K) res. rewrite call_loop_app.
  destruct (call_loop_arities f vs l1 res) as [r R].
  { intros g' I. apply K. apply in_or_app. now left. }
  rewrite R. cbn [bind call_loop]. rewrite <- N, String.eqb_refl.
  rewrite (K g) by (try (apply in_or_app; right; now left); exact N).
  rewrite Nat.eqb_refl. apply call_loop_absent. now rewrite N.
Qed.

Lemma apply_op_binop m op a b v :
  apply_op m op a b = Ok v <-> binop_val m op a b v.
Proof.
  split.
  - unfold apply_op.
    destruct (op =? "+")%char eqn:E1;
      [apply Ascii.eqb_eq in E1; subst; intros [= <-]; constructor|].
    destruct (op =? "-")%char eqn:E2;
      [apply Ascii.eqb_eq in E2; subst; intros [= <-]; constructor|].
    destruct (op =? "*")%char eqn:E3;
      [apply Ascii.eqb_eq in E3; subst; intros [= <-]; constructor|].
    destruct (op =? "/")%char eqn:E4;
      [apply Ascii.eqb_eq in E4; subst; intros [= <-]; constructor|].
    destruct (op =? "^")%char eqn:E5;
      [apply Ascii.eqb_eq in E5; subst; intros [= <-]; constructor|].
    discriminate.
  - intros H. now destruct H.
Qed.

(** ** The value of an expression read as a tree *)

Lemma order_of_prec c : order_eqb (op_order c) OrderRtl = (op_prec c =? 3).
Proof.
  unfold op_order, op_prec.
  destruct c as [[] [] [] [] [] [] [] []]; reflexivity.
Qed.

Lemma defers_prec a b :
  defers a b = (op_prec a <? op_prec b)
               || ((op_prec b =? op_prec a) && (op_prec a =? 3)).
Proof. unfold defers. now rewrite order_of_prec. Qed.

Lemma order_rtl c : op_order c = OrderRtl <-> op_prec c = 3.
Proof.
  pose proof (order_of_prec c) as H. destruct (op_order c); simpl in H.
  - split; [discriminate|]. intros E. rewrite E in H. discriminate.
  - split; [|reflexivity]. intros _. symmetry in H. now apply Nat.eqb_eq in H.
Qed.

Lemma order_ltr c : op_order c = OrderLtr <-> op_prec c <> 3.
Proof.
  pose proof (order_rtl c) as H. destruct (op_order c).
  - split; [|reflexivity]. intros _ E. apply H in E. discriminate.
  - split; [discriminate|]. intros N. exfalso. apply N. now apply H.
Qed.

Ltac bool_cases :=
  repeat match goal with
         | |- context [?a <? ?b] =>
             let E := fresh "E" in
             destruct (a <? b) eqn:E;
             [apply Nat.ltb_lt in E | apply Nat.ltb_ge in E]
         | |- context [?a =? ?b] =>
             let E := fresh "E" in
             destruct (a =? b) eqn:E;
             [apply Nat.eqb_eq in E | apply Nat.eqb_neq in E]
         end;
  cbn [orb andb].

Lemma left_ok_defers o l a b :
  left_ok o (Node a l b) <-> defers l o = false.
Proof.
  cbn [left_ok]. rewrite defers_prec, order_ltr.
  bool_cases; split; intros H; try reflexivity; try discriminate H; lia.
Qed.

Lemma right_ok_defers o r a b :
  right_ok o (Node a r b) <-> defers o r = true.
Proof.
  cbn [right_ok]. rewrite defers_prec, order_rtl.
  bool_cases; split; intros H; try reflexivity; try discriminate H; lia.
Qed.

Lemma expr_app_assoc a o b o' c :
  expr_app (expr_app a o b) o' c = expr_app a o (expr_app b o' c).
Proof. induction a as [t|t op a IH]; simpl; [reflexivity | now rewrite IH]. Qed.

Lemma with_first_leaf e : with_first (Leaf (first_term e)) e = e.
Proof. now destruct e. Qed.

Section ParseTree.
Variable m : Libm.
Variable vars : list Var.
Variable functions : list Function.

Local Abbreviation term_val := (term_val m vars functions).
Local Abbreviation args_val := (args_val m vars functions).
Local Abbreviation climb := (climb m vars functions).
Local Abbreviation term_den := (term_den m vars functions).
Local Abbreviation args_den := (args_den m vars functions).
Local Abbreviation expr_den := (expr_den m vars functions).
Local Abbreviation tree_val := (tree_val m vars functions).
Local Abbreviation stack_ok := (stack_ok m vars functions).
Local Abbreviation first_ok := (first_ok m vars functions).

Lemma first_ok_leaf ts e : first_ok ts (Leaf (first_term e)) e.
Proof.
  split; [exact I|]. split; [intros n H; now constructor|].
  split; [now destruct ts as [|[T o] ts] | now destruct e].
Qed.

Lemma first_ok_fold Tc cop lhs ts st T0 t n res rest :
  stack_ok ((Tc, cop) :: ts) ((lhs, cop) :: st) ->
  first_ok ((Tc, cop) :: ts) T0 (match rest with
                                 | Some (op, e) => EBin t op e
                                 | None => ETerm t
                                 end) ->
  term_den t n -> apply_op m cop lhs n = Ok res ->
  match rest with
  | Some (op, _) => defers cop op = false
  | None => True
  end ->
  stack_ok ts st
  /\ first_ok ts (Node Tc cop T0) (match rest with
                                   | Some (op, e) => EBin (TNum res) op e
                                   | None => ETerm (TNum res)
                                   end).
Proof.
  intros S (R0 & V0 & Hr & Hl) Vt A D.
  inversion S as [|? ? ? ? ? Vc Rc Lc Pc Ch S']; subst.
  split; [exact S'|].
  assert (V : tree_val (Node Tc cop T0) res).
  { apply (tree_node m vars functions Tc cop T0 lhs n res);
      [exact Vc | | now apply apply_op_binop].
    apply V0. now destruct rest as [[op e]|]. }
  split; [cbn [respects]; auto|]. split.
  { intros n' H. assert (n' = res) as ->; [|exact V].
    destruct rest as [[op e]|]; cbn [first_term] in H; now inversion H. }
  split.
  - destruct ts as [|[T' o'] ts']; [exact I|]. now apply right_ok_defers.
  - destruct rest as [[op e]|]; [|exact I]. now apply left_ok_defers.
Qed.

(** The value [climb] gives, the decisions of the loop of [eval], is the
    value of the expression read as a tree, at every depth. *)
Lemma climb_den :
  (forall t v, term_val t v -> term_den t v)
  /\ (forall a vs, args_val a vs -> args_den a vs)
  /\ (forall st e v, climb st e v ->
      forall ts T0, stack_ok ts st -> first_ok ts T0 e ->
      exists T, inorder T = unstack ts (with_first T0 e) /\ respects T /\ tree_val T v).
Proof.
  assert (Top : forall e v,
            (forall ts T0, stack_ok ts [] -> first_ok ts T0 e ->
               exists T, inorder T = unstack ts (with_first T0 e)
                         /\ respects T /\ tree_val T v) ->
            expr_den e v).
  { intros e v H.
    destruct (H [] (Leaf (first_term e))) as (T & E & R & V);
      [constructor | apply first_ok_leaf|].
    cbn [unstack] in E. rewrite with_first_leaf in E. rewrite <- E.
    now constructor. }
  apply val_mutind.
  - (* val_num *) constructor.
  - (* val_neg *) intros t v _ IH. now constructor.
  - (* val_paren *) intros e v _ IH. constructor. now apply Top.
  - (* val_var *)
    intros x v H. apply var_loop_holds in H.
    destruct H as [[H _]|(y & Hy & ->)]; [discriminate H | now constructor].
  - (* val_call *)
    intros f a vs r _ IH L H. apply call_loop_serves in H.
    destruct H as [[H _]|(g & Hg & ->)]; [discriminate H | now constructor].
  - (* val_one *) intros e v _ IH. constructor. now apply Top.
  - (* val_cons *) intros e v a vs _ IH _ IHa. constructor; [now apply Top | exact IHa].
  - (* climb_done *)
    intros t v _ Vt ts T0 S (R0 & V0 & _ & _). inversion S; subst.
    exists T0. split; [reflexivity|]. split; [exact R0 | now apply V0].
  - (* climb_first *)
    intros t n op e v _ Vt Hop C IH ts T0 S (R0 & V0 & _ & Hl). inversion S; subst.
    destruct (IH [(T0, op)] (Leaf (first_term e))) as (T & I & R & V).
    + apply stack_cons; auto; constructor.
    + apply first_ok_leaf.
    + exists T. rewrite with_first_leaf in I. now split.
  - (* climb_defer *)
    intros lhs cop st t n op e v _ Vt Hop D C IH ts T0 S (R0 & V0 & Hr & Hl).
    destruct ts as [|[Tc o] ts]; [inversion S|].
    assert (o = cop) by (inversion S; reflexivity). subst o.
    destruct (IH ((T0, op) :: (Tc, cop) :: ts) (Leaf (first_term e)))
      as (T & I & R & V).
    + apply stack_cons; auto.
    + apply first_ok_leaf.
    + exists T. rewrite with_first_leaf in I. now split.
  - (* climb_fold *)
    intros lhs cop st t n op e res v _ Vt Hop D A C IH ts T0 S F.
    destruct ts as [|[Tc o] ts]; [inversion S|].
    assert (o = cop) by (inversion S; reflexivity). subst o.
    destruct (first_ok_fold Tc cop lhs ts st T0 t n res (Some (op, e)) S F Vt A D)
      as (S' & F').
    destruct (IH ts (Node Tc cop T0) S' F') as (T & I & R & V).
    exists T. split; [|now split].
    rewrite I. cbn [with_first unstack inorder]. now rewrite expr_app_assoc.
  - (* climb_fold_last *)
    intros lhs cop st t n res v _ Vt A C IH ts T0 S F.
    destruct ts as [|[Tc o] ts]; [inversion S|].
    assert (o = cop) by (inversion S; reflexivity). subst o.
    destruct (first_ok_fold Tc cop lhs ts st T0 t n res None S F Vt A I)
      as (S' & F').
    destruct (IH ts (Node Tc cop T0) S' F') as (T & E & R & V).
    exists T. now split.
Qed.

Lemma expr_val_den e v : expr_val m vars functions e v -> expr_den e v.
Proof.
  intros C. destruct climb_den as (_ & _ & H).
  destruct (H [] e v C [] (Leaf (first_term e))) as (T & E & R & V);
    [constructor | apply first_ok_leaf|].
  cbn [unstack] in E. rewrite with_first_leaf in E. rewrite <- E. now constructor.
Qed.

End ParseTree.

(** *** There is one parse tree *)

Lemma all_ops_app P a o b :
  all_ops P (expr_app a o b) <-> all_ops P a /\ P o /\ all_ops P b.
Proof. induction a as [t|t op a IH]; simpl; [tauto | rewrite IH; tauto]. Qed.

Lemma all_ops_impl (P Q : ascii -> Prop) e :
  (forall x, P x -> Q x) -> all_ops P e -> all_ops Q e.
Proof. intros H. induction e as [t|t op e IH]; simpl; [auto | intuition]. Qed.

Lemma defers_right_left o r x :
  defers o r = true -> defers x r = false -> defers o x = true.
Proof.
  rewrite !defers_prec. intros H1 H2.
  apply orb_true_iff in H1. apply orb_false_iff in H2. destruct H2 as [H2 H3].
  apply Nat.ltb_ge in H2. apply orb_true_iff.
  destruct H1 as [H1|H1].
  - apply Nat.ltb_lt in H1. left. apply Nat.ltb_lt. lia.
  - apply andb_true_iff in H1. destruct H1 as [H1 H4].
    apply Nat.eqb_eq in H1, H4.
    destruct (Nat.eq_dec (op_prec x) (op_prec r)) as [E|E].
    + right. apply andb_true_iff. split; apply Nat.eqb_eq; lia.
    + left. apply Nat.ltb_lt. lia.
Qed.

Lemma defers_right_right o r y :
  defers o r = true -> defers r y = true -> defers o y = true.
Proof.
  rewrite !defers_prec. intros H1 H2.
  apply orb_true_iff in H1. apply orb_true_iff in H2. apply orb_true_iff.
  destruct H1 as [H1|H1]; destruct H2 as [H2|H2];
    repeat match goal with
           | H : _ && _ = true |- _ => apply andb_true_iff in H; destruct H
           | H : (_ <? _) = true |- _ => apply Nat.ltb_lt in H
           | H : (_ =? _) = true |- _ => apply Nat.eqb_eq in H
           end.
  - left. apply Nat.ltb_lt. lia.
  - left. apply Nat.ltb_lt. lia.
  - left. apply Nat.ltb_lt. lia.
  - right. apply andb_true_iff. split; apply Nat.eqb_eq; lia.
Qed.

Lemma defers_left_left l o x :
  defers l o = false -> defers x l = false -> defers x o = false.
Proof.
  rewrite !defers_prec. intros H1 H2.
  apply orb_false_iff in H1. apply orb_false_iff in H2.
  destruct H1 as [H1 H3]. destruct H2 as [H2 H4].
  apply Nat.ltb_ge in H1, H2. apply orb_false_iff. split.
  - apply Nat.ltb_ge. lia.
  - destruct (op_prec o =? op_prec x) eqn:E1; [|reflexivity].
    apply Nat.eqb_eq in E1. cbn [andb].
    assert (E2 : op_prec l = op_prec x) by lia.
    assert (E3 : op_prec o = op_prec l) by lia.
    rewrite <- E2. rewrite E3, Nat.eqb_refl in H3. exact H3.
Qed.

Lemma defers_left_right l o y :
  defers l o = false -> defers l y = true -> defers y o = false.
Proof.
  rewrite !defers_prec. intros H1 H2.
  apply orb_false_iff in H1. destruct H1 as [H1 H3]. apply Nat.ltb_ge in H1.
  apply orb_true_iff in H2. apply orb_false_iff.
  destruct H2 as [H2|H2].
  - apply Nat.ltb_lt in H2. split; [apply Nat.ltb_ge; lia|].
    replace (op_prec o =? op_prec y) with false; [reflexivity|].
    symmetry. apply Nat.eqb_neq. lia.
  - apply andb_true_iff in H2. destruct H2 as [H2 H4].
    apply Nat.eqb_eq in H2, H4. split; [apply Nat.ltb_ge; lia|].
    destruct (op_prec o =? op_prec y) eqn:E; [|reflexivity].
    apply Nat.eqb_eq in E. exfalso.
    replace (op_prec o =? op_prec l) with true in H3
      by (symmetry; apply Nat.eqb_eq; lia).
    replace (op_prec l =? 3) with true in H3 by (symmetry; apply Nat.eqb_eq; lia).
    discriminate H3.
Qed.

(** Under the operator at the root, every operator of the left operand is
    applied before it and every operator of the right operand defers to
    none on its left. *)
Lemma respects_sides T :
  respects T ->
  forall o,
    (left_ok o T -> all_ops (fun x => defers x o = false) (inorder T))
    /\ (right_ok o T -> all_ops (fun x => defers o x = true) (inorder T)).
Proof.
  induction T as [t|l IHl op r IHr]; intros R o; [now split|].
  destruct R as (Hp & Ll & Rr & Rl & Rrr). cbn [inorder].
  destruct (IHl Rl op) as [Hl _]. destruct (IHr Rrr op) as [_ Hr].
  specialize (Hl Ll). specialize (Hr Rr). split; intros H.
  - apply left_ok_defers in H. apply all_ops_app. split; [|split; [exact H|]].
    + eapply all_ops_impl; [|exact Hl]. intros x Hx. cbv beta in Hx |- *.
      now apply (defers_left_left op).
    + eapply all_ops_impl; [|exact Hr]. intros y Hy. cbv beta in Hy |- *.
      now apply (defers_left_right op).
  - apply right_ok_defers in H. apply all_ops_app. split; [|split; [exact H|]].
    + eapply all_ops_impl; [|exact Hl]. intros x Hx. cbv beta in Hx |- *.
      now apply (defers_right_left o op).
    + eapply all_ops_impl; [|exact Hr]. intros y Hy. cbv beta in Hy |- *.
      now apply (defers_right_right o op).
Qed.

(** An expression splits in one way at an operator that all operators on
    its left are applied before and all on its right defer to. *)
Lemma split_unique a : forall o b a' o' b',
  expr_app a o b = expr_app a' o' b' ->
  all_ops (fun x => defers x o = false) a -> all_ops (fun x => defers o x = true) b ->
  all_ops (fun x => defers x o' = false) a' -> all_ops (fun x => defers o' x = true) b' ->
  a = a' /\ o = o' /\ b = b'.
Proof.
  induction a as [t|t op a IH]; intros o b a' o' b' E A B A' B';
    destruct a' as [t'|t' op' a']; cbn [expr_app] in E; injection E as Et Eo Eb.
  - now subst.
  - subst. exfalso.
    cbn [all_ops] in A'. destruct A' as [A1 _].
    apply all_ops_app in B. destruct B as (_ & B1 & _). congruence.
  - subst. exfalso.
    cbn [all_ops] in A. destruct A as [A1 _].
    apply all_ops_app in B'. destruct B' as (_ & B1 & _). congruence.
  - subst. cbn [all_ops] in A, A'.
    destruct (IH o b a' o' b' Eb) as (-> & -> & ->); try tauto.
Qed.

Lemma expr_app_not_term a o b t : expr_app a o b <> ETerm t.
Proof. destruct a; discriminate. Qed.

Lemma parse_unique T : forall T',
  respects T -> respects T' -> inorder T = inorder T' -> T = T'.
Proof.
  induction T as [t|l IHl o r IHr]; intros [t'|l' o' r'] R R' E; cbn [inorder] in E.
  - now injection E as ->.
  - symmetry in E. now apply expr_app_not_term in E.
  - now apply expr_app_not_term in E.
  - destruct R as (Hp & Ll & Rr & Rl & Rrr). destruct R' as (Hp' & Ll' & Rr' & Rl' & Rrr').
    destruct (split_unique _ _ _ _ _ _ E) as (El & -> & Er).
    + now apply (respects_sides l Rl o).
    + now apply (respects_sides r Rrr o).
    + now apply (respects_sides l' Rl' o').
    + now apply (respects_sides r' Rrr' o').
    + f_equal; [now apply IHl | now apply IHr].
Qed.

(** *** The value of the tree is one value *)

Lemma binop_val_unique m op a b v v' :
  binop_val m op a b v -> binop_val m op a b v' -> v' = v.
Proof.
  intros H H'. apply apply_op_binop in H, H'. congruence.
Qed.

Lemma den_unique m vars functions :
  (forall t v, term_den m vars functions t v ->
     forall v', term_den m vars functions t v' -> v' = v)
  /\ (forall a vs, args_den m vars functions a vs ->
        forall vs', args_den m vars functions a vs' -> vs' = vs)
  /\ (forall e v, expr_den m vars functions e v ->
        forall v', expr_den m vars functions e v' -> v' = v)
  /\ (forall T v, tree_val m vars functions T v ->
        forall v', tree_val m vars functions T v' -> v' = v).
Proof.
  apply den_mutind.
  - intros v v' H. now inversion H.
  - intros t v _ IH v' H. inversion H as [|? w Hw| | |]; subst.
    now rewrite (IH w Hw).
  - intros e v _ IH v' H. inversion H; subst. now apply IH.
  - intros x y Hy v' H. inversion H as [| | |? y' Hy'|]; subst.
    pose proof (holds_var_loop _ _ _ Hy None) as E.
    rewrite (holds_var_loop _ _ _ Hy' None) in E. now injection E.
  - intros f a vs g _ IH L Hg v' H. inversion H as [| | | |? ? vs' g' A' L' Hg']; subst.
    apply IH in A'. subst vs'.
    pose proof (serves_call_loop _ _ _ _ Hg None) as E.
    rewrite (serves_call_loop _ _ _ _ Hg' None) in E. now injection E.
  - intros e v _ IH vs' H. inversion H; subst. f_equal. now apply IH.
  - intros e v a vs _ IH _ IHa vs' H. inversion H; subst.
    f_equal; [now apply IH | now apply IHa].
  - intros T v R _ IH v' H.
    remember (inorder T) as e eqn:E. destruct H as [T' v' R' V'].
    apply (parse_unique T' T R' R) in E. subst T'. now apply IH.
  - intros t v _ IH v' H. inversion H; subst. now apply IH.
  - intros l op r a b v _ IHl _ IHr B v' H.
    inversion H as [|? ? ? a' b' ? Vl Vr B']; subst.
    apply IHl in Vl. apply IHr in Vr. subst a' b'.
    now apply (binop_val_unique m op a b).
Qed.

(** *** A value that is not finite comes from the expression *)

Lemma finite_all_or_not (vs : list real) :
  Forall (fun v => PrimFloat.is_finite v = true) vs
  \/ Exists (fun v => PrimFloat.is_finite v = false) vs.
Proof.
  induction vs as [|v vs [IH|IH]].
  - left. constructor.
  - destruct (PrimFloat.is_finite v) eqn:E.
    + left. now constructor.
    + right. now constructor.
  - right. now apply Exists_cons_tl.
Qed.

Lemma not_finite_forced m vars functions :
  (forall t v, term_den m vars functions t v ->
     PrimFloat.is_finite v = false -> forces_term m vars functions t)
  /\ (forall a vs, args_den m vars functions a vs ->
        Exists (fun v => PrimFloat.is_finite v = false) vs ->
        forces_args m vars functions a)
  /\ (forall e v, expr_den m vars functions e v ->
        PrimFloat.is_finite v = false -> forces_expr m vars functions e)
  /\ (forall T v, tree_val m vars functions T v ->
        PrimFloat.is_finite v = false -> forces_tree m vars functions T).
Proof.
  apply den_mutind.
  - intros v H. now constructor.
  - intros t v D IH H. destruct (PrimFloat.is_finite v) eqn:E.
    + now apply (forces_neg m vars functions t v).
    + apply forces_negated. now apply IH.
  - intros e v _ IH H. apply forces_paren. now apply IH.
  - intros x y Hy H. now apply (forces_var m vars functions x y).
  - intros f a vs g A IH L Hg H. destruct (finite_all_or_not vs) as [F|F].
    + now apply (forces_call m vars functions f a vs g).
    + apply forces_argument. now apply IH.
  - intros e v _ IH H. apply forces_one. apply IH.
    inversion H as [? ? Hv|? ? Hv]; subst; [exact Hv | inversion Hv].
  - intros e v a vs _ IH _ IHa H.
    inversion H as [? ? Hv|? ? Hv]; subst.
    + apply forces_head. now apply IH.
    + apply forces_tail. now apply IHa.
  - intros T v R _ IH H. constructor; [exact R | now apply IH].
  - intros t v _ IH H. constructor. now apply IH.
  - intros l op r a b v Vl IHl Vr IHr B H.
    destruct (PrimFloat.is_finite a) eqn:Ea; [|now apply forces_left, IHl].
    destruct (PrimFloat.is_finite b) eqn:Eb; [|now apply forces_right, IHr].
    now apply (forces_op m vars functions l op r a b v).
Qed.

(** ** The value of a valid input *)

Lemma expr_app_two a o b t1 op t2 :
  expr_app a o b = EBin t1 op (ETerm t2) -> a = ETerm t1 /\ o = op /\ b = ETerm t2.
Proof.
  destruct a as [t|t o' a']; cbn [expr_app]; intros E; injection E as Et Eo Eb.
  - now subst.
  - now apply expr_app_not_term in Eb.
Qed.

Lemma inorder_term T t : inorder T = ETerm t -> T = Leaf t.
Proof.
  destruct T as [t'|l o r]; cbn [inorder]; intros E.
  - now injection E as ->.
  - now apply expr_app_not_term in E.
Qed.

Lemma inorder_two T t1 op t2 :
  inorder T = EBin t1 op (ETerm t2) -> T = Node (Leaf t1) op (Leaf t2).
Proof.
  destruct T as [t|l o r]; cbn [inorder]; intros E; [discriminate E|].
  apply expr_app_two in E. destruct E as (El & -> & Er).
  apply inorder_term in El, Er. now subst.
Qed.

(** The sum of 2 and 3 forces nothing; the quotient of 1 and 0 does. *)
Lemma sum_not_forced m vars functions :
  ~ forces_expr m vars functions (EBin (TNum 2%float) "+" (ETerm (TNum 3%float))).
Proof.
  intros H.
  remember (EBin (TNum 2%float) "+" (ETerm (TNum 3%float))) as e eqn:E.
  destruct H as [T R F]. apply inorder_two in E. subst T.
  inversion F as [|? ? ? Fl|? ? ? Fr|? ? ? a b v Vl Vr Fa Fb B Fv]; subst.
  - inversion Fl as [? Ft| | |]; subst. inversion Ft as [? Hv| | | | | |]; subst.
    vm_compute in Hv. discriminate Hv.
  - inversion Fr as [? Ft| | |]; subst. inversion Ft as [? Hv| | | | | |]; subst.
    vm_compute in Hv. discriminate Hv.
  - inversion Vl as [? ? Dl|]; subst. inversion Dl; subst.
    inversion Vr as [? ? Dr|]; subst. inversion Dr; subst.
    inversion B; subst. vm_compute in Fv. discriminate Fv.
Qed.

Lemma quotient_forced m vars functions :
  forces_expr m vars functions (EBin (TNum 1%float) "/" (ETerm (TNum 0%float))).
Proof.
  change (forces_expr m vars functions
            (inorder (Node (Leaf (TNum 1%float)) "/" (Leaf (TNum 0%float))))).
  apply forces_parse.
  - cbn [respects left_ok right_ok]. repeat split. vm_compute. lia.
  - apply (forces_op m vars functions _ _ _ 1%float 0%float (1 / 0)%float);
      try reflexivity; repeat constructor.
Qed.

Lemma valid_value m vars functions e s :
  fits s -> live s = TokOp "(" :: flat_expr e ++ [TokOp ")"] ->
  valid_expr vars functions e ->
  exists v fuel s',
    expr_val m vars functions e v
    /\ expr_den m vars functions e v
    /\ (forall v', expr_den m vars functions e v' -> v' = v)
    /\ (forall fuel', fuel <= fuel' -> eval m vars functions fuel' 0 s = Ok (v, s')).
Proof.
  intros F L V.
  destruct (valid_has_value m vars functions (2 * size_expr e)) as (_ & _ & Hc).
  destruct (Hc [] e) as [v C]; [simpl; lia | assumption | constructor|].
  destruct (evaluator_refines m vars functions) as (_ & _ & R).
  destruct (climbs_eval m vars functions e v (R [] e v C) s [] (TokOp "(") (TokOp ")") [])
    as (n & s' & E & _); try reflexivity; try assumption.
  pose proof (expr_val_den m vars functions e v C) as D.
  exists v, n, s'. split; [exact C|]. split; [exact D|]. split; [|exact E].
  destruct (den_unique m vars functions) as (_ & _ & U & _). now apply U.
Qed.

(** C7: for every valid input, that is a text that [tokenize] accepts and
    whose tokens are those of an expression of the grammar, with binary
    operators between its terms, variables that are set and calls of
    registered functions with the registered number of arguments,
    [tokenize] and [eval] return a number, given enough fuel. The number is
    the one value of the expression read as a tree: a variable is the value
    of its entry, a call what the registered function returns on the values
    of the arguments, an operator the IEEE operation on its operands. The
    number is finite unless the expression itself forces another: unless a
    number or a variable of it is not finite, or one of its operations is
    given finite operands and returns a value that is not; so the quotient
    of 1 and 0 forces its value, and the sum of 2 and 3 forces none. A
    division by zero or the square root of a negative number is not an
    error: the run returns the infinity or the NaN of the IEEE operation, as
    it returns 2 for the square root of 4. *)
Theorem valid_input_evaluates (m : Libm) (vars : list Var) (functions : list Function)
    (txt : string) (s : TokBuf) (e : expr) :
  tokenize txt init_buf = Ok s ->
  live s = TokOp "(" :: flat_expr e ++ [TokOp ")"] ->
  valid_expr vars functions e ->
  (exists v fuel,
     expr_val m vars functions e v
     /\ expr_den m vars functions e v
     /\ (forall v', expr_den m vars functions e v' -> v' = v)
     /\ (PrimFloat.is_finite v = false -> forces_expr m vars functions e)
     /\ forall fuel', fuel <= fuel' -> run m vars functions fuel' txt = Ok v)
  /\ (forall fuel, 40 <= fuel ->
        run m builtin_vars (main_functions m) fuel "1/0" = Ok infinity
        /\ run m builtin_vars (main_functions m) fuel "0-1/0" = Ok neg_infinity
        /\ run m builtin_vars (main_functions m) fuel "0/0" = Ok nan
        /\ run m builtin_vars (main_functions m) fuel "sqrt(-1)" = Ok nan
        /\ run m builtin_vars (main_functions m) fuel "sqrt(0-4)+1" = Ok nan
        /\ run m builtin_vars (main_functions m) fuel "sqrt(4)" = Ok 2%float
        /\ run m builtin_vars (main_functions m) fuel "2*(3+4)-sqrt(4)" = Ok 12%float)
  /\ forces_expr m vars functions (EBin (TNum 1%float) "/" (ETerm (TNum 0%float)))
  /\ ~ forces_expr m vars functions (EBin (TNum 2%float) "+" (ETerm (TNum 3%float))).
Proof.
  intros T L V. split; [|split; [|split; [apply quotient_forced | apply sum_not_forced]]].
  - destruct (valid_value m vars functions e s (tokenize_fits txt s T) L V)
      as (v & n & s' & C & D & U & E).
    exists v, n. split; [exact C|]. split; [exact D|]. split; [exact U|]. split.
    + destruct (not_finite_forced m vars functions) as (_ & _ & N & _).
      now apply N.
    + intros fuel' Hf. unfold run. rewrite T. cbn [bind].
      now rewrite (E fuel' Hf).
  - intros fuel Hf. repeat split; run_example; vm_compute; reflexivity.
Qed.

Lemma valid_input_evaluates_witness :
  exists v fuel,
    expr_den sample_libm builtin_vars (main_functions sample_libm)
      (EBin (TNum 2%float) "*"
         (EBin (TParen (EBin (TNum 3%float) "+" (ETerm (TVar "pi")))) "-"
            (ETerm (TCall "sqrt" (AOne (ETerm (TNum 4%float))))))) v
    /\ forall fuel', fuel <= fuel' ->
         run sample_libm builtin_vars (main_functions sample_libm) fuel'
           "2*(3+pi)-sqrt(4)" = Ok v.
Proof.
  destruct (valid_input_evaluates sample_libm builtin_vars (main_functions sample_libm)
              "2*(3+pi)-sqrt(4)"
              (buf_of [TokOp "("; TokNum 2%float; TokOp "*"; TokOp "(";
                       TokNum 3%float; TokOp "+"; TokIdent "pi"; TokOp ")";
                       TokOp "-"; TokIdent "sqrt"; TokOp "("; TokNum 4%float;
                       TokOp ")"; TokOp ")"])
              (EBin (TNum 2%float) "*"
                 (EBin (TParen (EBin (TNum 3%float) "+" (ETerm (TVar "pi")))) "-"
                    (ETerm (TCall "sqrt" (AOne (ETerm (TNum 4%float)))))))
              eq_refl (live_buf_of _))
    as ((v & fuel & _ & D & _ & _ & H) & _).
  - cbn [valid_expr valid_term valid_args nargs]. unfold registered.
    repeat split; try (vm_compute; tauto); try (vm_compute; lia).
    intros g Hg Hn. vm_compute in Hg.
    repeat (destruct Hg as [<-|Hg]; [vm_compute in Hn |- *; congruence|]).
    destruct Hg.
  - exists v, fuel. split; [exact D | exact H].
Defined.

(** ** Precedence, the minus sign, calls and names *)

Ltac value_example n :=
  match goal with
  | L : n <= ?fuel |- value_of (eval ?m ?v ?f ?fuel ?t ?s) = ?r =>
      apply (value_of_fuel m v f n fuel t s r);
      [vm_compute; reflexivity | vm_compute; discriminate | exact L]
  end.

(** C1: the precedences are 1 for [+ -], 2 for [* /], 3 for [^] and 0 for
    the delimiters; [^] is right-associative and every other operator
    left-associative. Of two binary operators around an operand the right
    one is applied first exactly when its precedence is higher, or equal
    with the left one right-associative; otherwise the left one is. So
    ["2+3*4"] is 14, ["(2+3)*4"] is 20, ["2^3^2"] is [2^(3^2)] = 512, and
    ["8-3-2"] is 3. *)
Theorem precedence_and_associativity (m : Libm) (vars : list Var)
    (functions : list Function) (fuel : nat) :
  c_pow m 3%float 2%float = 9%float -> c_pow m 2%float 9%float = 512%float ->
  40 <= fuel ->
  (op_prec "+" = 1 /\ op_prec "-" = 1 /\ op_prec "*" = 2 /\ op_prec "/" = 2
   /\ op_prec "^" = 3 /\ op_prec "(" = 0 /\ op_prec ")" = 0 /\ op_prec "," = 0)
  /\ (op_order "^" = OrderRtl /\ forall c, c <> "^"%char -> op_order c = OrderLtr)
  /\ (forall o1 o2 a b c,
        0 < op_prec o1 -> 0 < op_prec o2 ->
        value_of (eval m vars functions fuel 0
                    (buf_of [TokOp "("; TokNum a; TokOp o1; TokNum b; TokOp o2;
                             TokNum c; TokOp ")"]))
        = if (op_prec o1 <? op_prec o2)
             || ((op_prec o2 =? op_prec o1) && order_eqb (op_order o1) OrderRtl)
          then r <- apply_op m o2 b c ;; apply_op m o1 a r
          else r <- apply_op m o1 a b ;; apply_op m o2 r c)
  /\ run m vars functions fuel "2+3*4" = Ok 14%float
  /\ run m vars functions fuel "(2+3)*4" = Ok 20%float
  /\ run m vars functions fuel "2^3^2" = Ok 512%float
  /\ run m vars functions fuel "8-3-2" = Ok 3%float.
Proof.
  intros P1 P2 L. split; [repeat split|]. split; [split; [reflexivity|]|].
  { intros c Hc. unfold op_order. destruct (c =? "^")%char eqn:E; [|reflexivity].
    apply Ascii.eqb_eq in E. contradiction. }
  split.
  { intros o1 o2 a b c H1 H2.
    destruct (binary_cases o1 H1) as [->|[->|[->|[->| ->]]]];
      destruct (binary_cases o2 H2) as [->|[->|[->|[->| ->]]]];
      value_example 40. }
  destruct m as [pw fm rd fl ce sn cs]. cbn [c_pow] in P1, P2.
  repeat split; run_example; vm_compute; rewrite ?P1, ?P2; reflexivity.
Qed.

Lemma precedence_and_associativity_witness :
  run sample_libm [] [] 40 "2^3^2" = Ok 512%float.
Proof.
  apply (precedence_and_associativity sample_libm [] [] 40 eq_refl eq_refl (le_n 40)).
Defined.

(** C2: with a minus sign at [t[1]], [collapse] first collapses from the
    minus sign on; if a number then stands after the minus sign it is
    multiplied by -1 and the minus sign is deleted, otherwise the program
    ends with the error of the minus factor. This is done before the loop of
    [eval] looks at the operators, so the sign applies to the term that
    follows and [-a^b] is [(-a)^b]: ["-2^2"] is 4, ["- -3"] is 3 and
    ["-sqrt(4)"] is -2. *)
Theorem unary_minus_collapse (m : Libm) (vars : list Var) (functions : list Function)
    (fuel : nat) :
  c_pow m (-2)%float 2%float = 4%float -> 40 <= fuel ->
  (forall n s s1 pre x y z post,
     read s (List.length pre + 1) = Ok (TokOp "-") ->
     collapse m vars functions n (List.length pre + 1) s = Ok s1 ->
     live s1 = pre ++ x :: y :: z :: post -> fits s1 ->
     match z with
     | TokNum v =>
         exists s3, collapse m vars functions (S n) (List.length pre) s = Ok s3
                    /\ live s3 = pre ++ x :: TokNum (v * -1)%float :: post
     | _ => collapse m vars functions (S n) (List.length pre) s
            = Exit UncollapsibleUnaryMinus
     end)
  /\ (forall t v, term_val m vars functions t v ->
                  term_val m vars functions (TNeg t) (v * -1)%float)
  /\ (forall a b,
        value_of (eval m vars functions fuel 0
                    (buf_of [TokOp "("; TokOp "-"; TokNum a; TokOp "^"; TokNum b;
                             TokOp ")"]))
        = Ok (c_pow m (a * -1)%float b))
  /\ run m builtin_vars (main_functions m) fuel "-2^2" = Ok 4%float
  /\ run m builtin_vars (main_functions m) fuel "- -3" = Ok 3%float
  /\ run m builtin_vars (main_functions m) fuel "-sqrt(4)" = Ok (-2)%float.
Proof.
  intros P L. split; [|split; [|split]].
  - intros n s s1 pre x y z post. apply collapse_minus.
  - intros t v. apply val_neg.
  - intros a b. value_example 40.
  - destruct m as [pw fm rd fl ce sn cs]. cbn [c_pow] in P.
    repeat split; run_example; vm_compute; rewrite ?P; reflexivity.
Qed.

Lemma unary_minus_collapse_witness :
  run sample_libm builtin_vars (main_functions sample_libm) 40 "-2^2" = Ok 4%float.
Proof.
  apply (unary_minus_collapse sample_libm builtin_vars (main_functions sample_libm)
           40 eq_refl (le_n 40)).
Defined.

(** C5: on an identifier followed by ['('], [collapse] evaluates the
    arguments one after the other, removes them with their parentheses and
    commas, and looks the name up: with the name registered for another
    number of arguments than were collected the program ends with the arity
    error; with a result [r] of the lookup the call is replaced by the
    single number [r], which is what a registered function of the name
    computes from the collected arguments. With the functions of [main],
    ["sqrt(16)"] is 4, ["pow(2,10)"] is 1024 and ["sqrt(1,2)"] ends with the
    arity error. *)
Theorem function_call_collapse (m : Libm) (vars : list Var) (functions : list Function)
    (f : string) (a : args) (vs : list real)
    (s : TokBuf) (pre : list Tok) (x : Tok) (post : list Tok) :
  args_val m vars functions a vs -> List.length vs <= 16 ->
  live s = pre ++ x :: flat_term (TCall f a) ++ post -> fits s ->
  (exists fuel,
     (forall k, registered functions f k -> List.length vs <> k ->
        forall fuel', fuel <= fuel' ->
          collapse m vars functions fuel' (List.length pre) s
          = Exit (ArityMismatch f k (List.length vs)))
     /\ (forall r, call_loop f vs functions None = Ok (Some r) ->
           exists s', live s' = pre ++ x :: TokNum r :: post
                      /\ forall fuel', fuel <= fuel' ->
                           collapse m vars functions fuel' (List.length pre) s = Ok s'))
  /\ (registered functions f (List.length vs) ->
      exists g, In g functions /\ fn_name g = f
                /\ call_loop f vs functions None = Ok (Some (func g vs)))
  /\ (c_pow m 2%float 10%float = 1024%float ->
      forall fuel, 40 <= fuel ->
        run m builtin_vars (main_functions m) fuel "sqrt(16)" = Ok 4%float
        /\ run m builtin_vars (main_functions m) fuel "pow(2,10)" = Ok 1024%float
        /\ run m builtin_vars (main_functions m) fuel "sqrt(1,2)"
           = Exit (ArityMismatch "sqrt" 1 2)).
Proof.
  intros A Hl H F. split; [|split].
  - destruct (evaluator_refines m vars functions) as (_ & Ra & _).
    destruct (collapse_call m vars functions f a vs (Ra a vs A) Hl s pre x post H F)
      as (fuel & s1 & L1 & F1 & E).
    exists fuel. split.
    + intros k [Hin Har] Hk fuel' Hf. rewrite (E fuel' Hf).
      now rewrite (call_loop_mismatch f k vs functions None Har Hin Hk).
    + intros r Hr.
      destruct (write_in s1 (pre ++ [x]) (TokIdent f) post (TokNum r)
                  (List.length pre + 1)) as (s' & W & L' & F'); try side L1.
      exists s'. split; [rewrite L'; reassoc|].
      intros fuel' Hf. rewrite (E fuel' Hf), Hr. exact W.
  - intros [Hin Har].
    destruct (call_loop_registered f vs functions None) as [r R];
      [intros g Hg Hn; now apply Har | now left |].
    destruct (call_loop_result f vs functions None r R) as [[=]|(g & I & Hn & ->)].
    exists g. auto.
  - intros P fuel Hf. destruct m as [pw fm rd fl ce sn cs]. cbn [c_pow] in P.
    repeat split; run_example; vm_compute; rewrite ?P; reflexivity.
Qed.

Lemma function_call_collapse_witness :
  exists fuel s',
    live s' = [TokOp "("; TokNum 4%float; TokOp ")"]
    /\ forall fuel', fuel <= fuel' ->
         collapse sample_libm builtin_vars (main_functions sample_libm) fuel' 0
           (buf_of [TokOp "("; TokIdent "sqrt"; TokOp "("; TokNum 16%float;
                    TokOp ")"; TokOp ")"]) = Ok s'.
Proof.
  destruct (function_call_collapse sample_libm builtin_vars (main_functions sample_libm)
              "sqrt" (AOne (ETerm (TNum 16%float))) [16%float]
              (buf_of [TokOp "("; TokIdent "sqrt"; TokOp "("; TokNum 16%float;
                       TokOp ")"; TokOp ")"])
              [] (TokOp "(") [TokOp ")"])
    as ((fuel & _ & H) & _).
  - apply val_one, climb_done, val_num.
  - simpl. lia.
  - apply live_buf_of.
  - apply fits_buf_of. simpl. lia.
  - destruct (H 4%float eq_refl) as (s' & L & E).
    exists fuel, s'. split; [exact L | exact E].
Defined.

(** C6: names are looked up when the expression is evaluated: [unset_var]
    of a name that is not set changes nothing and reports nothing, and no
    registration fails for a name. A call of a name that no function is
    registered under, once its arguments are evaluated, ends the program
    with the error of the unknown function; an identifier that is not
    followed by ['('] and is not set ends it with the error of the unknown
    variable, and one that is set is replaced in place by the number
    holding its value: the value of the entry of that name, the last one
    should there be several, and the only one in a registry of distinct
    names, such as [set_var] keeps it. With the registries of [main],
    ["foo(1)"] and ["bar+1"] end with these errors, for [foo] and for [bar],
    and ["pi"] is the value of [M_PI]. *)
Theorem unknown_names (m : Libm) (vars : list Var) (functions : list Function) :
  (forall n, ~ In n (map name vars) -> unset_var n vars = vars)
  /\ (forall n v, set_var n v vars <> Exit (UnknownVariable n))
  /\ (forall f a vs s pre x post,
        ~ In f (map fn_name functions) ->
        args_val m vars functions a vs -> List.length vs <= 16 ->
        live s = pre ++ x :: flat_term (TCall f a) ++ post -> fits s ->
        exists fuel, forall fuel', fuel <= fuel' ->
          collapse m vars functions fuel' (List.length pre) s
          = Exit (UnknownFunction f))
  /\ (forall n fuel s pre x post,
        live s = pre ++ x :: TokIdent n :: post -> fits s ->
        is_op "(" (hd TokNull post) = false ->
        (~ In n (map name vars) ->
         collapse m vars functions (S fuel) (List.length pre) s
         = Exit (UnknownVariable n))
        /\ (In n (map name vars) ->
            exists y s',
              holds vars n y
              /\ var_loop n vars None = Some (val y)
              /\ collapse m vars functions (S fuel) (List.length pre) s = Ok s'
              /\ live s' = pre ++ x :: TokNum (val y) :: post)
        /\ (forall y, NoDup (map name vars) -> In y vars -> name y = n ->
            exists s',
              collapse m vars functions (S fuel) (List.length pre) s = Ok s'
              /\ live s' = pre ++ x :: TokNum (val y) :: post))
  /\ (forall fuel, 40 <= fuel ->
        run m builtin_vars (main_functions m) fuel "foo(1)"
        = Exit (UnknownFunction "foo")
        /\ run m builtin_vars (main_functions m) fuel "bar+1"
           = Exit (UnknownVariable "bar")
        /\ run m builtin_vars (main_functions m) fuel "pi" = Ok M_PI).
Proof.
  split; [|split; [|split; [|split]]].
  - intros n. induction vars as [|y vs IH]; simpl; [reflexivity|]. intros H.
    destruct (String.eqb (name y) n) eqn:E.
    + apply String.eqb_eq in E. tauto.
    + f_equal. apply IH. tauto.
  - intros n v. unfold set_var. destruct (set_var_loop n v vars); [discriminate|].
    destruct (List.length vars <? VARS_CAP); discriminate.
  - intros f a vs s pre x post Hf A Hl H F.
    destruct (evaluator_refines m vars functions) as (_ & Ra & _).
    destruct (collapse_call m vars functions f a vs (Ra a vs A) Hl s pre x post H F)
      as (fuel & s1 & L1 & F1 & E).
    exists fuel. intros fuel' Hfuel. rewrite (E fuel' Hfuel).
    now rewrite (call_loop_absent f vs functions None Hf).
  - intros n fuel s pre x post H F P.
    rewrite (collapse_variable m vars functions fuel s pre x n post H F P).
    assert (Wr : forall y, holds vars n y ->
              exists s',
                match var_loop n vars None with
                | Some res => write (List.length pre + 1) (TokNum res) s
                | None => Exit (UnknownVariable n)
                end = Ok s'
                /\ live s' = pre ++ x :: TokNum (val y) :: post).
    { intros y Hy. rewrite (holds_var_loop vars n y Hy None).
      destruct (write_in s (pre ++ [x]) (TokIdent n) post (TokNum (val y))
                  (List.length pre + 1)) as (s' & W & L' & F'); try side H.
      exists s'. split; [exact W | rewrite L'; reassoc]. }
    split; [|split].
    + intros Hn. now rewrite (var_loop_absent n vars None Hn).
    + intros Hn. destruct (var_loop_set n vars None (or_introl Hn)) as [v Hv].
      pose proof (var_loop_holds n vars None v Hv) as Hy.
      destruct Hy as [[Hy _]|(y & Hy & ->)]; [discriminate Hy|].
      destruct (Wr y Hy) as (s' & W & L'). exists y, s'.
      split; [exact Hy|]. split; [exact Hv|]. now split.
    + intros y D I <-. apply Wr. now apply holds_distinct.
  - intros fuel Hf. repeat split; run_example; vm_compute; reflexivity.
Qed.

Lemma unknown_names_witness :
  run sample_libm builtin_vars (main_functions sample_libm) 40 "bar+1"
  = Exit (UnknownVariable "bar").
Proof.
  apply (unknown_names sample_libm builtin_vars (main_functions sample_libm)).
  apply le_n.
Defined.

(* ================================================================= *)
(** * Further properties of the code *)

(** ** Deleting tokens *)

Lemma skipn_add {A : Type} (a b : nat) (l : list A) :
  skipn a (skipn b l) = skipn (b + a) l.
Proof.
  revert l. induction b as [|b IH]; intros l; [reflexivity|].
  destruct l as [|x l]; simpl; [now rewrite skipn_nil | apply IH].
Qed.

(** X1: [del_toks] on a range [b .. e-1] of the tokens in use removes these
    tokens and nothing else, shortens the array by [e - b], and leaves the
    slots past the new end as they were, so that the last [e - b] tokens stay
    behind there; with [e] past the tokens in use the length of the move
    wraps and the call is undefined. *)
Theorem del_toks_removes_range (b e : nat) (s : TokBuf) :
  b <= e ->
  (e <= toks_size s ->
   exists s',
     del_toks b e s = Ok s'
     /\ live s' = firstn b (live s) ++ skipn e (live s)
     /\ toks_size s' = toks_size s - (e - b)
     /\ forall i, toks_size s' <= i -> tok_at (toks s') i = tok_at (toks s) i)
  /\ (toks_size s < e -> del_toks b e s = Undef).
Proof.
  intros Hbe. split.
  - intros He.
    pose proof (live_length s) as L.
    assert (H : live s = firstn b (live s)
                         ++ firstn (e - b) (skipn b (live s)) ++ skipn e (live s)).
    { rewrite <- (firstn_skipn b (live s)) at 1. f_equal.
      rewrite <- (firstn_skipn (e - b) (skipn b (live s))) at 1. f_equal.
      rewrite skipn_add. f_equal. lia. }
    destruct (del_at s _ _ _ H) as (s' & D & L').
    rewrite length_firstn, length_firstn, length_skipn, L in D.
    replace (Nat.min b (toks_size s)) with b in D by lia.
    replace (b + Nat.min (e - b) (toks_size s - b)) with e in D by lia.
    exists s'. split; [exact D|]. split; [exact L'|].
    unfold del_toks in D.
    replace (toks_size s <? e) with false in D by (symmetry; apply Nat.ltb_ge; lia).
    injection D as <-. cbn [toks toks_size]. split; [lia|].
    intros i Hi. rewrite tok_at_memmove.
    replace (i <? b) with false by (symmetry; apply Nat.ltb_ge; lia).
    replace (i <? b + (toks_size s - e)) with false
      by (symmetry; apply Nat.ltb_ge; lia).
    reflexivity.
  - intros He. unfold del_toks.
    now replace (toks_size s <? e) with true by (symmetry; apply Nat.ltb_lt; lia).
Qed.

Lemma del_toks_removes_range_witness :
  exists s',
    del_toks 1 3 (buf_of [TokOp "("; TokNum 1%float; TokOp "+"; TokNum 2%float; TokOp ")"]) = Ok s'
    /\ live s' = [TokOp "("; TokNum 2%float; TokOp ")"]
    /\ tok_at (toks s') 3 = TokNum 2%float /\ tok_at (toks s') 4 = TokOp ")".
Proof.
  destruct (del_toks_removes_range 1 3
              (buf_of [TokOp "("; TokNum 1%float; TokOp "+"; TokNum 2%float; TokOp ")"]))
    as [H _]; [lia|].
  destruct H as (s' & D & L & Sz & St); [simpl; lia|].
  exists s'. split; [exact D|]. split; [exact L|].
  simpl in Sz. split; (rewrite St by lia); reflexivity.
Defined.

(** ** The function registry *)

(** X2: [add_func] appends the function while fewer than 256 are registered
    and otherwise drops it without a word, so the registry never outgrows
    its array. It does not look for the name: after a registration a call of
    another name is looked up as before, and a call of the registered name
    first meets the earlier registrations of the name, whose arity check can
    end the program, and then returns what the new function computes. *)
Theorem add_func_then_call (n : string) (f : list real -> real) (k : nat)
    (fs : list Function) :
  (List.length fs <= FUNCTIONS_CAP ->
   List.length (add_func n f k fs) <= FUNCTIONS_CAP)
  /\ (FUNCTIONS_CAP <= List.length fs -> add_func n f k fs = fs)
  /\ (List.length fs < FUNCTIONS_CAP ->
      forall n' args res,
        call_loop n' args (add_func n f k fs) res
        = (r <- call_loop n' args fs res ;;
           if String.eqb n' n then
             if List.length args =? k then Ok (Some (f args))
             else Exit (ArityMismatch n k (List.length args))
           else Ok r)).
Proof.
  unfold add_func. split; [|split].
  - intros H. destruct (List.length fs <? FUNCTIONS_CAP) eqn:E; [|assumption].
    apply Nat.ltb_lt in E. rewrite length_app. simpl. lia.
  - intros H.
    now replace (List.length fs <? FUNCTIONS_CAP) with false
      by (symmetry; apply Nat.ltb_ge; lia).
  - intros H n' args res.
    replace (List.length fs <? FUNCTIONS_CAP) with true
      by (symmetry; apply Nat.ltb_lt; lia).
    rewrite call_loop_app. destruct (call_loop n' args fs res); reflexivity.
Qed.

Lemma call_loop_distinct n args fs : forall res g,
  NoDup (map fn_name fs) -> In g fs -> fn_name g = n ->
  call_loop n args fs res
  = if List.length args =? n_args g then Ok (Some (func g args))
    else Exit (ArityMismatch n (n_args g) (List.length args)).
Proof.
  induction fs as [|f fs IH]; intros res g D I E; [destruct I|].
  inversion D as [|? ? Hf D']; subst. cbn [call_loop].
  destruct I as [->|I].
  - rewrite String.eqb_refl. destruct (List.length args =? n_args g); [|reflexivity].
    now apply call_loop_absent.
  - replace (String.eqb (fn_name g) (fn_name f)) with false; [now apply IH|].
    symmetry. apply String.eqb_neq. intros E. apply Hf. rewrite <- E.
    now apply in_map.
Qed.

(** X3: in a registry of distinct names a call finds the one function of
    its name: it returns what that function computes when the number of
    arguments is the registered one, and ends the program with the arity
    error otherwise; a name that is not registered finds nothing. The eight
    registrations of [main] all find room, under eight different names, and
    a call of each returns the function of [math.h] of that name on its
    arguments: [mod] is [fmod], [pow] takes the base first. *)
Theorem main_functions_bound (m : Libm) (fs : list Function) (a b : real) :
  NoDup (map fn_name fs) ->
  (forall g args, In g fs ->
     call_loop (fn_name g) args fs None
     = if List.length args =? n_args g then Ok (Some (func g args))
       else Exit (ArityMismatch (fn_name g) (n_args g) (List.length args)))
  /\ (forall n args, ~ In n (map fn_name fs) -> call_loop n args fs None = Ok None)
  /\ List.length (main_functions m) = 8
  /\ NoDup (map fn_name (main_functions m))
  /\ call_loop "sqrt" [a] (main_functions m) None = Ok (Some (PrimFloat.sqrt a))
  /\ call_loop "pow" [a; b] (main_functions m) None = Ok (Some (c_pow m a b))
  /\ call_loop "mod" [a; b] (main_functions m) None = Ok (Some (c_fmod m a b))
  /\ call_loop "round" [a] (main_functions m) None = Ok (Some (c_round m a))
  /\ call_loop "floor" [a] (main_functions m) None = Ok (Some (c_floor m a))
  /\ call_loop "ceil" [a] (main_functions m) None = Ok (Some (c_ceil m a))
  /\ call_loop "sin" [a] (main_functions m) None = Ok (Some (c_sin m a))
  /\ call_loop "cos" [a] (main_functions m) None = Ok (Some (c_cos m a)).
Proof.
  intros D. split; [|split; [|split; [reflexivity|]]].
  - intros g args I. now apply call_loop_distinct.
  - intros n args I. now apply call_loop_absent.
  - split; [|repeat split; reflexivity].
    cbv [main_functions add_func]. simpl.
    repeat constructor; simpl; intuition discriminate.
Qed.

Lemma main_functions_bound_witness :
  call_loop "pow" [2%float] (main_functions sample_libm) None
  = Exit (ArityMismatch "pow" 2 1).
Proof.
  assert (D : NoDup (map fn_name (main_functions sample_libm)))
    by apply (main_functions_bound sample_libm [] 0%float 0%float (NoDup_nil _)).
  destruct (main_functions_bound sample_libm (main_functions sample_libm)
              0%float 0%float D) as [H _].
  apply (H {| fn_name := "pow"; func := fn_pow sample_libm; n_args := 2 |} [2%float]).
  simpl. tauto.
Defined.

(** ** Lookups in the variable registry *)

Lemma set_var_loop_length n v vars vars' :
  set_var_loop n v vars = Some vars' -> List.length vars' = List.length vars.
Proof.
  intros H. apply set_var_loop_names in H.
  now rewrite <- (length_map name vars'), H, length_map.
Qed.

(** X4: [set_var] fills [vars[256]] without a check: on a registry that
    holds 256 other names it writes past the array, and this is the only
    case in which it does; in every other case it returns, the registry has
    one entry more exactly when the name is new, and it still fits the
    array. *)
Theorem set_var_capacity (n : string) (v : real) (vars : list Var) :
  List.length vars <= VARS_CAP ->
  (set_var n v vars = Undef
   <-> ~ In n (map name vars) /\ List.length vars = VARS_CAP)
  /\ (forall vars', set_var n v vars = Ok vars' ->
        List.length vars' <= VARS_CAP
        /\ List.length vars'
           = if in_dec string_dec n (map name vars) then List.length vars
             else S (List.length vars)).
Proof.
  intros L. unfold set_var.
  destruct (set_var_loop n v vars) as [r|] eqn:R.
  - assert (I : In n (map name vars)).
    { destruct (in_dec string_dec n (map name vars)) as [I|I]; [assumption|].
      pose proof (proj2 (set_var_loop_none n v vars) I). congruence. }
    split; [split; [discriminate | tauto]|].
    intros vars' [= <-]. rewrite (set_var_loop_length _ _ _ _ R).
    split; [assumption|]. destruct (in_dec string_dec n (map name vars)); tauto.
  - apply set_var_loop_none in R.
    destruct (List.length vars <? VARS_CAP) eqn:E.
    + apply Nat.ltb_lt in E. split; [split; [discriminate | lia]|].
      intros vars' [= <-]. rewrite length_app. simpl.
      split; [lia|]. destruct (in_dec string_dec n (map name vars)); [tauto | lia].
    + apply Nat.ltb_ge in E. split; [|discriminate].
      split; [intros _; split; [assumption | lia] | reflexivity].
Qed.

Lemma set_var_capacity_witness :
  exists vars', set_var "x" 1%float builtin_vars = Ok vars' /\ List.length vars' = 3.
Proof.
  destruct (set_var_capacity "x" 1%float builtin_vars) as [_ H];
    [unfold VARS_CAP; simpl; lia|].
  eexists. split; [reflexivity|].
  now destruct (H _ eq_refl) as [_ ->].
Defined.

Lemma var_loop_snoc n vars x : forall res,
  var_loop n (vars ++ [x]) res
  = if String.eqb n (name x) then Some (val x) else var_loop n vars res.
Proof.
  induction vars as [|y vars IH]; intros res; simpl; [reflexivity | apply IH].
Qed.

Lemma set_var_loop_other n v vars : forall vars' n' res,
  set_var_loop n v vars = Some vars' -> n' <> n ->
  var_loop n' vars' res = var_loop n' vars res.
Proof.
  induction vars as [|x vars IH]; intros vars' n' res; simpl; [discriminate|].
  destruct (String.eqb (name x) n) eqn:E.
  - intros [= <-] N. simpl. apply String.eqb_eq in E.
    replace (String.eqb n' (name x)) with false; [reflexivity|].
    symmetry. apply String.eqb_neq. congruence.
  - destruct (set_var_loop n v vars) as [r|] eqn:R; simpl; [|discriminate].
    intros [= <-] N. simpl. now apply IH.
Qed.

Lemma unset_var_other n vars : forall n' res,
  n' <> n -> var_loop n' (unset_var n vars) res = var_loop n' vars res.
Proof.
  induction vars as [|x vars IH]; intros n' res N; simpl; [reflexivity|].
  destruct (String.eqb (name x) n) eqn:E.
  - apply String.eqb_eq in E.
    replace (String.eqb n' (name x)) with false; [reflexivity|].
    symmetry. apply String.eqb_neq. congruence.
  - simpl. now apply IH.
Qed.

Lemma unset_set_loop n v vars : forall vars',
  set_var_loop n v vars = Some vars' -> unset_var n vars' = unset_var n vars.
Proof.
  induction vars as [|x vars IH]; intros vars'; simpl; [discriminate|].
  destruct (String.eqb (name x) n) eqn:E.
  - intros [= <-]. simpl. now rewrite E.
  - destruct (set_var_loop n v vars) as [r|] eqn:R; simpl; [|discriminate].
    intros [= <-]. simpl. rewrite E. f_equal. now apply IH.
Qed.

Lemma unset_var_snoc n v vars :
  ~ In n (map name vars) ->
  unset_var n (vars ++ [{| name := n; val := v |}]) = vars.
Proof.
  induction vars as [|x vars IH]; simpl; intros H.
  - now rewrite String.eqb_refl.
  - destruct (String.eqb (name x) n) eqn:E.
    + apply String.eqb_eq in E. tauto.
    + f_equal. apply IH. tauto.
Qed.

Lemma unset_var_absent n vars : ~ In n (map name vars) -> unset_var n vars = vars.
Proof.
  induction vars as [|x vars IH]; simpl; intros H; [reflexivity|].
  destruct (String.eqb (name x) n) eqn:E.
  - apply String.eqb_eq in E. tauto.
  - f_equal. apply IH. tauto.
Qed.

(** X5: setting or unsetting a variable does not change what a lookup of
    any other name returns; [unset_var] takes one entry away when the name
    is set and none otherwise, after it a lookup of the name finds nothing
    in a registry of distinct names, and unsetting a name after setting it
    gives the registry that unsetting alone gives. *)
Theorem registry_lookup_frame (n : string) (v : real) (vars : list Var) :
  (forall vars' n', set_var n v vars = Ok vars' -> n' <> n ->
     var_loop n' vars' None = var_loop n' vars None)
  /\ (forall n', n' <> n ->
        var_loop n' (unset_var n vars) None = var_loop n' vars None)
  /\ (NoDup (map name vars) -> var_loop n (unset_var n vars) None = None)
  /\ List.length (unset_var n vars)
     = List.length vars - (if in_dec string_dec n (map name vars) then 1 else 0)
  /\ (forall vars', set_var n v vars = Ok vars' ->
        unset_var n vars' = unset_var n vars).
Proof.
  split; [|split; [|split; [|split]]].
  - intros vars' n' S N. unfold set_var in S.
    destruct (set_var_loop n v vars) as [r|] eqn:R.
    + injection S as <-. now apply (set_var_loop_other n v vars).
    + destruct (List.length vars <? VARS_CAP); [|discriminate].
      injection S as <-. rewrite var_loop_snoc. cbn [name].
      replace (String.eqb n' n) with false; [reflexivity|].
      symmetry. now apply String.eqb_neq.
  - intros n' N. now apply unset_var_other.
  - intros D. apply var_loop_absent. now apply unset_var_removes.
  - induction vars as [|x vars IH]; [reflexivity|]. cbn [unset_var map].
    destruct (String.eqb (name x) n) eqn:E.
    + apply String.eqb_eq in E.
      destruct (in_dec string_dec n (name x :: map name vars)) as [I|I];
        [simpl; lia | exfalso; apply I; now left].
    + apply String.eqb_neq in E. cbn [List.length]. rewrite IH.
      destruct (in_dec string_dec n (map name vars)) as [I|I];
        destruct (in_dec string_dec n (name x :: map name vars)) as [J|J];
        try lia.
      * destruct vars; [destruct I | simpl; lia].
      * exfalso. apply J. now right.
      * destruct J as [J|J]; [congruence | contradiction].
  - intros vars' S. unfold set_var in S.
    destruct (set_var_loop n v vars) as [r|] eqn:R.
    + injection S as <-. now apply (unset_set_loop n v).
    + destruct (List.length vars <? VARS_CAP); [|discriminate].
      injection S as <-. apply set_var_loop_none in R.
      now rewrite unset_var_snoc, unset_var_absent.
Qed.

(** ** The tokens the tokenizer makes *)

Lemma alpha_not_float c :
  IS_ALPHA c = true -> (c =? " ")%char = false /\ IS_FLOAT c = false.
Proof. all_chars c. Qed.

Lemma lex_loop_shapes fuel : forall curr,
  Forall (fun t => token_ok t = true) (lex_loop fuel curr).
Proof.
  induction fuel as [|fuel IH]; intros curr; cbn [lex_loop]; [constructor|].
  destruct curr as [|c rest]; [constructor|].
  destruct (c =? Ascii.zero)%char; [constructor|].
  destruct (c =? " ")%char; [apply IH|].
  destruct (IS_FLOAT c); [constructor; [reflexivity | apply IH]|].
  destruct (IS_ALPHA c) eqn:A.
  { constructor; [|apply IH]. cbn [token_ok firstn].
    rewrite list_ascii_of_string_of_list_ascii. cbn [List.length forallb].
    rewrite A, length_firstn.
    pose proof (scan_run_room IS_ALPHA 30 rest) as R.
    replace (S (Nat.min (scan_run IS_ALPHA 30 rest) (List.length rest)) <=? 31)
      with true by (symmetry; apply Nat.leb_le; lia).
    cbn [Nat.leb andb]. apply forallb_forall. apply Forall_forall.
    apply scan_run_all. }
  destruct (is_op_char c) eqn:O; [|constructor].
  constructor; [exact O | apply IH].
Qed.

Lemma insert_mul_shapes rule l : forall prev,
  Forall (fun t => token_ok t = true) l ->
  Forall (fun t => token_ok t = true) (insert_mul rule prev l).
Proof.
  induction l as [|t l IH]; intros prev H; cbn [insert_mul]; [constructor|].
  inversion H as [|? ? Ht Hl]; subst.
  destruct (rule prev t); cbn [app]; repeat constructor; auto.
Qed.

Lemma all_tokens_shapes rule expr :
  Forall (fun t => token_ok t = true) (all_tokens rule expr).
Proof.
  unfold all_tokens, lex. constructor; [reflexivity|].
  apply Forall_app. split; [|repeat constructor].
  apply insert_mul_shapes, lex_loop_shapes.
Qed.

Lemma Forall_firstn {A : Type} (P : A -> Prop) n (l : list A) :
  Forall P l -> Forall P (firstn n l).
Proof.
  intros H. apply Forall_forall. intros x I.
  rewrite Forall_forall in H. apply H.
  rewrite <- (firstn_skipn n l). apply in_or_app. now left.
Qed.

Lemma cap_pos : 0 < cap.
Proof. pose proof cap_N as C. unfold TOKS_CAP in C. lia. Qed.

(** X6: every token of an array that [tokenize] returns is one of the eight
    operator characters, a number, or a name of 1 to 31 letters; the first
    token is the ['('] the tokenizer opens with, and unless the array is
    full the last one is the [')'] it closes with. *)
Theorem tokenize_token_shapes (expr : string) (s : TokBuf) :
  tokenize expr init_buf = Ok s ->
  Forall (fun t => token_ok t = true) (live s)
  /\ hd TokNull (live s) = TokOp "("
  /\ (toks_size s < cap -> last (live s) TokNull = TokOp ")").
Proof.
  intros T. pose proof (tokenize_tokens expr s T) as L. split; [|split].
  - rewrite L. apply Forall_firstn, all_tokens_shapes.
  - rewrite L. unfold all_tokens. pose proof cap_pos as C.
    destruct cap as [|k]; [lia | reflexivity].
  - intros R. rewrite <- live_length, L, length_firstn in R.
    rewrite L, firstn_all2 by lia.
    unfold all_tokens.
    change (TokOp "(" :: insert_mul implicit_mul (TokOp "(") (lex expr) ++ [TokOp ")"])
      with ((TokOp "(" :: insert_mul implicit_mul (TokOp "(") (lex expr)) ++ [TokOp ")"]).
    apply last_last.
Qed.

Lemma tokenize_token_shapes_witness :
  exists s, tokenize "2x" init_buf = Ok s
            /\ Forall (fun t => token_ok t = true) (live s).
Proof.
  eexists. split; [reflexivity|].
  now apply (tokenize_token_shapes "2x").
Defined.

Lemma no_gap_insert l : forall prev,
  no_gap implicit_mul prev (insert_mul implicit_mul prev l ++ [TokOp ")"]).
Proof.
  induction l as [|t l IH]; intros prev; cbn [insert_mul app no_gap].
  - split; [reflexivity | exact I].
  - destruct (implicit_mul prev t) eqn:E; cbn [app no_gap].
    + split; [reflexivity|]. split; [|apply IH].
      destruct t as [|c| |]; cbn [implicit_mul ends_term ends_value];
        try reflexivity.
      apply andb_false_r.
    + split; [exact E | apply IH].
Qed.

Lemma no_gap_firstn rule n : forall prev l,
  no_gap rule prev l -> no_gap rule prev (firstn n l).
Proof.
  induction n as [|n IH]; intros prev [|t l]; cbn [firstn no_gap]; auto.
  intros [H1 H2]. split; [assumption | now apply IH].
Qed.

(** X7: in an array that [tokenize] returns no two neighbours are left where
    its rule puts a ['*']: a number or a name never follows a number, a name
    or a [')'], and a ['('] never follows a number or a [')']. *)
Theorem tokenize_leaves_no_gap (expr : string) (s : TokBuf) :
  tokenize expr init_buf = Ok s ->
  no_gap implicit_mul TokNull (live s).
Proof.
  intros T. rewrite (tokenize_tokens expr s T). apply no_gap_firstn.
  unfold all_tokens. cbn [no_gap]. split; [reflexivity | apply no_gap_insert].
Qed.

Lemma tokenize_leaves_no_gap_witness :
  exists s, tokenize "2(3)x" init_buf = Ok s /\ no_gap implicit_mul TokNull (live s).
Proof.
  eexists. split; [reflexivity|].
  now apply (tokenize_leaves_no_gap "2(3)x").
Defined.

(** ** Runs of letters, and of digits and points *)

Lemma firstn_run {A : Type} k (r rest : list A) :
  firstn (Nat.min k (List.length r)) (r ++ rest) = firstn k r.
Proof.
  rewrite firstn_app.
  replace (Nat.min k (List.length r) - List.length r) with 0 by lia.
  rewrite firstn_O, app_nil_r.
  destruct (Nat.le_gt_cases (List.length r) k).
  - rewrite Nat.min_r by assumption. now rewrite !firstn_all2.
  - rewrite Nat.min_l by lia. reflexivity.
Qed.

Lemma skipn_run {A : Type} k (r rest : list A) :
  skipn (Nat.min k (List.length r)) (r ++ rest) = skipn k r ++ rest.
Proof.
  rewrite skipn_app.
  replace (Nat.min k (List.length r) - List.length r) with 0 by lia.
  rewrite skipn_O. f_equal.
  destruct (Nat.le_gt_cases (List.length r) k).
  - rewrite Nat.min_r by assumption. now rewrite !skipn_all2.
  - rewrite Nat.min_l by lia. reflexivity.
Qed.

(** One turn of the scanning loop on a run of letters, and on a run of
    digits and points. *)
Lemma alpha_run_step r rest fuel pos depth s :
  r <> [] -> Forall (fun c => IS_ALPHA c = true) r ->
  match rest with c :: _ => IS_ALPHA c = false | [] => True end ->
  tokenize_loop (S fuel) (r ++ rest) pos depth s
  = tokenize_loop fuel (skipn 31 r ++ rest) (pos + Nat.min 31 (List.length r)) depth
      (push_tok (TokIdent (string_of_list_ascii (firstn 31 r)))
         (if ends_term (last_tok s) then push_tok (TokOp "*") s else s)).
Proof.
  intros Hr F M. destruct r as [|c r]; [contradiction|].
  inversion F as [|? ? Hc F']; subst.
  rewrite <- (firstn_run 31 (c :: r) rest), <- (skipn_run 31 (c :: r) rest).
  cbn [app tokenize_loop List.length].
  destruct (alpha_char c Hc) as (-> & _).
  destruct (alpha_not_float c Hc) as (-> & ->).
  rewrite Hc, (scan_run_app IS_ALPHA 30 r rest F') by (intros _; exact M).
  replace (Nat.min 31 (S (List.length r))) with (S (Nat.min 30 (List.length r)))
    by lia.
  reflexivity.
Qed.

Lemma float_run_step r rest fuel pos depth s :
  r <> [] -> Forall (fun c => IS_FLOAT c = true) r ->
  match rest with c :: _ => IS_FLOAT c = false | [] => True end ->
  tokenize_loop (S fuel) (r ++ rest) pos depth s
  = tokenize_loop fuel (skipn 15 r ++ rest) (pos + Nat.min 15 (List.length r)) depth
      (push_tok (TokNum (strtod (firstn 15 r)))
         (if ends_term (last_tok s) then push_tok (TokOp "*") s else s)).
Proof.
  intros Hr F M. destruct r as [|c r]; [contradiction|].
  inversion F as [|? ? Hc F']; subst.
  rewrite <- (firstn_run 15 (c :: r) rest), <- (skipn_run 15 (c :: r) rest).
  cbn [app tokenize_loop List.length].
  destruct (float_char c Hc) as (-> & _).
  replace (c =? " ")%char with false by (clear - Hc; revert Hc; all_chars c).
  rewrite Hc, (scan_run_app IS_FLOAT 14 r rest F') by (intros _; exact M).
  replace (Nat.min 15 (S (List.length r))) with (S (Nat.min 14 (List.length r)))
    by lia.
  reflexivity.
Qed.

(** The text of one name, or of one number, is tokenized as that token
    between the two parentheses. *)
Lemma tokenize_one (is_name : bool) (r : list ascii) :
  r <> [] ->
  (if is_name
   then Forall (fun c => IS_ALPHA c = true) r /\ List.length r <= 31
   else Forall (fun c => IS_FLOAT c = true) r /\ List.length r <= 15) ->
  tokenize (string_of_list_ascii r) init_buf
  = Ok (buf_of [TokOp "(";
                if is_name then TokIdent (string_of_list_ascii r)
                else TokNum (strtod r);
                TokOp ")"]).
Proof.
  intros Hr H. unfold tokenize. rewrite list_ascii_of_string_of_list_ascii.
  rewrite <- (app_nil_r r) at 2.
  assert (Lp : 0 < List.length r) by (destruct r; [contradiction | simpl; lia]).
  destruct is_name; destruct H as [F L].
  - rewrite alpha_run_step by (auto; exact I).
    rewrite skipn_all2, firstn_all2 by lia.
    destruct (List.length r) as [|k]; [lia | reflexivity].
  - rewrite float_run_step by (auto; exact I).
    rewrite skipn_all2, firstn_all2 by lia.
    destruct (List.length r) as [|k]; [lia | reflexivity].
Qed.

(** X8: a run of at most 31 letters, up to a character that is no letter,
    becomes one name token, after a ['*'] when a number, a name or a [')']
    stands before it. Of a longer run the first 31 letters become one name
    and no error is raised; the scan goes on at the 32nd letter, which
    starts a further name, so that a word of 34 letters is read as the
    product of a name of 31 letters and a name of 3. *)
Theorem identifier_run (r rest : list ascii) (fuel pos : nat) (depth : N) (s : TokBuf) :
  r <> [] ->
  Forall (fun c => IS_ALPHA c = true) r ->
  match rest with c :: _ => IS_ALPHA c = false | [] => True end ->
  tokenize_loop (S fuel) (r ++ rest) pos depth s
  = tokenize_loop fuel (skipn 31 r ++ rest) (pos + Nat.min 31 (List.length r)) depth
      (push_tok (TokIdent (string_of_list_ascii (firstn 31 r)))
         (if ends_term (last_tok s) then push_tok (TokOp "*") s else s))
  /\ (31 < List.length r ->
      exists c r', skipn 31 r = c :: r' /\ IS_ALPHA c = true)
  /\ exists s', tokenize "abcdefghijklmnopqrstuvwxyzabcdefgh" init_buf = Ok s'
       /\ live s' = [TokOp "("; TokIdent "abcdefghijklmnopqrstuvwxyzabcde";
                     TokOp "*"; TokIdent "fgh"; TokOp ")"].
Proof.
  intros Hr F M. split; [now apply alpha_run_step|]. split.
  - intros L. destruct (skipn 31 r) as [|x r'] eqn:E.
    + apply (f_equal (@List.length ascii)) in E. rewrite length_skipn in E.
      simpl in E. lia.
    + exists x, r'. split; [reflexivity|].
      assert (I : In x r) by (apply (in_skipn x 31); rewrite E; now left).
      rewrite Forall_forall in F. now apply F.
  - eexists. split; [vm_compute; reflexivity | vm_compute; reflexivity].
Qed.

Lemma identifier_run_witness :
  exists s,
    tokenize_loop 5 (list_ascii_of_string "pi+1") 0 0%N init_buf = Ok s
    /\ live s = [TokIdent "pi"; TokOp "+"; TokNum 1%float; TokOp ")"].
Proof.
  destruct (identifier_run (list_ascii_of_string "pi") (list_ascii_of_string "+1")
              4 0 0%N init_buf) as (E & _);
    [discriminate | repeat constructor | reflexivity |].
  change (list_ascii_of_string "pi+1")
    with (list_ascii_of_string "pi" ++ list_ascii_of_string "+1").
  rewrite E. eexists. split; vm_compute; reflexivity.
Defined.

(** ** Numbers that are no numbers *)

Lemma span_digits_app ds : forall r,
  Forall (fun c => is_digit c = true) ds ->
  match r with c :: _ => is_digit c = false | [] => True end ->
  span_digits (ds ++ r) = (ds, r).
Proof.
  induction ds as [|d ds IH]; intros r F M; cbn [app span_digits].
  - destruct r as [|c r]; [reflexivity | cbn [span_digits]; now rewrite M].
  - inversion F as [|? ? Hd F']; subst. rewrite Hd. now rewrite IH.
Qed.

Lemma digit_float c : is_digit c = true -> IS_FLOAT c = true.
Proof. unfold is_digit, IS_FLOAT. cbv zeta. intros ->. reflexivity. Qed.

Lemma strtod_second_point ip fp junk :
  Forall (fun c => is_digit c = true) ip -> Forall (fun c => is_digit c = true) fp ->
  strtod (ip ++ "."%char :: fp ++ "."%char :: junk) = strtod (ip ++ "."%char :: fp).
Proof.
  intros Fi Ff. unfold strtod.
  rewrite (span_digits_app ip ("."%char :: fp ++ "."%char :: junk) Fi eq_refl).
  rewrite (span_digits_app ip ("."%char :: fp) Fi eq_refl).
  rewrite (span_digits_app fp ("."%char :: junk) Ff eq_refl).
  pose proof (span_digits_app fp [] Ff I) as E. rewrite app_nil_r in E.
  rewrite E. reflexivity.
Qed.

Lemma strtod_points n : strtod (repeat "."%char n) = 0%float.
Proof. destruct n as [|[|n]]; reflexivity. Qed.

(** X9: the tokenizer takes any run of digits and points for a number and
    does not look at how much of it [strtod] converts: of a run with two
    points what follows the second point is dropped without a word, so that
    ["1.2.3"] is the number 1.2, and a run of points alone is the number 0. *)
Theorem malformed_number (ip fp junk : list ascii) (n : nat) :
  Forall (fun c => is_digit c = true) ip -> Forall (fun c => is_digit c = true) fp ->
  Forall (fun c => IS_FLOAT c = true) junk ->
  List.length ip + List.length fp + List.length junk <= 13 ->
  1 <= n <= 15 ->
  tokenize (string_of_list_ascii (ip ++ "."%char :: fp ++ "."%char :: junk)) init_buf
  = Ok (buf_of [TokOp "("; TokNum (strtod (ip ++ "."%char :: fp)); TokOp ")"])
  /\ tokenize (string_of_list_ascii (repeat "."%char n)) init_buf
     = Ok (buf_of [TokOp "("; TokNum 0%float; TokOp ")"])
  /\ tokenize "1.2.3" init_buf = tokenize "1.2" init_buf.
Proof.
  intros Fi Ff Fj L Hn. split; [|split].
  - rewrite (tokenize_one false).
    + now rewrite strtod_second_point.
    + now destruct ip.
    + split.
      * apply Forall_app. split; [eapply Forall_impl; [apply digit_float | exact Fi]|].
        constructor; [reflexivity|]. apply Forall_app.
        split; [eapply Forall_impl; [apply digit_float | exact Ff]|].
        constructor; [reflexivity | exact Fj].
      * rewrite length_app. cbn [List.length]. rewrite length_app.
        cbn [List.length]. lia.
  - rewrite (tokenize_one false).
    + now rewrite strtod_points.
    + destruct n; [lia | discriminate].
    + split; [|rewrite repeat_length; lia].
      apply Forall_forall. intros c Hc. apply repeat_spec in Hc. now subst c.
  - reflexivity.
Qed.

Lemma malformed_number_witness :
  tokenize "1.2.3" init_buf
  = Ok (buf_of [TokOp "("; TokNum (strtod (list_ascii_of_string "1.2")); TokOp ")"]).
Proof.
  destruct (malformed_number (list_ascii_of_string "1") (list_ascii_of_string "2")
              (list_ascii_of_string "3") 1) as [H _].
  - repeat constructor.
  - repeat constructor.
  - repeat constructor.
  - simpl. lia.
  - lia.
  - exact H.
Defined.

(** ** Tokenizing into an array in use *)

(** X10: [tokenize] does not empty the array: called on an array that holds
    tokens it puts the tokens of the text behind them, up to the capacity. *)
Theorem tokenize_appends (expr : string) (s s' : TokBuf) :
  fits s -> tokenize expr s = Ok s' ->
  live s' = firstn cap (live s ++ all_tokens implicit_mul expr).
Proof.
  unfold tokenize, all_tokens, lex. intros F T.
  apply (tokenize_loop_tokens _ _ _ _ _ (live s ++ [TokOp "("])) in T.
  - rewrite T, last_last, <- app_assoc. reflexivity.
  - apply push_sim. symmetry. apply firstn_all2.
    rewrite live_length. exact F.
Qed.

Lemma tokenize_appends_witness :
  exists s',
    tokenize "2" (buf_of [TokOp "("; TokNum 1%float; TokOp ")"]) = Ok s'
    /\ live s' = firstn cap (live (buf_of [TokOp "("; TokNum 1%float; TokOp ")"])
                             ++ all_tokens implicit_mul "2").
Proof.
  assert (T : exists s', tokenize "2" (buf_of [TokOp "("; TokNum 1%float; TokOp ")"])
                         = Ok s') by (eexists; reflexivity).
  destruct T as [s' T]. exists s'. split; [exact T|].
  apply (tokenize_appends "2"); [apply fits_buf_of; simpl; lia | exact T].
Defined.

(** ** Printing the tokens *)

Lemma append_assoc (a b c : string) :
  String.append (String.append a b) c = String.append a (String.append b c).
Proof. induction a as [|x a IH]; simpl; [reflexivity | now rewrite IH]. Qed.

Lemma print_tok_text io t :
  printable t = true -> print_tok io t = inl (tok_text io t).
Proof.
  unfold tok_text. destruct t as [|c|x|str]; cbn [printable print_tok];
    try discriminate; try reflexivity.
  intros H. apply negb_true_iff in H. now rewrite H.
Qed.

Lemma print_loop_app io l rest : forall out,
  Forall (fun t => printable t = true) l ->
  print_loop io (l ++ rest) out
  = print_loop io rest
      (String.append out (fold_right String.append EmptyString (map (tok_text io) l))).
Proof.
  induction l as [|t l IH]; intros out H; cbn [app map fold_right].
  - f_equal. clear. induction out as [|c out IH]; simpl; congruence.
  - inversion H as [|? ? Ht Hl]; subst.
    change (print_loop io (t :: l ++ rest) out)
      with (match print_tok io t with
            | inl txt => print_loop io (l ++ rest) (String.append out txt)
            | inr e => (out, Some e)
            end).
    rewrite (print_tok_text io t Ht), IH by assumption.
    now rewrite append_assoc.
Qed.

Lemma fold_append_newline l :
  String.append (fold_right String.append EmptyString l) newline
  = fold_right String.append newline l.
Proof.
  induction l as [|x l IH]; cbn [fold_right]; [reflexivity|].
  now rewrite append_assoc, IH.
Qed.

Lemma print_loop_all io l :
  Forall (fun t => printable t = true) l ->
  print_loop io l EmptyString
  = (fold_right String.append newline (map (tok_text io) l), None).
Proof.
  intros H. rewrite <- (app_nil_r l) at 1. rewrite print_loop_app by assumption.
  cbn [print_loop String.append]. now rewrite fold_append_newline.
Qed.

Lemma print_loop_error io l : forall out,
  snd (print_loop io l out) = None -> Forall (fun t => printable t = true) l.
Proof.
  induction l as [|t l IH]; intros out H; [constructor|].
  cbn [print_loop] in H.
  destruct t as [|c|x|str]; cbn [print_tok] in H; try discriminate H.
  - destruct (c =? Ascii.zero)%char eqn:E; [discriminate H|].
    constructor; [cbn [printable]; now rewrite E | now apply (IH _ H)].
  - constructor; [reflexivity | now apply (IH _ H)].
  - constructor; [reflexivity | now apply (IH _ H)].
Qed.

Lemma token_ok_printable t : token_ok t = true -> printable t = true.
Proof.
  destruct t as [|c|x|str]; cbn [token_ok printable]; auto.
  intros H. destruct (op_char c H) as (_ & _ & _ & _ & ->). reflexivity.
Qed.

Lemma tokenize_printable expr s :
  tokenize expr init_buf = Ok s -> Forall (fun t => printable t = true) (live s).
Proof.
  intros T. rewrite (tokenize_tokens expr s T). apply Forall_firstn.
  eapply Forall_impl; [|apply all_tokens_shapes]. apply token_ok_printable.
Qed.

(** X11: [print_toks] ends the program exactly when a token in use is of no
    kind or is an operator of character 0, and then after the tokens before
    it are printed; otherwise it prints every token followed by a space, and
    a newline. No array that [tokenize] returns makes it end the program. *)
Theorem print_toks_prints (io : Stdio) (s : TokBuf) :
  (snd (print_toks io s) = None <-> Forall (fun t => printable t = true) (live s))
  /\ (forall l1 t l2,
        live s = l1 ++ t :: l2 -> Forall (fun t => printable t = true) l1 ->
        printable t = false ->
        print_toks io s
        = (fold_right String.append EmptyString (map (tok_text io) l1),
           Some (match t with
                 | TokOp _ => UnexpectedEndOfTokenStream
                 | _ => UnhandledToken
                 end)))
  /\ (snd (print_toks io s) = None ->
      fst (print_toks io s)
      = fold_right String.append newline (map (tok_text io) (live s)))
  /\ (forall expr, tokenize expr init_buf = Ok s -> snd (print_toks io s) = None).
Proof.
  unfold print_toks.
  assert (A : forall l, Forall (fun t => printable t = true) l ->
                snd (print_loop io l EmptyString) = None).
  { intros l H. rewrite print_loop_all by assumption. reflexivity. }
  split; [|split; [|split]].
  - split; [apply print_loop_error | apply A].
  - intros l1 t l2 -> H1 Ht.
    rewrite print_loop_app by assumption. cbn [String.append print_loop].
    destruct t as [|c|x|str]; cbn [printable print_tok] in Ht |- *;
      try discriminate; try reflexivity.
    apply negb_false_iff in Ht. now rewrite Ht.
  - intros H. apply print_loop_error in H.
    rewrite print_loop_all by assumption. reflexivity.
  - intros expr T. apply A. now apply (tokenize_printable expr).
Qed.

(** ** What the evaluator leaves of any array *)

Lemma read_ok s i x : read s i = Ok x -> x = tok_at (toks s) i.
Proof. unfold read. destruct (in_cap i); [now intros [= <-] | discriminate]. Qed.

Lemma keeps_refl t s : keeps t s s.
Proof. split; [reflexivity | apply le_n]. Qed.

Lemma keeps_trans t s1 s2 s3 : keeps t s1 s2 -> keeps t s2 s3 -> keeps t s1 s3.
Proof.
  intros [A1 B1] [A2 B2]. split; [|lia].
  intros i Hi. now rewrite A2, A1.
Qed.

Lemma keeps_le t t' s s' : t <= t' -> keeps t' s s' -> keeps t s s'.
Proof. intros L [A B]. split; [|assumption]. intros i Hi. apply A. lia. Qed.

Lemma keeps_write i v s s' t : write i v s = Ok s' -> t <= i -> keeps t s s'.
Proof.
  unfold write. destruct (in_cap i); [|discriminate]. intros [= <-] L.
  split; [|apply le_n]. intros j Hj. cbn [toks]. rewrite tok_at_store.
  destruct (j =? i) eqn:E; [apply Nat.eqb_eq in E; lia | reflexivity].
Qed.

Lemma keeps_del b e s s' t :
  del_toks b e s = Ok s' -> t <= b -> b <= e -> keeps t s s'.
Proof.
  unfold del_toks. destruct (toks_size s <? e) eqn:E; [discriminate|].
  apply Nat.ltb_ge in E. intros [= <-] L1 L2. split; cbn [toks toks_size]; [|lia].
  intros j Hj. rewrite tok_at_memmove.
  now replace (j <? b) with true by (symmetry; apply Nat.ltb_lt; lia).
Qed.

Lemma scan_delim_ge l : forall j k, scan_delim l j = Some k -> j <= k.
Proof.
  induction l as [|x l IH]; intros j k; cbn [scan_delim]; [discriminate|].
  destruct (at_delim x) as [[|]| | |]; try discriminate; [intros [= <-]; lia|].
  intros H. apply IH in H. lia.
Qed.

Lemma find_delim_ge s j k : find_delim s j = Ok k -> j <= k.
Proof.
  unfold find_delim. destruct (scan_delim (skipn j (toks s)) j) as [i|] eqn:E;
    [|discriminate].
  destruct (in_cap i); [|discriminate]. intros [= <-]. now apply scan_delim_ge in E.
Qed.

Lemma passed_ge s start t : passed s start t -> start <= t.
Proof. induction 1; lia. Qed.

Lemma passed_keeps s s' start t :
  passed s start t -> keeps (S t) s s' -> passed s' start t.
Proof.
  induction 1 as [|t c P IH Hs Hp]; intros K; [constructor|].
  apply (passed_step s' start t c); [|now rewrite (proj1 K) by lia | assumption].
  apply IH. apply (keeps_le _ (S (t + 2))); [lia | assumption].
Qed.

Lemma eval_post_keeps t s s1 v s' :
  keeps (S t) s s1 -> eval_post t s1 v s' -> eval_post t s v s'.
Proof.
  intros K (K' & N & D). split; [now apply (keeps_trans _ s s1) | now split].
Qed.

Lemma order_rtl_prec c : order_eqb (op_order c) OrderRtl = true -> op_prec c = 3.
Proof.
  unfold op_order. destruct (c =? "^")%char eqn:E; [|discriminate].
  apply Ascii.eqb_eq in E. now subst c.
Qed.

Lemma advance_binary cop nop :
  (op_prec cop <? op_prec nop)
  || ((op_prec nop =? op_prec cop) && order_eqb (op_order cop) OrderRtl) = true ->
  0 < op_prec nop.
Proof.
  intros H. apply orb_true_iff in H. destruct H as [H|H].
  - apply Nat.ltb_lt in H. lia.
  - apply andb_true_iff in H. destruct H as [H1 H2].
    apply Nat.eqb_eq in H1. apply order_rtl_prec in H2. lia.
Qed.

Lemma fold_binary cop nop :
  (op_prec cop =? 0) && (op_prec nop =? 0) = false ->
  (op_prec nop <? op_prec cop)
  || ((op_prec nop =? op_prec cop) && order_eqb (op_order cop) OrderLtr) = true ->
  0 < op_prec cop.
Proof.
  intros H1 H2. apply orb_true_iff in H2. destruct H2 as [H2|H2].
  - apply Nat.ltb_lt in H2. lia.
  - apply andb_true_iff in H2. destruct H2 as [H2 _]. apply Nat.eqb_eq in H2.
    rewrite H2, andb_diag in H1. apply Nat.eqb_neq in H1. lia.
Qed.

Ltac name_bind H x E :=
  match type of H with
  | bind ?m _ = Ok _ =>
      destruct m as [x| | |] eqn:E; cbn [bind] in H; try discriminate H
  end.

(** The three reads of the tables in a turn of the loop of [eval]. *)
Ltac table_reads H Ic Inx :=
  let p := fresh "prec" in
  let o := fresh "order" in
  let E := fresh "E" in
  name_bind H p E; apply OP_PREC_ok in E; destruct E as [Ic ->];
  name_bind H p E; apply OP_PREC_ok in E; destruct E as [Inx ->];
  name_bind H o E; apply OP_ORDER_ok in E; destruct E as [_ ->].

Section Frame.
Variable m : Libm.
Variable vars : list Var.
Variable functions : list Function.

Local Abbreviation collapse := (collapse m vars functions).
Local Abbreviation collapse_args := (collapse_args m vars functions).
Local Abbreviation eval := (eval m vars functions).
Local Abbreviation eval_loop := (eval_loop m vars functions).

Lemma frame fuel :
  (forall t s s', collapse fuel t s = Ok s' -> keeps (S t) s s')
  /\ (forall t acc s vs s', collapse_args fuel t acc s = Ok (vs, s') ->
        keeps t s s'
        /\ exists more, vs = acc ++ more
                        /\ List.length vs <= Nat.max 16 (List.length acc))
  /\ (forall t s v s', eval fuel t s = Ok (v, s') -> eval_post t s v s')
  /\ (forall start t s v s',
        passed s start t -> at_delim (tok_at (toks s) start) = Ok true ->
        eval_loop fuel t s = Ok (v, s') -> eval_post start s v s').
Proof.
  induction fuel as [|fuel (IHc & IHa & IHe & IHl)];
    [repeat split; intros; discriminate|].
  split; [|split; [|split]].
  - intros t s s' H. rewrite collapse_S in H. unfold collapse_body in H.
    name_bind H t1 R1. name_bind H s1 B1.
    assert (K1 : keeps (S t) s s1).
    { destruct (is_op "-" t1); [|injection B1 as <-; apply keeps_refl].
      name_bind B1 sa Ca. name_bind B1 t2 R2.
      destruct t2 as [| |n|]; try discriminate B1.
      name_bind B1 sb W. apply IHc in Ca.
      apply (keeps_trans _ s sa); [apply (keeps_le _ (S (t + 1))); [lia | exact Ca]|].
      apply (keeps_trans _ sa sb);
        [apply (keeps_write _ _ _ _ _ W); lia | apply (keeps_del _ _ _ _ _ B1); lia]. }
    name_bind H t1' R1'. name_bind H s2 B2.
    assert (K2 : keeps (S t) s s2).
    { apply (keeps_trans _ s s1); [exact K1|].
      destruct (is_op "(" t1'); [|injection B2 as <-; apply keeps_refl].
      name_bind B2 p Ea. destruct p as [res sa].
      name_bind B2 i Fd. name_bind B2 sb D.
      apply IHe in Ea. destruct Ea as (Ka & _). apply find_delim_ge in Fd.
      apply (keeps_trans _ s1 sa); [apply (keeps_le _ (S (t + 1))); [lia | exact Ka]|].
      apply (keeps_trans _ sa sb);
        [apply (keeps_del _ _ _ _ _ D); lia | apply (keeps_write _ _ _ _ _ B2); lia]. }
    name_bind H t1'' R1''.
    destruct t1'' as [| | |str]; try (injection H as <-; exact K2).
    name_bind H t2 R2.
    destruct ((t + 2 <? toks_size s2) && is_op "(" t2).
    + name_bind H p Ca. destruct p as [args s3].
      name_bind H t3 R3. destruct t3 as [| | |str']; try discriminate H.
      name_bind H r Cl. destruct r as [outer_res|]; [|discriminate H].
      apply IHa in Ca. destruct Ca as (Ka & _).
      apply (keeps_trans _ s s2); [exact K2|].
      apply (keeps_trans _ s2 s3); [apply (keeps_le _ (t + 2)); [lia | exact Ka]|].
      apply (keeps_write _ _ _ _ _ H). lia.
    + destruct (var_loop str vars None) as [res|]; [|discriminate H].
      apply (keeps_trans _ s s2); [exact K2|].
      apply (keeps_write _ _ _ _ _ H). lia.
  - intros t acc s vs s' H. rewrite collapse_args_S in H.
    unfold collapse_args_body in H.
    name_bind H p B. destruct p as [acc' s1].
    assert (K : keeps t s s1
                /\ exists more, acc' = acc ++ more
                                /\ List.length acc' <= Nat.max 16 (List.length acc)).
    { destruct (List.length acc <? 16) eqn:E.
      - name_bind B q Ev. destruct q as [v sa]. injection B as <- <-.
        apply IHe in Ev. destruct Ev as (Ke & _). apply Nat.ltb_lt in E.
        split; [apply (keeps_le _ (S t)); [lia | exact Ke]|].
        exists [v]. split; [reflexivity|]. rewrite length_app. cbn [List.length]. lia.
      - injection B as <- <-. split; [apply keeps_refl|].
        exists []. split; [now rewrite app_nil_r | lia]. }
    destruct K as (K & more & -> & L).
    name_bind H i Fd. name_bind H ti R. apply find_delim_ge in Fd.
    destruct (is_op ")" ti).
    + name_bind H s2 D. injection H as <- <-.
      split; [|exists more; split; [reflexivity | exact L]].
      apply (keeps_trans _ s s1); [exact K|]. apply (keeps_del _ _ _ _ _ D); lia.
    + destruct (is_op "," ti).
      * name_bind H s2 D. apply IHa in H. destruct H as (K2 & more2 & -> & L2).
        split; [|exists (more ++ more2); split; [now rewrite app_assoc | lia]].
        apply (keeps_trans _ s s1); [exact K|].
        apply (keeps_trans _ s1 s2); [apply (keeps_del _ _ _ _ _ D); lia | exact K2].
      * apply IHa in H. destruct H as (K2 & more2 & -> & L2).
        split; [|exists (more ++ more2); split; [now rewrite app_assoc | lia]].
        now apply (keeps_trans _ s s1).
  - intros t s v s' H. rewrite eval_S in H. unfold eval_body in H.
    name_bind H t0 R. apply read_ok in R.
    name_bind H delim D. destruct delim; [|discriminate H].
    apply (IHl t t s v s'); [constructor | now rewrite <- R | exact H].
  - intros start t s v s' P D H. rewrite eval_loop_S in H.
    unfold eval_loop_body in H.
    name_bind H s1 C. apply IHc in C.
    pose proof (passed_ge _ _ _ P) as Ge.
    assert (P1 : passed s1 start t) by now apply (passed_keeps s).
    assert (D1 : at_delim (tok_at (toks s1) start) = Ok true)
      by (rewrite (proj1 C) by lia; exact D).
    assert (K1 : keeps (S start) s s1) by (apply (keeps_le _ (S t)); [lia | exact C]).
    apply (eval_post_keeps start s s1); [exact K1|]. clear P D K1 C s.
    name_bind H t0 R0. destruct t0 as [|curr_op| |]; try discriminate H.
    name_bind H t1 R1. destruct t1 as [| |rhs|]; try discriminate H.
    name_bind H t2 R2. destruct t2 as [|next_op| |]; try discriminate H.
    apply read_ok in R0, R1, R2. table_reads H Ic Inn.
    destruct ((op_prec curr_op =? 0) && (op_prec next_op =? 0)) eqn:C1.
    { injection H as <- <-. apply andb_true_iff in C1. destruct C1 as [Hc Hn].
      apply Nat.eqb_eq in Hc.
      assert (E : t = start).
      { inversion P1 as [|t0 c P0 Hs Hp E]; [reflexivity|].
        subst t. rewrite Hs in R0. injection R0 as ->. lia. }
      subst t. split; [apply keeps_refl|]. split; [now rewrite <- R1|].
      rewrite <- R2, (at_delim_in _ Inn). now rewrite Hn. }
    destruct ((op_prec curr_op <? op_prec next_op)
              || ((op_prec next_op =? op_prec curr_op)
                  && order_eqb (op_order curr_op) OrderRtl)) eqn:C2.
    { apply (IHl start (t + 2) s1 v s'); [|exact D1 | exact H].
      apply (passed_step s1 start t next_op); [exact P1 | now rewrite <- R2|].
      now apply (advance_binary curr_op). }
    destruct ((op_prec next_op <? op_prec curr_op)
              || ((op_prec next_op =? op_prec curr_op)
                  && order_eqb (op_order curr_op) OrderLtr)) eqn:C3;
      [|now apply (IHl start t s1 v s')].
    pose proof (fold_binary _ _ C1 C3) as Hb.
    destruct t as [|[|t']]; try discriminate H.
    name_bind H tk Rl. destruct tk as [| |lhs|]; try discriminate H.
    name_bind H res A. name_bind H s2 W. name_bind H s3 Dl.
    assert (P' : passed s1 start t').
    { inversion P1 as [|t0 c P0 Hs Hp E].
      - exfalso. subst start. rewrite <- R0 in D1. apply at_delim_op in D1.
        destruct D1 as (c' & [= <-] & _ & D1). lia.
      - replace t' with t0 by lia. exact P0. }
    pose proof (passed_ge _ _ _ P') as Ge'.
    assert (K3 : keeps (S t') s1 s3).
    { apply (keeps_trans _ s1 s2);
        [apply (keeps_write _ _ _ _ _ W); lia | apply (keeps_del _ _ _ _ _ Dl); lia]. }
    apply (eval_post_keeps start s1 s3);
      [apply (keeps_le _ (S t')); [lia | exact K3]|].
    apply (IHl start t' s3 v s'); [now apply (passed_keeps s1) | | exact H].
    rewrite (proj1 K3) by lia. exact D1.
Qed.

End Frame.

(** X12: whatever the array holds, when [eval] called on a slot returns,
    that slot held a delimiter, the slot after it now holds the number
    returned and the next one a delimiter, the slots up to the one it was
    called on are as they were, and no more tokens are in use than before.
    [collapse] likewise leaves the slots up to the one it was called on as
    they were, and the values of the arguments of a call are collected in
    their order, never more than the 16 that [arg_results] holds. *)
Theorem eval_leaves_its_value (m : Libm) (vars : list Var) (functions : list Function)
    (fuel t : nat) (s : TokBuf) :
  (forall v s', eval m vars functions fuel t s = Ok (v, s') ->
     at_delim (tok_at (toks s) t) = Ok true
     /\ tok_at (toks s') (t + 1) = TokNum v
     /\ at_delim (tok_at (toks s') (t + 2)) = Ok true
     /\ (forall i, i <= t -> tok_at (toks s') i = tok_at (toks s) i)
     /\ toks_size s' <= toks_size s)
  /\ (forall s', collapse m vars functions fuel t s = Ok s' ->
        (forall i, i <= t -> tok_at (toks s') i = tok_at (toks s) i)
        /\ toks_size s' <= toks_size s)
  /\ (forall vs s', collapse_args m vars functions fuel t [] s = Ok (vs, s') ->
        List.length vs <= 16
        /\ (forall i, i < t -> tok_at (toks s') i = tok_at (toks s) i)
        /\ toks_size s' <= toks_size s).
Proof.
  destruct (frame m vars functions fuel) as (Fc & Fa & Fe & _).
  split; [|split].
  - intros v s' H. pose proof (Fe t s v s' H) as ((K & Sz) & N & D).
    split; [|split; [exact N | split; [exact D | split; [|exact Sz]]]].
    + destruct fuel as [|fuel]; [discriminate H|].
      rewrite eval_S in H. unfold eval_body in H.
      destruct (read s t) as [t0| | |] eqn:R; try discriminate H.
      apply read_ok in R. cbn [bind] in H.
      destruct (at_delim t0) as [[|]| | |] eqn:E; try discriminate H.
      now rewrite <- R.
    + intros i Hi. apply K. lia.
  - intros s' H. destruct (Fc t s s' H) as (K & Sz).
    split; [|exact Sz]. intros i Hi. apply K. lia.
  - intros vs s' H. destruct (Fa t [] s vs s' H) as ((K & Sz) & more & _ & L).
    split; [exact L|]. split; [exact K | exact Sz].
Qed.

Lemma eval_leaves_its_value_witness :
  exists v s',
    eval sample_libm [] [] 40 0
      (buf_of [TokOp "("; TokNum 2%float; TokOp "+"; TokNum 3%float; TokOp ")"])
    = Ok (v, s')
    /\ tok_at (toks s') 1 = TokNum v.
Proof.
  assert (E : exists v s',
            eval sample_libm [] [] 40 0
              (buf_of [TokOp "("; TokNum 2%float; TokOp "+"; TokNum 3%float; TokOp ")"])
            = Ok (v, s')) by (eexists; eexists; vm_compute; reflexivity).
  destruct E as (v & s' & E). exists v, s'. split; [exact E|].
  now apply (eval_leaves_its_value sample_libm [] [] 40 0 _) in E.
Defined.

(** ** The two errors that no input reaches *)

Lemma tokenize_loop_exit fuel : forall curr pos depth s e,
  tokenize_loop fuel curr pos depth s = Exit e ->
  e = UnmatchedCloseParen \/ e = UnmatchedOpenParen
  \/ exists p c, e = UnrecognizedCharacter p c.
Proof.
  assert (End : forall depth s e, tokenize_end depth s = Exit e ->
                  e = UnmatchedCloseParen \/ e = UnmatchedOpenParen
                  \/ exists p c, e = UnrecognizedCharacter p c).
  { intros depth s e. unfold tokenize_end.
    destruct (0 <? depth)%N; [intros [= <-]; auto | discriminate]. }
  induction fuel as [|fuel IH]; intros curr pos depth s e; [discriminate|].
  cbn [tokenize_loop]. destruct curr as [|c rest]; [apply End|].
  destruct (c =? Ascii.zero)%char; [apply End|].
  destruct (c =? " ")%char; [apply IH|].
  destruct (IS_FLOAT c); [apply IH|]. destruct (IS_ALPHA c); [apply IH|].
  destruct ((c =? ")")%char && (depth =? 0)%N); [intros [= <-]; auto|].
  destruct (is_op_char c); [apply IH | intros [= <-]; eauto].
Qed.

Lemma handled_bind {A B : Type} (m0 : outcome A) (k : A -> outcome B) :
  handled m0 -> (forall a, m0 = Ok a -> handled (k a)) -> handled (bind m0 k).
Proof.
  unfold handled. intros H1 H2.
  destruct m0 as [a| | |]; simpl; [now apply H2 | | discriminate..].
  intros [= ->]. now apply H1.
Qed.

Lemma handled_read s i : handled (read s i).
Proof. unfold handled, read. destruct (in_cap i); discriminate. Qed.

Lemma handled_write i v s : handled (write i v s).
Proof. unfold handled, write. destruct (in_cap i); discriminate. Qed.

Lemma handled_del b e s : handled (del_toks b e s).
Proof. unfold handled, del_toks. destruct (toks_size s <? e); discriminate. Qed.

Lemma handled_find s j : handled (find_delim s j).
Proof.
  unfold handled, find_delim. destruct (scan_delim (skipn j (toks s)) j) as [k|];
    [destruct (in_cap k)|]; discriminate.
Qed.

Lemma handled_prec c : handled (OP_PREC c).
Proof. unfold handled, OP_PREC. destruct (in_table c); discriminate. Qed.

Lemma handled_order c : handled (OP_ORDER c).
Proof. unfold handled, OP_ORDER. destruct (in_table c); discriminate. Qed.

Lemma handled_at_delim t : handled (at_delim t).
Proof.
  unfold handled. destruct t as [|c| |]; cbn [at_delim]; try discriminate.
  unfold OP_PREC. destruct (in_table c); discriminate.
Qed.

Lemma handled_call_loop n args fs : forall res, handled (call_loop n args fs res).
Proof.
  induction fs as [|f fs IH]; intros res; simpl; [discriminate|].
  destruct (String.eqb n (fn_name f)); [|apply IH].
  destruct (List.length args =? n_args f); [apply IH | discriminate].
Qed.

Ltac handled_step :=
  first
    [ match goal with
      | H : forall t s, handled (_ t s) |- _ => apply H
      | H : forall t a s, handled (_ t a s) |- _ => apply H
      end
    | match goal with
      | H : OP_PREC _ = Ok _ |- _ => apply OP_PREC_ok in H; destruct H as [_ ->]
      | H : OP_ORDER _ = Ok _ |- _ => apply OP_ORDER_ok in H; destruct H as [_ ->]
      end
    | apply handled_read | apply handled_write | apply handled_del
    | apply handled_find | apply handled_call_loop
    | apply handled_prec | apply handled_order | apply handled_at_delim
    | (unfold handled; discriminate)
    | match goal with
      | |- handled (bind (apply_op ?mm ?c ?l ?r) _) =>
          let Hb := fresh "Hb" in
          assert (Hb : 0 < op_prec c) by (eapply fold_binary; eassumption);
          let res := fresh "res" in
          let E := fresh "E" in
          destruct (apply_op_total mm c l r Hb) as [res E]; rewrite E; cbn [bind]
      end
    | (apply handled_bind; [|intros ? ?; cbv beta zeta])
    | match goal with
      | |- handled (match ?x with _ => _ end) => destruct x eqn:?
      end ].

Section Handled.
Variable m : Libm.
Variable vars : list Var.
Variable functions : list Function.

Local Abbreviation collapse := (collapse m vars functions).
Local Abbreviation collapse_args := (collapse_args m vars functions).
Local Abbreviation eval := (eval m vars functions).
Local Abbreviation eval_loop := (eval_loop m vars functions).

Lemma handled_all fuel :
  (forall t s, handled (collapse fuel t s))
  /\ (forall t a s, handled (collapse_args fuel t a s))
  /\ (forall t s, handled (eval fuel t s))
  /\ (forall t s, handled (eval_loop fuel t s)).
Proof.
  induction fuel as [|fuel (IHc & IHa & IHe & IHl)];
    [repeat split; intros; discriminate|].
  repeat split; intros.
  - rewrite collapse_S. unfold collapse_body. repeat handled_step.
  - rewrite collapse_args_S. unfold collapse_args_body. repeat handled_step.
  - rewrite eval_S. unfold eval_body. repeat handled_step.
  - rewrite eval_loop_S. unfold eval_loop_body. repeat handled_step.
Qed.

End Handled.

Lemma store_tabled (P : Tok -> Prop) v : P v -> P TokNull ->
  forall i a, Forall P a -> Forall P (store i v a).
Proof.
  intros Hv Hn. induction i as [|i IH]; intros [|x a] H; cbn [store].
  - now constructor.
  - inversion H; subst. now constructor.
  - constructor; [exact Hn | now apply IH].
  - inversion H; subst. constructor; [assumption | now apply IH].
Qed.

Lemma push_tok_tabled t s : tabled_tok t = true -> tabled s -> tabled (push_tok t s).
Proof.
  intros Ht Hs. unfold push_tok.
  destruct (N.of_nat (toks_size s) <? TOKS_CAP)%N; [|exact Hs].
  unfold tabled. cbn [toks].
  now apply (store_tabled (fun t => tabled_tok t = true)).
Qed.

Lemma op_char_in_table c : is_op_char c = true -> in_table c = true.
Proof.
  unfold is_op_char. intros H.
  repeat (apply orb_true_iff in H; destruct H as [H|H]);
    apply Ascii.eqb_eq in H; now subst c.
Qed.

Lemma tokenize_loop_tabled fuel : forall curr pos depth s s',
  tabled s -> tokenize_loop fuel curr pos depth s = Ok s' -> tabled s'.
Proof.
  assert (End : forall depth s s', tabled s -> tokenize_end depth s = Ok s' -> tabled s').
  { intros depth s s' Hs. unfold tokenize_end.
    destruct (0 <? depth)%N; [discriminate|]. intros [= <-].
    now apply push_tok_tabled. }
  assert (Mul : forall (b : bool) s,
            tabled s -> tabled (if b then push_tok (TokOp "*") s else s)).
  { intros [|] s Hs; [now apply push_tok_tabled | exact Hs]. }
  induction fuel as [|fuel IH]; intros curr pos depth s s' Hs; [discriminate|].
  cbn [tokenize_loop]. destruct curr as [|c rest]; [now apply End|].
  destruct (c =? Ascii.zero)%char; [now apply End|].
  destruct (c =? " ")%char; [now apply IH|].
  destruct (IS_FLOAT c); [apply IH; apply push_tok_tabled; [reflexivity | now apply Mul]|].
  destruct (IS_ALPHA c); [apply IH; apply push_tok_tabled; [reflexivity | now apply Mul]|].
  destruct ((c =? ")")%char && (depth =? 0)%N); [discriminate|].
  destruct (is_op_char c) eqn:O; [|discriminate].
  apply IH. apply push_tok_tabled; [now apply op_char_in_table | now apply Mul].
Qed.

Lemma tokenize_tabled expr s : tokenize expr init_buf = Ok s -> tabled s.
Proof.
  unfold tokenize. apply tokenize_loop_tabled.
  apply push_tok_tabled; [reflexivity | constructor].
Qed.

Lemma tok_at_tabled a i :
  Forall (fun t => tabled_tok t = true) a -> tabled_tok (tok_at a i) = true.
Proof.
  intros H. unfold tok_at.
  destruct (Nat.lt_ge_cases i (List.length a)) as [L|L].
  - rewrite Forall_forall in H. apply H. now apply nth_In.
  - now rewrite nth_overflow.
Qed.

Lemma write_tabled i v s s' :
  write i v s = Ok s' -> tabled_tok v = true -> tabled s -> tabled s'.
Proof.
  unfold write. destruct (in_cap i); [|discriminate]. intros [= <-] Hv Hs.
  unfold tabled. cbn [toks]. now apply (store_tabled (fun t => tabled_tok t = true)).
Qed.

Lemma del_tabled b e s s' : del_toks b e s = Ok s' -> tabled s -> tabled s'.
Proof.
  unfold del_toks. destruct (toks_size s <? e); [discriminate|]. intros [= <-] Hs.
  unfold tabled in *. cbn [toks]. unfold memmove_toks, pad.
  apply Forall_app. split; [|apply Forall_app; split].
  - apply Forall_firstn. apply Forall_app. split; [exact Hs|].
    apply Forall_forall. intros x Hx. apply repeat_spec in Hx. now subst.
  - apply Forall_forall. intros x Hx. apply in_map_iff in Hx.
    destruct Hx as (k & <- & _). now apply tok_at_tabled.
  - apply Forall_forall. intros x Hx. apply in_skipn in Hx.
    rewrite Forall_forall in Hs. now apply Hs.
Qed.

Section Tabled.
Variable m : Libm.
Variable vars : list Var.
Variable functions : list Function.

Local Abbreviation collapse := (collapse m vars functions).
Local Abbreviation collapse_args := (collapse_args m vars functions).
Local Abbreviation eval := (eval m vars functions).
Local Abbreviation eval_loop := (eval_loop m vars functions).

(** The evaluator writes numbers and moves tokens: it makes no operator
    token. *)
Lemma tabled_kept fuel :
  (forall t s s', collapse fuel t s = Ok s' -> tabled s -> tabled s')
  /\ (forall t acc s vs s', collapse_args fuel t acc s = Ok (vs, s') ->
        tabled s -> tabled s')
  /\ (forall t s v s', eval fuel t s = Ok (v, s') -> tabled s -> tabled s')
  /\ (forall t s v s', eval_loop fuel t s = Ok (v, s') -> tabled s -> tabled s').
Proof.
  induction fuel as [|fuel (IHc & IHa & IHe & IHl)];
    [repeat split; intros; discriminate|].
  split; [|split; [|split]].
  - intros t s s' H Ts. rewrite collapse_S in H. unfold collapse_body in H.
    name_bind H t1 R1. name_bind H s1 B1.
    assert (T1 : tabled s1).
    { destruct (is_op "-" t1); [|now injection B1 as <-].
      name_bind B1 sa Ca. name_bind B1 t2 R2.
      destruct t2 as [| |n|]; try discriminate B1.
      name_bind B1 sb W. apply (del_tabled _ _ _ _ B1).
      apply (write_tabled _ _ _ _ W); [reflexivity|]. now apply (IHc _ _ _ Ca). }
    name_bind H t1' R1'. name_bind H s2 B2.
    assert (T2 : tabled s2).
    { destruct (is_op "(" t1'); [|now injection B2 as <-].
      name_bind B2 p Ea. destruct p as [res sa].
      name_bind B2 i Fd. name_bind B2 sb D.
      apply (write_tabled _ _ _ _ B2); [reflexivity|].
      apply (del_tabled _ _ _ _ D). now apply (IHe _ _ _ _ Ea). }
    name_bind H t1'' R1''.
    destruct t1'' as [| | |str]; try (now injection H as <-).
    name_bind H t2 R2.
    destruct ((t + 2 <? toks_size s2) && is_op "(" t2).
    + name_bind H p Ca. destruct p as [args s3].
      name_bind H t3 R3. destruct t3 as [| | |str']; try discriminate H.
      name_bind H r Cl. destruct r as [outer_res|]; [|discriminate H].
      apply (write_tabled _ _ _ _ H); [reflexivity|]. now apply (IHa _ _ _ _ _ Ca).
    + destruct (var_loop str vars None) as [res|]; [|discriminate H].
      now apply (write_tabled _ _ _ _ H).
  - intros t acc s vs s' H Ts. rewrite collapse_args_S in H.
    unfold collapse_args_body in H.
    name_bind H p B. destruct p as [acc' s1].
    assert (T1 : tabled s1).
    { destruct (List.length acc <? 16); [|now injection B as <- <-].
      name_bind B q Ev. destruct q as [v sa]. injection B as <- <-.
      now apply (IHe _ _ _ _ Ev). }
    name_bind H i Fd. name_bind H ti R.
    destruct (is_op ")" ti).
    + name_bind H s2 D. injection H as <- <-. now apply (del_tabled _ _ _ _ D).
    + destruct (is_op "," ti).
      * name_bind H s2 D. apply (IHa _ _ _ _ _ H). now apply (del_tabled _ _ _ _ D).
      * now apply (IHa _ _ _ _ _ H).
  - intros t s v s' H Ts. rewrite eval_S in H. unfold eval_body in H.
    name_bind H t0 R. name_bind H delim D. destruct delim; [|discriminate H].
    now apply (IHl _ _ _ _ H).
  - intros t s v s' H Ts. rewrite eval_loop_S in H. unfold eval_loop_body in H.
    name_bind H s1 C. apply IHc in C; [|exact Ts].
    name_bind H t0 R0. destruct t0 as [|curr_op| |]; try discriminate H.
    name_bind H t1 R1. destruct t1 as [| |rhs|]; try discriminate H.
    name_bind H t2 R2. destruct t2 as [|next_op| |]; try discriminate H.
    table_reads H Ic Inn.
    destruct ((op_prec curr_op =? 0) && (op_prec next_op =? 0));
      [now injection H as <- <-|].
    destruct ((op_prec curr_op <? op_prec next_op)
              || ((op_prec next_op =? op_prec curr_op)
                  && order_eqb (op_order curr_op) OrderRtl));
      [now apply (IHl _ _ _ _ H)|].
    destruct ((op_prec next_op <? op_prec curr_op)
              || ((op_prec next_op =? op_prec curr_op)
                  && order_eqb (op_order curr_op) OrderLtr));
      [|now apply (IHl _ _ _ _ H)].
    destruct t as [|[|t']]; try discriminate H.
    name_bind H tk Rl. destruct tk as [| |lhs|]; try discriminate H.
    name_bind H res A. name_bind H s2 W. name_bind H s3 Dl.
    apply (IHl _ _ _ _ H). apply (del_tabled _ _ _ _ Dl).
    now apply (write_tabled _ _ _ _ W).
Qed.

End Tabled.

(** X13: the error of an unhandled operator cannot happen while the tables
    are read within their bounds. On an array whose operator tokens all hold
    characters below 128, with any registries, neither [eval] nor [collapse]
    ends with it, and the array [eval] returns is such an array again, the
    evaluator making no operator token; the tokenizer makes such an array
    of every text it accepts, and no run on a text ends with the error. For
    the loop of [eval] folds an operator only when the precedence it has
    read for it is above 0, and the [switch] knows the operators of such a
    precedence. Nor does the loop ever take a turn without going right or
    folding: whatever precedences and order it has read, one of the two
    conditions holds. *)
Theorem unhandled_operator_unreachable (m : Libm) (vars : list Var)
    (functions : list Function) :
  (forall fuel t s, tabled s ->
     eval m vars functions fuel t s <> Exit UnhandledOperator)
  /\ (forall fuel t s, tabled s ->
        collapse m vars functions fuel t s <> Exit UnhandledOperator)
  /\ (forall fuel t s v s', tabled s ->
        eval m vars functions fuel t s = Ok (v, s') -> tabled s')
  /\ (forall expr s, tokenize expr init_buf = Ok s -> tabled s)
  /\ (forall fuel expr, run m vars functions fuel expr <> Exit UnhandledOperator)
  /\ (forall curr_op next_op curr_prec next_prec curr_order lhs rhs,
        OP_PREC curr_op = Ok curr_prec -> OP_PREC next_op = Ok next_prec ->
        OP_ORDER curr_op = Ok curr_order ->
        (curr_prec =? 0) && (next_prec =? 0) = false ->
        (curr_prec <? next_prec)
        || ((next_prec =? curr_prec) && order_eqb curr_order OrderRtl) = false ->
        exists res, apply_op m curr_op lhs rhs = Ok res)
  /\ (forall (curr_prec next_prec : nat) (curr_order : Order),
        ((curr_prec <? next_prec)
         || ((next_prec =? curr_prec) && order_eqb curr_order OrderRtl))
        || ((next_prec <? curr_prec)
            || ((next_prec =? curr_prec) && order_eqb curr_order OrderLtr))
        = true).
Proof.
  split; [|split; [|split; [|split; [|split; [|split]]]]].
  - intros fuel t s _. destruct (handled_all m vars functions fuel) as (_ & _ & H & _).
    apply H.
  - intros fuel t s _. destruct (handled_all m vars functions fuel) as (H & _).
    apply H.
  - intros fuel t s v s' Ts E.
    destruct (tabled_kept m vars functions fuel) as (_ & _ & H & _).
    now apply (H t s v s').
  - apply tokenize_tabled.
  - intros fuel expr. unfold run. change (handled
      (s <- tokenize expr init_buf ;;
       '(res, _) <- eval m vars functions fuel 0 s ;; Ok res)).
    apply handled_bind.
    { intros T. apply tokenize_loop_exit in T.
      destruct T as [T|[T|(p & c & T)]]; discriminate T. }
    intros s _.
    apply handled_bind;
      [destruct (handled_all m vars functions fuel) as (_ & _ & H & _); apply H|].
    intros [res s'] _. discriminate.
  - intros curr_op next_op curr_prec next_prec curr_order lhs rhs Pc Pn Oc C D.
    apply OP_PREC_ok in Pc, Pn. apply OP_ORDER_ok in Oc.
    destruct Pc as [_ ->], Pn as [_ ->], Oc as [_ ->].
    apply apply_op_total. apply (fold_binary curr_op next_op C). now apply fold_cond.
  - intros curr_prec next_prec curr_order.
    destruct (Nat.lt_trichotomy curr_prec next_prec) as [L|[E|L]].
    + now replace (curr_prec <? next_prec) with true by (symmetry; now apply Nat.ltb_lt).
    + subst. rewrite Nat.ltb_irrefl, Nat.eqb_refl. now destruct curr_order.
    + replace (next_prec <? curr_prec) with true by (symmetry; now apply Nat.ltb_lt).
      now rewrite orb_true_r.
Qed.

Lemma unhandled_operator_unreachable_witness :
  exists res, apply_op sample_libm "*" 2%float 3%float = Ok res.
Proof.
  destruct (unhandled_operator_unreachable sample_libm [] [])
    as (_ & _ & _ & _ & _ & H & _).
  apply (H "*"%char "+"%char 2 1 OrderLtr); reflexivity.
Defined.

Lemma delimited_bind {A B : Type} (m0 : outcome A) (k : A -> outcome B) :
  delimited m0 -> (forall a, m0 = Ok a -> delimited (k a)) -> delimited (bind m0 k).
Proof.
  unfold delimited. intros H1 H2.
  destruct m0 as [a| | |]; simpl; [now apply H2 | | discriminate..].
  intros [= ->]. now apply H1.
Qed.

Lemma delimited_read s i : delimited (read s i).
Proof. unfold delimited, read. destruct (in_cap i); discriminate. Qed.

Lemma delimited_write i v s : delimited (write i v s).
Proof. unfold delimited, write. destruct (in_cap i); discriminate. Qed.

Lemma delimited_del b e s : delimited (del_toks b e s).
Proof. unfold delimited, del_toks. destruct (toks_size s <? e); discriminate. Qed.

Lemma delimited_find s j : delimited (find_delim s j).
Proof.
  unfold delimited, find_delim. destruct (scan_delim (skipn j (toks s)) j) as [k|];
    [destruct (in_cap k)|]; discriminate.
Qed.

Lemma delimited_prec c : delimited (OP_PREC c).
Proof. unfold delimited, OP_PREC. destruct (in_table c); discriminate. Qed.

Lemma delimited_order c : delimited (OP_ORDER c).
Proof. unfold delimited, OP_ORDER. destruct (in_table c); discriminate. Qed.

Lemma delimited_at_delim t : delimited (at_delim t).
Proof.
  unfold delimited. destruct t as [|c| |]; cbn [at_delim]; try discriminate.
  unfold OP_PREC. destruct (in_table c); discriminate.
Qed.

Lemma delimited_call_loop n args fs : forall res, delimited (call_loop n args fs res).
Proof.
  induction fs as [|f fs IH]; intros res; simpl; [discriminate|].
  destruct (String.eqb n (fn_name f)); [|apply IH].
  destruct (List.length args =? n_args f); [apply IH | discriminate].
Qed.

Lemma delimited_apply_op m c l r : delimited (apply_op m c l r).
Proof.
  unfold delimited, apply_op.
  repeat match goal with |- (if ?b then _ else _) <> _ => destruct b end;
    discriminate.
Qed.

Lemma is_op_delim c t :
  in_table c = true -> op_prec c = 0 -> is_op c t = true -> at_delim t = Ok true.
Proof.
  intros Ic Hc. destruct t as [|c'| |]; cbn [is_op]; try discriminate.
  intros E. apply Ascii.eqb_eq in E. subst c'.
  rewrite (at_delim_in c Ic). now rewrite Hc.
Qed.

Lemma del_keeps_delim t i s s' :
  del_toks t i s = Ok s' ->
  at_delim (tok_at (toks s) t) = Ok true -> at_delim (tok_at (toks s) i) = Ok true ->
  at_delim (tok_at (toks s') t) = Ok true.
Proof.
  unfold del_toks. destruct (toks_size s <? i); [discriminate|].
  intros [= <-] Ht Hi. cbn [toks]. rewrite tok_at_memmove, Nat.ltb_irrefl.
  destruct (t <? t + (toks_size s - i)); [|exact Ht].
  now rewrite Nat.sub_diag, Nat.add_0_r.
Qed.

Ltac delimited_step :=
  first
    [ match goal with
      | H : forall t s, delimited (_ t s) |- _ => apply H
      end
    | apply delimited_read | apply delimited_write | apply delimited_del
    | apply delimited_find | apply delimited_call_loop | apply delimited_apply_op
    | apply delimited_prec | apply delimited_order
    | (unfold delimited; discriminate)
    | (apply delimited_bind; [|intros ? ?; cbv beta zeta])
    | match goal with
      | |- delimited (match ?x with _ => _ end) => destruct x eqn:?
      end ].

Section Delimited.
Variable m : Libm.
Variable vars : list Var.
Variable functions : list Function.

Local Abbreviation collapse := (collapse m vars functions).
Local Abbreviation collapse_args := (collapse_args m vars functions).
Local Abbreviation eval := (eval m vars functions).
Local Abbreviation eval_loop := (eval_loop m vars functions).

Lemma delimited_all fuel :
  (forall t s, delimited (collapse fuel t s))
  /\ (forall t s, delimited (eval_loop fuel t s))
  /\ (forall t a s, at_delim (tok_at (toks s) t) = Ok true ->
        delimited (collapse_args fuel t a s))
  /\ (forall t s, at_delim (tok_at (toks s) t) = Ok true -> delimited (eval fuel t s)).
Proof.
  induction fuel as [|fuel (IHc & IHl & IHa & IHe)];
    [repeat split; intros; discriminate|].
  split; [|split; [|split]].
  - intros t s. rewrite collapse_S. unfold collapse_body.
    apply delimited_bind; [apply delimited_read|]. intros t1 R1.
    apply delimited_bind; [repeat delimited_step|]. intros s1 B1.
    apply delimited_bind; [apply delimited_read|]. intros t1' R1'.
    apply delimited_bind.
    { destruct (is_op "(" t1') eqn:O; [|discriminate].
      apply delimited_bind; [|intros [res sa] _; repeat delimited_step].
      apply IHe. rewrite <- (read_ok _ _ _ R1'). now apply (is_op_delim "("). }
    intros s2 B2.
    apply delimited_bind; [apply delimited_read|]. intros t1'' R1''.
    destruct t1'' as [| | |str]; try discriminate.
    apply delimited_bind; [destruct (t + 2 <? toks_size s2); [apply delimited_read | discriminate]|].
    intros t2 R2.
    destruct ((t + 2 <? toks_size s2) && is_op "(" t2) eqn:O;
      [|destruct (var_loop str vars None); [apply delimited_write | discriminate]].
    apply andb_true_iff in O. destruct O as [O1 O2]. rewrite O1 in R2.
    apply delimited_bind; [|intros [args s3] _; repeat delimited_step].
    apply IHa. rewrite <- (read_ok _ _ _ R2). now apply (is_op_delim "(").
  - intros t s. rewrite eval_loop_S. unfold eval_loop_body.
    repeat delimited_step.
  - intros t a s D. rewrite collapse_args_S. unfold collapse_args_body.
    apply delimited_bind.
    { destruct (List.length a <? 16); [|discriminate].
      apply delimited_bind; [now apply IHe | intros [v sa] _; discriminate]. }
    intros [acc' s1] B.
    assert (D1 : at_delim (tok_at (toks s1) t) = Ok true).
    { destruct (List.length a <? 16); [|now injection B as <- <-].
      destruct (eval fuel t s) as [[v sa]| | |] eqn:Ev; try discriminate B.
      injection B as <- <-.
      destruct (frame m vars functions fuel) as (_ & _ & Fe & _).
      destruct (Fe t s v sa Ev) as ((K & _) & _). now rewrite K by lia. }
    apply delimited_bind; [apply delimited_find|]. intros i Fd.
    apply delimited_bind; [apply delimited_read|]. intros ti R.
    destruct (is_op ")" ti); [repeat delimited_step|].
    destruct (is_op "," ti) eqn:O; [|now apply IHa].
    apply delimited_bind; [apply delimited_del|]. intros s2 Dl.
    apply IHa. apply (del_keeps_delim t i s1 s2 Dl D1).
    rewrite <- (read_ok _ _ _ R). now apply (is_op_delim ",").
  - intros t s D. rewrite eval_S. unfold eval_body.
    apply delimited_bind; [apply delimited_read|]. intros t0 R.
    apply delimited_bind; [apply delimited_at_delim|]. intros [|] A; [apply IHl|].
    rewrite (read_ok _ _ _ R), D in A. discriminate A.
Qed.

End Delimited.

Lemma tokenize_first expr s :
  tokenize expr init_buf = Ok s -> tok_at (toks s) 0 = TokOp "(".
Proof.
  intros T. pose proof (tokenize_tokens expr s T) as L.
  pose proof cap_pos as C. unfold all_tokens in L.
  destruct cap as [|k] eqn:E; [lia|]. cbn [firstn] in L.
  rewrite <- (nth_live s 0).
  - now rewrite L.
  - rewrite <- live_length, L. simpl. lia.
Qed.

(** X14: the check at the start of [eval] never fails in a run of the
    program: [main] calls it on the ['('] the tokenizer opens with,
    [collapse] calls it on a ['('] it has just read, and the loop over the
    arguments calls it on the ['('] of the call and then on the [','] that
    the deletion has moved there. So no run on a text ends with the error of
    the expected delimiter, and on an array whose operator tokens all hold
    characters below 128 [collapse] does not end with it, nor does [eval]
    called on a slot where the check finds a delimiter. Called on a slot
    where the check finds none, [eval] ends with it at once. *)
Theorem expected_delimiter_unreachable (m : Libm) (vars : list Var)
    (functions : list Function) :
  (forall fuel expr, run m vars functions fuel expr <> Exit ExpectedDelimiter)
  /\ (forall fuel t s, tabled s ->
        collapse m vars functions fuel t s <> Exit ExpectedDelimiter)
  /\ (forall fuel t s, tabled s -> at_delim (tok_at (toks s) t) = Ok true ->
        eval m vars functions fuel t s <> Exit ExpectedDelimiter)
  /\ (forall fuel t s, in_cap t = true -> at_delim (tok_at (toks s) t) = Ok false ->
        eval m vars functions (S fuel) t s = Exit ExpectedDelimiter).
Proof.
  split; [|split; [|split]].
  - intros fuel expr. unfold run.
    change (delimited (s <- tokenize expr init_buf ;;
                       '(res, _) <- eval m vars functions fuel 0 s ;; Ok res)).
    apply delimited_bind.
    + intros T. apply tokenize_loop_exit in T.
      destruct T as [T|[T|(p & c & T)]]; discriminate T.
    + intros s T. apply delimited_bind; [|intros [res s'] _; discriminate].
      destruct (delimited_all m vars functions fuel) as (_ & _ & _ & H).
      apply H. now rewrite (tokenize_first expr s T).
  - intros fuel t s _. destruct (delimited_all m vars functions fuel) as (H & _).
    apply H.
  - intros fuel t s _ D.
    destruct (delimited_all m vars functions fuel) as (_ & _ & _ & H).
    now apply H.
  - intros fuel t s C D. rewrite eval_S. unfold eval_body, read.
    rewrite C. cbn [bind]. now rewrite D.
Qed.

Lemma expected_delimiter_unreachable_witness :
  eval sample_libm [] [] 1 0 (buf_of [TokNum 1%float]) = Exit ExpectedDelimiter.
Proof.
  apply (expected_delimiter_unreachable sample_libm [] []); reflexivity.
Defined.

(** ** An operator where an operand should stand *)

(** X15: when the token after the operator or delimiter the loop of [eval]
    stands on is itself an operator other than a minus sign or a ['('],
    [collapse] leaves the array as it is and the loop ends the program with
    the error of the token order, before it reads a table; so does [eval]
    called there, when its check finds a delimiter. The program thus ends
    with this error for two binary operators in a row, for a sign [+], and
    for an operator before a [')']. *)
Theorem operator_for_operand (m : Libm) (vars : list Var) (functions : list Function)
    (fuel : nat) (s : TokBuf) (pre : list Tok) (c0 c : ascii) (rest : list Tok) :
  live s = pre ++ TokOp c0 :: TokOp c :: rest -> fits s ->
  c <> "-"%char -> c <> "("%char ->
  collapse m vars functions (S fuel) (List.length pre) s = Ok s
  /\ eval_loop m vars functions (2 + fuel) (List.length pre) s = Exit InvalidTokenOrder
  /\ (at_delim (TokOp c0) = Ok true ->
      eval m vars functions (3 + fuel) (List.length pre) s = Exit InvalidTokenOrder)
  /\ (forall n, 40 <= n ->
        run m vars functions n "+1" = Exit InvalidTokenOrder
        /\ run m vars functions n "2*/3" = Exit InvalidTokenOrder
        /\ run m vars functions n "2*(3+)" = Exit InvalidTokenOrder).
Proof.
  intros H F N1 N2.
  assert (O1 : is_op "-" (TokOp c) = false)
    by (cbn [is_op]; now apply Ascii.eqb_neq).
  assert (O2 : is_op "(" (TokOp c) = false)
    by (cbn [is_op]; now apply Ascii.eqb_neq).
  assert (C : collapse m vars functions (S fuel) (List.length pre) s = Ok s).
  { rewrite collapse_S. unfold collapse_body.
    rewrite (read_in s (pre ++ [TokOp c0]) (TokOp c) rest) by side H.
    cbn [bind]. rewrite O1. cbn [bind].
    rewrite (read_in s (pre ++ [TokOp c0]) (TokOp c) rest) by side H.
    cbn [bind]. rewrite O2. cbn [bind].
    rewrite (read_in s (pre ++ [TokOp c0]) (TokOp c) rest) by side H.
    reflexivity. }
  assert (L : eval_loop m vars functions (2 + fuel) (List.length pre) s
              = Exit InvalidTokenOrder).
  { cbn [Nat.add]. rewrite eval_loop_S. unfold eval_loop_body. rewrite C. cbn [bind].
    rewrite (read_in s pre (TokOp c0) (TokOp c :: rest)) by side H. cbn [bind].
    rewrite (read_in s (pre ++ [TokOp c0]) (TokOp c) rest) by side H.
    reflexivity. }
  split; [exact C|]. split; [exact L|]. split.
  - intros P. change (3 + fuel) with (S (2 + fuel)). rewrite eval_S. unfold eval_body.
    rewrite (read_in s pre (TokOp c0) (TokOp c :: rest)) by side H. cbn [bind].
    rewrite P. cbn [bind]. exact L.
  - intros n Hn. repeat split; run_example; vm_compute; reflexivity.
Qed.

Lemma operator_for_operand_witness :
  eval_loop sample_libm [] [] 2 0 (buf_of [TokOp "("; TokOp "+"; TokNum 1%float; TokOp ")"])
  = Exit InvalidTokenOrder.
Proof.
  destruct (operator_for_operand sample_libm [] [] 0
              (buf_of [TokOp "("; TokOp "+"; TokNum 1%float; TokOp ")"])
              [] "(" "+" [TokNum 1%float; TokOp ")"]) as (_ & H & _).
  - apply live_buf_of.
  - apply fits_buf_of. simpl. lia.
  - discriminate.
  - discriminate.
  - exact H.
Defined.

(** ** An input without tokens *)

Lemma tokenize_loop_spaces n : forall fuel pos depth s,
  n < fuel ->
  tokenize_loop fuel (repeat " "%char n) pos depth s = tokenize_end depth s.
Proof.
  induction n as [|n IH]; intros [|fuel] pos depth s H; try lia; [reflexivity|].
  cbn [repeat tokenize_loop]. change (" " =? Ascii.zero)%char with false.
  change (" " =? " ")%char with true. cbv iota. apply IH. lia.
Qed.

(** X16: a text of no character, or of spaces only, is tokenized as the two
    parentheses the tokenizer adds, and [eval] ends the program on them with
    the error of the token order, there being no number between them; an
    empty pair of parentheses in the text ends it the same way. *)
Theorem blank_input_fails (m : Libm) (vars : list Var) (functions : list Function)
    (n fuel : nat) :
  3 <= fuel ->
  (exists s, tokenize (spaces n) init_buf = Ok s /\ live s = [TokOp "("; TokOp ")"])
  /\ run m vars functions fuel (spaces n) = Exit InvalidTokenOrder
  /\ run m vars functions (3 + fuel) "()" = Exit InvalidTokenOrder.
Proof.
  intros Hf.
  assert (T : tokenize (spaces n) init_buf
              = Ok (push_tok (TokOp ")") (push_tok (TokOp "(") init_buf))).
  { unfold tokenize, spaces.
    rewrite list_ascii_of_string_of_list_ascii, repeat_length.
    rewrite tokenize_loop_spaces by lia. reflexivity. }
  split; [|split].
  - eexists. split; [exact T | reflexivity].
  - unfold run. rewrite T. cbn [bind].
    rewrite (eval_fuel_exit m vars functions 3 fuel 0 _ InvalidTokenOrder);
      [reflexivity | vm_compute; reflexivity | exact Hf].
  - apply (run_fuel m vars functions 6); [vm_compute; reflexivity | discriminate | lia].
Qed.

Lemma blank_input_fails_witness :
  run sample_libm [] [] 3 "   " = Exit InvalidTokenOrder.
Proof.
  apply (blank_input_fails sample_libm [] [] 3 3 (le_n 3)).
Defined.

(** ** What is left of a valid input *)

Lemma cleanup_in s x : In x (cleanup s) <-> In (TokIdent x) (live s).
Proof.
  unfold cleanup. rewrite in_flat_map. split.
  - intros (t & I & H). destruct t as [| | |str]; simpl in H; try contradiction.
    destruct H as [<-|[]]. exact I.
  - intros I. exists (TokIdent x). split; [exact I | now left].
Qed.

(** X17: evaluating the tokens of a valid expression uses up all of them:
    when [eval] returns, the array holds the opening ['('], the number
    returned and the closing [')'] and nothing else. Every name of the
    expression has by then been overwritten or moved out of the tokens in
    use, so [cleanup] finds no name to release, though each name was in the
    array [tokenize] made. *)
Theorem valid_input_consumed (m : Libm) (vars : list Var) (functions : list Function)
    (s : TokBuf) (e : expr) :
  fits s ->
  live s = TokOp "(" :: flat_expr e ++ [TokOp ")"] ->
  valid_expr vars functions e ->
  exists v fuel s',
    (forall fuel', fuel <= fuel' -> eval m vars functions fuel' 0 s = Ok (v, s'))
    /\ live s' = [TokOp "("; TokNum v; TokOp ")"]
    /\ cleanup s' = []
    /\ forall x, In (TokIdent x) (flat_expr e) -> In x (cleanup s).
Proof.
  intros F L V.
  destruct (valid_has_value m vars functions (2 * size_expr e)) as (_ & _ & Hc).
  destruct (Hc [] e) as [v C]; [simpl; lia | assumption | constructor|].
  destruct (evaluator_refines m vars functions) as (_ & _ & R).
  destruct (climbs_eval m vars functions e v (R [] e v C) s [] (TokOp "(") (TokOp ")") [])
    as (n & s' & E & L' & _); try reflexivity; try assumption.
  exists v, n, s'. cbn [List.length app] in E, L'.
  split; [exact E|]. split; [exact L'|]. split.
  - unfold cleanup. now rewrite L'.
  - intros x I. apply cleanup_in. rewrite L. right. apply in_or_app. now left.
Qed.

Lemma valid_input_consumed_witness :
  exists v fuel s',
    (forall fuel', fuel <= fuel' ->
       eval sample_libm builtin_vars (main_functions sample_libm) fuel' 0
         (buf_of [TokOp "("; TokNum 2%float; TokOp "*"; TokIdent "pi"; TokOp ")"])
       = Ok (v, s'))
    /\ live s' = [TokOp "("; TokNum v; TokOp ")"]
    /\ cleanup s' = [].
Proof.
  destruct (valid_input_consumed sample_libm builtin_vars (main_functions sample_libm)
              (buf_of [TokOp "("; TokNum 2%float; TokOp "*"; TokIdent "pi"; TokOp ")"])
              (EBin (TNum 2%float) "*" (ETerm (TVar "pi"))))
    as (v & fuel & s' & E & L & C & _).
  - apply fits_buf_of. simpl. lia.
  - apply live_buf_of.
  - cbn [valid_expr valid_term]. repeat split; [vm_compute; lia | vm_compute; tauto].
  - exists v, fuel, s'. now repeat split.
Defined.

(** ** More than 16 arguments *)

Section Sixteen.
Variable m : Libm.
Variable vars : list Var.
Variable functions : list Function.

Local Abbreviation collapse := (collapse m vars functions).
Local Abbreviation collapse_args := (collapse_args m vars functions).
Local Abbreviation eval := (eval m vars functions).
Local Abbreviation eval_loop := (eval_loop m vars functions).
Local Abbreviation climbs := (climbs m vars functions).

(** One turn of the loop over the arguments on an argument that a comma
    follows. *)
Lemma arg_step e v :
  climbs [] e v ->
  forall s pre d rest acc,
    live s = pre ++ d :: flat_expr e ++ TokOp "," :: rest -> fits s ->
    at_delim d = Ok true -> List.length acc < 16 ->
    exists n s2,
      live s2 = pre ++ TokOp "," :: rest /\ fits s2
      /\ forall fuel, n <= fuel ->
           collapse_args (S fuel) (List.length pre) acc s
           = collapse_args fuel (List.length pre) (acc ++ [v]) s2.
Proof.
  intros C s pre d rest acc H F Hd Hl.
  destruct (climbs_eval m vars functions e v C s pre d (TokOp ",") rest)
    as (n1 & s1 & E1 & L1 & F1); try assumption; try reflexivity.
  destruct (del_in s1 pre [d; TokNum v] (TokOp "," :: rest)
              (List.length pre) (List.length pre + 1 + 1))
    as (s2 & D2 & L2 & F2); try side L1.
  exists n1, s2. split; [exact L2|]. split; [exact F2|].
  intros fuel Hf. rewrite collapse_args_S. unfold collapse_args_body.
  replace (List.length acc <? 16) with true by (symmetry; apply Nat.ltb_lt; lia).
  rewrite E1 by lia. cbn [bind].
  rewrite (find_delim_in s1 (pre ++ [d]) [TokNum v] (TokOp ",") rest
             (List.length pre + 1) (List.length pre + 1 + 1))
    by (try side L1; repeat constructor).
  cbn [bind].
  rewrite (read_in s1 (pre ++ [d; TokNum v]) (TokOp ",") rest) by side L1.
  cbn [bind]. change (is_op ")" (TokOp ",")) with false.
  change (is_op "," (TokOp ",")) with true. cbv iota.
  rewrite D2. reflexivity.
Qed.

Lemma args_prefix a : forall vs,
  args_val m vars functions a vs ->
  forall s pre d rest acc,
    live s = pre ++ d :: flat_args a ++ TokOp "," :: rest -> fits s ->
    at_delim d = Ok true -> List.length acc + List.length vs <= 16 ->
    exists n s',
      live s' = pre ++ TokOp "," :: rest /\ fits s'
      /\ forall fuel, n <= fuel ->
           collapse_args (nargs a + fuel) (List.length pre) acc s
           = collapse_args fuel (List.length pre) (acc ++ vs) s'.
Proof.
  destruct (evaluator_refines m vars functions) as (_ & _ & R).
  induction a as [e|e a IH]; intros vs A s pre d rest acc H F Hd Hl;
    inversion A as [? v C|? v ? vs' C A']; subst;
    cbn [flat_args] in H; cbn [List.length] in Hl.
  - destruct (arg_step e v (R _ _ _ C) s pre d rest acc)
      as (n & s2 & L2 & F2 & E); try assumption; [lia|].
    exists n, s2. split; [exact L2|]. split; [exact F2|].
    intros fuel Hf. cbn [nargs Nat.add]. now apply E.
  - destruct (arg_step e v (R _ _ _ C) s pre d (flat_args a ++ TokOp "," :: rest) acc)
      as (n1 & s2 & L2 & F2 & E1); try assumption; [rewrite H; reassoc | lia|].
    destruct (IH vs' A' s2 pre (TokOp ",") rest (acc ++ [v]))
      as (n2 & s' & L' & F' & E2); try assumption; try reflexivity.
    { rewrite length_app. cbn [List.length]. lia. }
    exists (Nat.max n1 n2), s'. split; [exact L'|]. split; [exact F'|].
    intros fuel Hf. cbn [nargs Nat.add]. rewrite E1 by lia. rewrite E2 by lia.
    now rewrite <- app_assoc.
Qed.

(** With 16 values collected, an argument is not evaluated: its tokens up
    to the next delimiter go with a [')'] or a [','] that follows, and
    before a ['('] the loop takes the same turn again. *)
Lemma skip_last acc s pre d mid post :
  16 <= List.length acc ->
  live s = pre ++ d :: mid ++ TokOp ")" :: post -> fits s ->
  Forall (fun x => at_delim x = Ok false) mid ->
  exists s', live s' = pre ++ post /\ fits s'
    /\ forall fuel, collapse_args (S fuel) (List.length pre) acc s = Ok (acc, s').
Proof.
  intros Hl H F Hm.
  destruct (del_in s pre (d :: mid ++ [TokOp ")"]) post
              (List.length pre) (List.length pre + 1 + List.length mid + 1))
    as (s' & D & L' & F'); [rewrite H; reassoc | assumption | reflexivity | len |].
  exists s'. split; [exact L'|]. split; [exact F'|].
  intros fuel. rewrite collapse_args_S. unfold collapse_args_body.
  replace (List.length acc <? 16) with false by (symmetry; apply Nat.ltb_ge; lia).
  cbn [bind].
  rewrite (find_delim_in s (pre ++ [d]) mid (TokOp ")") post
             (List.length pre + 1) (List.length pre + 1 + List.length mid))
    by (try assumption; try reflexivity; try (rewrite H; reassoc); len).
  cbn [bind].
  rewrite (read_in s (pre ++ d :: mid) (TokOp ")") post)
    by (try assumption; try (rewrite H; reassoc); len).
  cbn [bind]. change (is_op ")" (TokOp ")")) with true. cbv iota.
  rewrite D. reflexivity.
Qed.

Lemma skip_spin acc s pre d mid rest :
  16 <= List.length acc ->
  live s = pre ++ d :: mid ++ TokOp "(" :: rest -> fits s ->
  Forall (fun x => at_delim x = Ok false) mid ->
  forall fuel, collapse_args fuel (List.length pre) acc s = OutOfFuel.
Proof.
  intros Hl H F Hm. induction fuel as [|fuel IH]; [reflexivity|].
  rewrite collapse_args_S. unfold collapse_args_body.
  replace (List.length acc <? 16) with false by (symmetry; apply Nat.ltb_ge; lia).
  cbn [bind].
  rewrite (find_delim_in s (pre ++ [d]) mid (TokOp "(") rest
             (List.length pre + 1) (List.length pre + 1 + List.length mid))
    by (try assumption; try reflexivity; try (rewrite H; reassoc); len).
  cbn [bind].
  rewrite (read_in s (pre ++ d :: mid) (TokOp "(") rest)
    by (try assumption; try (rewrite H; reassoc); len).
  cbn [bind]. change (is_op ")" (TokOp "(")) with false.
  change (is_op "," (TokOp "(")) with false. cbv iota. exact IH.
Qed.

(** [collapse] on a call, up to the loop over the arguments. *)
Lemma collapse_enters_call fuel s pre x f rest :
  live s = pre ++ x :: TokIdent f :: TokOp "(" :: rest -> fits s ->
  collapse (S fuel) (List.length pre) s
  = ('(arg_results, s3) <- collapse_args fuel (List.length pre + 2) [] s ;;
     t1 <- read s3 (List.length pre + 1) ;;
     match t1 with
     | TokIdent str =>
         r <- call_loop str arg_results functions None ;;
         match r with
         | Some outer_res => write (List.length pre + 1) (TokNum outer_res) s3
         | None => Exit (UnknownFunction str)
         end
     | _ => Undef
     end).
Proof.
  intros H F. rewrite collapse_S. unfold collapse_body.
  do 3 (rewrite (read_in s (pre ++ [x]) (TokIdent f) (TokOp "(" :: rest)) by side H;
        cbn [bind is_op]).
  replace (List.length pre + 2 <? toks_size s) with true
    by (symmetry; apply Nat.ltb_lt; rewrite <- live_length, H; len).
  rewrite (read_in s (pre ++ [x; TokIdent f]) (TokOp "(") rest) by side H.
  cbn [bind andb]. change (is_op "(" (TokOp "(")) with true. reflexivity.
Qed.

Lemma call_drops_extra f a vs s pre x mid post :
  args_val m vars functions a vs -> List.length vs = 16 ->
  Forall (fun t => at_delim t = Ok false) mid ->
  live s = pre ++ x :: TokIdent f :: TokOp "(" :: flat_args a
           ++ TokOp "," :: mid ++ TokOp ")" :: post ->
  fits s ->
  exists fuel s1,
    live s1 = pre ++ x :: TokIdent f :: post
    /\ forall fuel', fuel <= fuel' ->
         collapse fuel' (List.length pre) s
         = (r <- call_loop f vs functions None ;;
            match r with
            | Some outer_res => write (List.length pre + 1) (TokNum outer_res) s1
            | None => Exit (UnknownFunction f)
            end).
Proof.
  intros A Hl Hm H F.
  destruct (args_prefix a vs A s (pre ++ [x; TokIdent f]) (TokOp "(")
              (mid ++ TokOp ")" :: post) [])
    as (n & s' & L' & F' & E); try assumption; try reflexivity;
    [rewrite H; reassoc | simpl; lia |].
  destruct (skip_last vs s' (pre ++ [x; TokIdent f]) (TokOp ",") mid post)
    as (s1 & L1 & F1 & E1); try assumption; [lia|].
  rewrite length_app in E, E1. cbn [List.length app] in E, E1.
  exists (S (nargs a + S n)), s1. split; [rewrite L1; reassoc|].
  intros [|k] Hf; [lia|].
  rewrite (collapse_enters_call k s pre x f _ H F).
  replace k with (nargs a + S (k - nargs a - 1)) by lia.
  rewrite E by lia. rewrite E1. cbn [bind app].
  rewrite (read_in s1 (pre ++ [x]) (TokIdent f) post) by side L1.
  reflexivity.
Qed.

Lemma call_spins f a vs s pre x mid rest :
  args_val m vars functions a vs -> List.length vs = 16 ->
  Forall (fun t => at_delim t = Ok false) mid ->
  live s = pre ++ x :: TokIdent f :: TokOp "(" :: flat_args a
           ++ TokOp "," :: mid ++ TokOp "(" :: rest ->
  fits s ->
  forall fuel, collapse fuel (List.length pre) s = OutOfFuel.
Proof.
  intros A Hl Hm H F.
  destruct (args_prefix a vs A s (pre ++ [x; TokIdent f]) (TokOp "(")
              (mid ++ TokOp "(" :: rest) [])
    as (n & s' & L' & F' & E); try assumption; try reflexivity;
    [rewrite H; reassoc | simpl; lia |].
  pose proof (skip_spin vs s' (pre ++ [x; TokIdent f]) (TokOp ",") mid rest) as Sp.
  rewrite length_app in E, Sp. cbn [List.length app] in E, Sp.
  assert (Big : forall k, nargs a + n <= k ->
                  collapse_args k (List.length pre + 2) [] s = OutOfFuel).
  { intros k Hk. replace k with (nargs a + (k - nargs a)) by lia.
    rewrite E by lia. apply Sp; try assumption. lia. }
  intros [|k]; [reflexivity|].
  rewrite (collapse_enters_call k s pre x f _ H F).
  assert (O : collapse_args k (List.length pre + 2) [] s = OutOfFuel).
  { destruct (Nat.le_gt_cases (nargs a + n) k) as [Hk|Hk]; [now apply Big|].
    destruct (fuel_mono m vars functions k (nargs a + n)) as (_ & Ma & _); [lia|].
    destruct (Ma (List.length pre + 2) [] s) as [O|O]; [exact O|].
    rewrite O. apply Big. lia. }
  now rewrite O.
Qed.

End Sixteen.

Lemma ones_val m vars functions n :
  args_val m vars functions (ones n) (repeat 1%float (S n)).
Proof.
  induction n as [|n IH]; cbn [ones repeat].
  - apply val_one, climb_done, val_num.
  - apply val_cons; [apply climb_done, val_num | exact IH].
Qed.

(** X18: [collapse] collects the values of 16 arguments and no more. An
    argument after the 16th that holds no delimiter is not evaluated and its
    tokens are deleted, so the call is looked up with the first 16 values,
    as if the argument were not there: a function registered for two
    arguments is refused with 16 given, whatever the 17th is, and a name
    that is not set is no error there. *)
Theorem extra_argument_dropped (m : Libm) (vars : list Var) (functions : list Function)
    (f : string) (a : args) (vs : list real) (s : TokBuf)
    (pre : list Tok) (x : Tok) (mid post : list Tok) :
  args_val m vars functions a vs -> List.length vs = 16 ->
  Forall (fun t => at_delim t = Ok false) mid ->
  live s = pre ++ x :: TokIdent f :: TokOp "(" :: flat_args a
           ++ TokOp "," :: mid ++ TokOp ")" :: post ->
  fits s ->
  (exists fuel s1,
     live s1 = pre ++ x :: TokIdent f :: post
     /\ forall fuel', fuel <= fuel' ->
          collapse m vars functions fuel' (List.length pre) s
          = (r <- call_loop f vs functions None ;;
             match r with
             | Some outer_res => write (List.length pre + 1) (TokNum outer_res) s1
             | None => Exit (UnknownFunction f)
             end))
  /\ (forall fuel, 60 <= fuel ->
        run m builtin_vars (main_functions m) fuel
          "pow(1,1,1,1,1,1,1,1,1,1,1,1,1,1,1,1,nosuch)"
        = Exit (ArityMismatch "pow" 2 16)).
Proof.
  intros A Hl Hm H F. split.
  - now apply (call_drops_extra m vars functions f a vs s pre x mid post).
  - intros fuel Hf. run_example. vm_compute. reflexivity.
Qed.

Lemma extra_argument_dropped_witness :
  run sample_libm builtin_vars (main_functions sample_libm) 60
    "pow(1,1,1,1,1,1,1,1,1,1,1,1,1,1,1,1,nosuch)"
  = Exit (ArityMismatch "pow" 2 16).
Proof.
  destruct (extra_argument_dropped sample_libm builtin_vars (main_functions sample_libm)
              "f" (ones 15) (repeat 1%float 16)
              (buf_of (TokOp "(" :: TokIdent "f" :: TokOp "(" :: flat_args (ones 15)
                       ++ [TokOp ","; TokIdent "nosuch"; TokOp ")"; TokOp ")"]))
              [] (TokOp "(") [TokIdent "nosuch"] [TokOp ")"]) as [_ H].
  - apply ones_val.
  - reflexivity.
  - repeat constructor.
  - apply live_buf_of.
  - apply fits_buf_of. simpl. lia.
  - exact (H 60 (le_n 60)).
Defined.

(** X19: with 16 values collected, an argument that holds a ['('] is not
    deleted either: the loop over the arguments finds the ['('] as the next
    delimiter, deletes nothing, and takes the same turn on the same array
    again, without end. A call with 16 arguments and a 17th in parentheses
    never returns, for any amount of fuel. *)
Theorem seventeenth_argument_spins (m : Libm) (vars : list Var)
    (functions : list Function) (f : string) (a : args) (vs : list real)
    (s : TokBuf) (pre : list Tok) (x : Tok) (mid rest : list Tok) :
  args_val m vars functions a vs -> List.length vs = 16 ->
  Forall (fun t => at_delim t = Ok false) mid ->
  live s = pre ++ x :: TokIdent f :: TokOp "(" :: flat_args a
           ++ TokOp "," :: mid ++ TokOp "(" :: rest ->
  fits s ->
  (forall fuel, collapse m vars functions fuel (List.length pre) s = OutOfFuel)
  /\ (forall fuel,
        run m vars functions fuel "pow(1,1,1,1,1,1,1,1,1,1,1,1,1,1,1,1,(1))"
        = OutOfFuel).
Proof.
  intros A Hl Hm H F. split.
  - now apply (call_spins m vars functions f a vs s pre x mid rest).
  - intros fuel. unfold run.
    assert (T : exists s0,
              tokenize "pow(1,1,1,1,1,1,1,1,1,1,1,1,1,1,1,1,(1))" init_buf = Ok s0
              /\ live s0 = [] ++ TokOp "(" :: TokIdent "pow" :: TokOp "("
                           :: flat_args (ones 15)
                           ++ TokOp "," :: [] ++ TokOp "("
                           :: [TokNum 1%float; TokOp ")"; TokOp ")"; TokOp ")"])
      by (eexists; split; vm_compute; reflexivity).
    destruct T as (s0 & T & L). rewrite T. cbn [bind].
    pose proof (tokenize_fits _ _ T) as F0.
    pose proof (call_spins m vars functions "pow" (ones 15) (repeat 1%float 16) s0 []
                  (TokOp "(") [] _ (ones_val m vars functions 15) eq_refl
                  (Forall_nil _) L F0) as Sp.
    cbn [List.length] in Sp.
    destruct fuel as [|k]; [reflexivity|].
    rewrite eval_S. unfold eval_body.
    rewrite (read_in s0 [] (TokOp "(") _ 0 L F0 eq_refl). cbn [bind].
    change (at_delim (TokOp "(")) with (Ok true). cbn [bind]. cbv iota.
    destruct k as [|k]; [reflexivity|].
    rewrite eval_loop_S. unfold eval_loop_body. now rewrite Sp.
Qed.

Lemma seventeenth_argument_spins_witness :
  collapse sample_libm [] [] 1000 0
    (buf_of (TokOp "(" :: TokIdent "f" :: TokOp "(" :: flat_args (ones 15)
             ++ [TokOp ","; TokOp "("; TokNum 1%float; TokOp ")"; TokOp ")"; TokOp ")"]))
  = OutOfFuel.
Proof.
  destruct (seventeenth_argument_spins sample_libm [] []
              "f" (ones 15) (repeat 1%float 16)
              (buf_of (TokOp "(" :: TokIdent "f" :: TokOp "(" :: flat_args (ones 15)
                       ++ [TokOp ","; TokOp "("; TokNum 1%float; TokOp ")"; TokOp ")";
                           TokOp ")"]))
              [] (TokOp "(") [] [TokNum 1%float; TokOp ")"; TokOp ")"; TokOp ")"])
    as [H _].
  - apply ones_val.
  - reflexivity.
  - constructor.
  - apply live_buf_of.
  - apply fits_buf_of. simpl. lia.
  - exact (H 1000).
Defined.

(** ** Setting a variable and evaluating its name *)

(** X20: after [set_var] of a name of 1 to 31 letters, in a registry of
    distinct names, the text of the name evaluates to the value set,
    whatever was set under it before; after [unset_var] the same text ends
    the program with the error of the unknown variable. *)
Theorem set_then_evaluate (m : Libm) (vars : list Var) (functions : list Function)
    (r : list ascii) (v : real) (fuel : nat) :
  r <> [] -> Forall (fun c => IS_ALPHA c = true) r -> List.length r <= 31 ->
  NoDup (map name vars) -> 3 <= fuel ->
  (forall vars', set_var (string_of_list_ascii r) v vars = Ok vars' ->
     run m vars' functions fuel (string_of_list_ascii r) = Ok v)
  /\ run m (unset_var (string_of_list_ascii r) vars) functions fuel (string_of_list_ascii r)
     = Exit (UnknownVariable (string_of_list_ascii r)).
Proof.
  intros Hr F L D Hf.
  pose proof (tokenize_one true r Hr (conj F L)) as T. cbv iota in T.
  set (n := string_of_list_ascii r) in *.
  set (s := buf_of [TokOp "("; TokIdent n; TokOp ")"]) in *.
  assert (Ls : live s = [] ++ TokOp "(" :: TokIdent n :: [TokOp ")"])
    by apply live_buf_of.
  assert (Fs : fits s) by (apply fits_buf_of; simpl; lia).
  destruct fuel as [|[|[|k]]]; try lia. split.
  - intros vars' Hs.
    assert (V : var_loop n vars' None = Some v).
    { rewrite var_loop_entries, (set_var_entries n v vars vars' D Hs). reflexivity. }
    unfold run. rewrite T. cbn [bind].
    destruct (write_in s [TokOp "("] (TokIdent n) [TokOp ")"] (TokNum v) 1)
      as (s1 & W & L1 & F1); try assumption; try reflexivity.
    assert (C : forall j, collapse m vars' functions (S j) 0 s = Ok s1).
    { intros j.
      pose proof (collapse_variable m vars' functions j s [] (TokOp "(") n [TokOp ")"]
                    Ls Fs eq_refl) as Cv.
      cbn [List.length Nat.add] in Cv. rewrite Cv, V. exact W. }
    rewrite eval_S. unfold eval_body.
    rewrite (read_in s [] (TokOp "(") _ 0 Ls Fs eq_refl). cbn [bind].
    change (at_delim (TokOp "(")) with (Ok true). cbn [bind]. cbv iota.
    pose proof (eval_loop_return m vars' functions (S k) s s1 [] "(" v ")" [] (C k) L1 F1
                  eq_refl eq_refl eq_refl eq_refl) as R.
    cbn [List.length] in R. rewrite R. reflexivity.
  - unfold run. rewrite T. cbn [bind].
    assert (V : var_loop n (unset_var n vars) None = None).
    { apply var_loop_absent. now apply unset_var_removes. }
    rewrite eval_S. unfold eval_body.
    rewrite (read_in s [] (TokOp "(") _ 0 Ls Fs eq_refl). cbn [bind].
    change (at_delim (TokOp "(")) with (Ok true). cbn [bind]. cbv iota.
    rewrite eval_loop_S. unfold eval_loop_body.
    pose proof (collapse_variable m (unset_var n vars) functions k s [] (TokOp "(") n
                  [TokOp ")"] Ls Fs eq_refl) as Cv.
    cbn [List.length Nat.add] in Cv. rewrite Cv, V. reflexivity.
Qed.

Lemma set_then_evaluate_witness :
  run sample_libm [{| name := "pi"; val := M_PI |}; {| name := "e"; val := 3%float |}]
    [] 3 "e" = Ok 3%float.
Proof.
  destruct (set_then_evaluate sample_libm builtin_vars [] (list_ascii_of_string "e")
              3%float 3) as [H _].
  - discriminate.
  - repeat constructor.
  - simpl. lia.
  - repeat constructor; simpl; intuition discriminate.
  - lia.
  - apply (H [{| name := "pi"; val := M_PI |}; {| name := "e"; val := 3%float |}]).
    reflexivity.
Defined.

(** ** The program *)

(** X21: [main] shows the usage and stops unless it is given exactly one
    argument that is neither [-h] nor [--help]. Otherwise it ends as the run
    of [tokenize] and [eval] on the argument ends, with the built-in
    functions and constants: [print_toks] in between never ends the program,
    nothing is printed when [tokenize] fails, and when [eval] returns the
    output is the line of the tokens and the line of the result. *)
Theorem main_runs (io : Stdio) (m : Libm) (fuel : nat) (prog expr : string) :
  String.eqb expr "-h" = false -> String.eqb expr "--help" = false ->
  snd (main io m fuel [prog; expr])
  = status_of (run m builtin_vars (main_functions m) fuel expr)
  /\ (forall e, tokenize expr init_buf = Exit e ->
        main io m fuel [prog; expr] = (EmptyString, Failed e))
  /\ (forall v, run m builtin_vars (main_functions m) fuel expr = Ok v ->
        exists s,
          tokenize expr init_buf = Ok s
          /\ fst (main io m fuel [prog; expr])
             = String.append
                 (fold_right String.append newline (map (tok_text io) (live s)))
                 (String.append "Result: " (String.append (fmt_f io v) newline)))
  /\ (forall argv, List.length argv <> 2 ->
        main io m fuel argv = (EmptyString, UsageShown))
  /\ main io m fuel [prog; "-h"%string] = (EmptyString, UsageShown)
  /\ main io m fuel [prog; "--help"%string] = (EmptyString, UsageShown).
Proof.
  intros H1 H2.
  assert (P : forall s, tokenize expr init_buf = Ok s ->
                print_toks io s
                = (fold_right String.append newline (map (tok_text io) (live s)), None)).
  { intros s T. unfold print_toks. apply print_loop_all.
    now apply (tokenize_printable expr). }
  unfold main, run. rewrite H1, H2. cbn [orb].
  change main_vars with (Ok builtin_vars).
  split; [|split; [|split; [|split; [|split]]]].
  - destruct (tokenize expr init_buf) as [s|e| |] eqn:T; try reflexivity.
    rewrite (P s eq_refl). cbn [bind].
    destruct (eval m builtin_vars (main_functions m) fuel 0 s) as [[res s']|e| |];
      reflexivity.
  - intros e T. now rewrite T.
  - intros v. destruct (tokenize expr init_buf) as [s|e| |] eqn:T; try discriminate.
    cbn [bind]. rewrite (P s eq_refl).
    destruct (eval m builtin_vars (main_functions m) fuel 0 s) as [[res s']|e| |];
      try discriminate.
    intros [= ->]. exists s. split; reflexivity.
  - intros [|a [|b [|c argv]]] Hl; try reflexivity. simpl in Hl. lia.
  - reflexivity.
  - reflexivity.
Qed.

Lemma main_runs_witness :
  snd (main {| fmt_2f := fun _ => "n"%string; fmt_f := fun _ => "n"%string |}
         sample_libm 40 ["exp"%string; "2+3"%string]) = Returned.
Proof.
  rewrite (proj1 (main_runs {| fmt_2f := fun _ => "n"%string; fmt_f := fun _ => "n"%string |}
                    sample_libm 40 "exp" "2+3" eq_refl eq_refl)).
  reflexivity.
Defined.

(** ** The value [eval] returns and the tree *)

(** X22: the value [eval] returns for a valid expression is the value of
    the expression read as a tree, at every depth. The tree of an
    expression has its terms as leaves and its operators, in their order,
    as nodes, the left operand of an operator binding tighter than it, or as
    tight with left associativity, and the right operand tighter, or as
    tight with right associativity; there is one such tree. An expression
    in parentheses and each argument of a call is read as a tree in the same
    way, a variable is the value of its entry and a call what the
    registered function returns. A minus sign is part of the term: it
    negates the term after it before any binary operator applies, so that
    ["-2^2"] is the square of -2 and ["2^-3^2"] is 2 to the square of -3. In
    this reading the expression has one value, and [eval] returns it. *)
Theorem value_of_the_parse_tree (m : Libm) (vars : list Var) (functions : list Function)
    (s : TokBuf) (e : expr) :
  fits s ->
  live s = TokOp "(" :: flat_expr e ++ [TokOp ")"] ->
  valid_expr vars functions e ->
  (exists T v fuel s',
     inorder T = e /\ respects T /\ tree_val m vars functions T v
     /\ (forall T', inorder T' = e -> respects T' -> T' = T)
     /\ expr_den m vars functions e v
     /\ (forall v', expr_den m vars functions e v' -> v' = v)
     /\ (forall fuel', fuel <= fuel' -> eval m vars functions fuel' 0 s = Ok (v, s')))
  /\ (forall fuel, 40 <= fuel ->
        run m builtin_vars (main_functions m) fuel "-2^2"
        = Ok (c_pow m (-2)%float 2%float)
        /\ run m builtin_vars (main_functions m) fuel "2^-3^2"
           = Ok (c_pow m 2%float (c_pow m (-3)%float 2%float))
        /\ run m builtin_vars (main_functions m) fuel "2^3^2"
           = Ok (c_pow m 2%float (c_pow m 3%float 2%float))
        /\ run m builtin_vars (main_functions m) fuel "2-3-4" = Ok (-5)%float
        /\ run m builtin_vars (main_functions m) fuel "-(2+3)*4" = Ok (-20)%float).
Proof.
  intros F L V. split.
  - destruct (valid_value m vars functions e s F L V) as (v & n & s' & C & D & U & E).
    remember e as e0 eqn:Ee in D. destruct D as [T v R Tv]. subst e.
    exists T, v, n, s'. split; [reflexivity|]. split; [exact R|]. split; [exact Tv|].
    split; [|split; [now constructor | split; [exact U | exact E]]].
    intros T' I' R'. now apply parse_unique.
  - intros fuel Hf. repeat split; run_example; vm_compute; reflexivity.
Qed.

Lemma value_of_the_parse_tree_witness :
  exists T,
    inorder T = EBin (TNeg (TNum 2%float)) "^" (ETerm (TNum 2%float))
    /\ respects T /\ tree_val sample_libm [] [] T 4%float.
Proof.
  destruct (value_of_the_parse_tree sample_libm [] []
              (buf_of [TokOp "("; TokOp "-"; TokNum 2%float; TokOp "^"; TokNum 2%float;
                       TokOp ")"])
              (EBin (TNeg (TNum 2%float)) "^" (ETerm (TNum 2%float))))
    as ((T & v & fuel & s' & I & R & V & _ & _ & _ & E) & _).
  - apply fits_buf_of. simpl. lia.
  - apply live_buf_of.
  - cbn [valid_expr valid_term]. repeat split; vm_compute; lia.
  - exists T. split; [exact I|]. split; [exact R|].
    assert (H : value_of
                  (eval sample_libm [] [] (Nat.max fuel 40) 0
                     (buf_of [TokOp "("; TokOp "-"; TokNum 2%float; TokOp "^";
                              TokNum 2%float; TokOp ")"]))
                = Ok 4%float).
    { apply (value_of_fuel sample_libm [] [] 40);
        [vm_compute; reflexivity | discriminate | apply Nat.le_max_r]. }
    rewrite (E (Nat.max fuel 40) (Nat.le_max_l fuel 40)) in H.
    cbn [value_of bind] in H. injection H as <-. exact V.
Defined.

(** ** The parentheses of the tokens *)

Lemma balanced_mul (rule : Tok -> Tok -> bool) prev t l depth :
  is_op "(" t = false -> is_op ")" t = false ->
  balanced depth l ->
  balanced depth ((if rule prev t then [TokOp "*"; t] else [t]) ++ l).
Proof.
  intros H1 H2 B. destruct (rule prev t); cbn [app balanced]; rewrite H1, H2; exact B.
Qed.

Lemma lex_balanced (rule : Tok -> Tok -> bool) fuel : forall curr pos depth prev tail d0,
  List.length curr < fuel ->
  first_error curr pos depth = None ->
  balanced d0 tail ->
  balanced (depth + d0) (insert_mul rule prev (lex_loop fuel curr) ++ tail).
Proof.
  induction fuel as [|fuel IH]; intros curr pos depth prev tail d0 Hf E B; [lia|].
  assert (End : (if 0 <? depth then Some UnmatchedOpenParen else None) = None ->
                balanced (depth + d0) tail).
  { destruct depth; [intros _; exact B | discriminate]. }
  cbn [lex_loop]. destruct curr as [|c rest]; [now apply End|].
  cbn [first_error] in E. cbn [List.length] in Hf.
  destruct (c =? Ascii.zero)%char eqn:E0; [now apply End|].
  destruct (c =? " ")%char eqn:Es.
  { destruct (space_char c Es) as (Hr & Hc & Ho). rewrite Hr, Hc, Ho in E.
    cbn [negb] in E. apply (IH rest (S pos)); [lia | exact E | exact B]. }
  destruct (IS_FLOAT c) eqn:Ef.
  { destruct (float_char c Ef) as (_ & Hr & Hc & Ho). rewrite Hr, Hc, Ho in E.
    cbn [negb] in E. cbn [insert_mul]. rewrite <- app_assoc.
    apply balanced_mul; try reflexivity.
    pose proof (scan_run_le IS_FLOAT 14 rest) as Hle.
    rewrite <- (firstn_skipn (scan_run IS_FLOAT 14 rest) rest) in E.
    rewrite (first_error_run (fun c => IS_FLOAT c = true) float_char) in E
      by apply scan_run_all.
    cbn [skipn]. eapply IH; [rewrite length_skipn; lia | exact E | exact B]. }
  destruct (IS_ALPHA c) eqn:Ea.
  { destruct (alpha_char c Ea) as (_ & Hr & Hc & Ho). rewrite Hr, Hc, Ho in E.
    cbn [negb] in E. cbn [insert_mul]. rewrite <- app_assoc.
    apply balanced_mul; try reflexivity.
    pose proof (scan_run_le IS_ALPHA 30 rest) as Hle.
    rewrite <- (firstn_skipn (scan_run IS_ALPHA 30 rest) rest) in E.
    rewrite (first_error_run (fun c => IS_ALPHA c = true) alpha_char) in E
      by apply scan_run_all.
    cbn [skipn]. eapply IH; [rewrite length_skipn; lia | exact E | exact B]. }
  destruct (is_op_char c) eqn:Eo.
  2:{ rewrite (other_char c Es Ef Ea Eo) in E. discriminate E. }
  destruct (op_char c Eo) as (Hr & _). rewrite Hr in E. cbn [negb] in E.
  cbn [insert_mul]. rewrite <- app_assoc.
  destruct (c =? ")")%char eqn:Ec.
  { assert (Hopen : (c =? "(")%char = false)
      by (clear - Ec; revert Ec; all_chars c).
    destruct depth as [|d]; [discriminate E|].
    destruct (rule prev (TokOp c)); cbn [app balanced is_op];
      rewrite ?Hopen, ?Ec; cbn [Nat.add];
      apply (IH rest (S pos)); try assumption; lia. }
  destruct (c =? "(")%char eqn:Eopen.
  - destruct (rule prev (TokOp c)); cbn [app balanced is_op];
      rewrite ?Eopen;
      apply (IH rest (S pos) (S depth)); try assumption; lia.
  - destruct (rule prev (TokOp c)); cbn [app balanced is_op];
      rewrite ?Eopen, ?Ec;
      apply (IH rest (S pos) depth); try assumption; lia.
Qed.

(** X23: in an array that [tokenize] returns without having filled it, the
    parentheses are balanced: reading the tokens from the left, no [')']
    comes without a ['('] open before it, and at the end none is left
    open. *)
Theorem tokenize_balanced (expr : string) (s : TokBuf) :
  (N.of_nat (String.length expr) < 2 ^ 64)%N ->
  tokenize expr init_buf = Ok s -> toks_size s < cap ->
  balanced 0 (live s).
Proof.
  intros H T R.
  assert (E : first_error (list_ascii_of_string expr) 0 0 = None).
  { pose proof (tokenize_outcome expr init_buf H) as O.
    destruct (first_error (list_ascii_of_string expr) 0 0) as [e|]; [|reflexivity].
    simpl in O. congruence. }
  pose proof (tokenize_tokens expr s T) as L.
  rewrite <- live_length, L, length_firstn in R.
  rewrite L, firstn_all2 by lia.
  unfold all_tokens, lex. cbn [balanced is_op].
  change ("(" =? "(")%char with true. cbv iota.
  apply (lex_balanced implicit_mul _ _ 0 0 (TokOp "(") [TokOp ")"] 1);
    [lia | exact E | reflexivity].
Qed.

Lemma tokenize_balanced_witness :
  exists s, tokenize "2*(3+4)" init_buf = Ok s /\ balanced 0 (live s).
Proof.
  assert (T : exists s, tokenize "2*(3+4)" init_buf = Ok s) by (eexists; reflexivity).
  destruct T as [s T]. exists s. split; [exact T|].
  apply (tokenize_balanced "2*(3+4)" s); [reflexivity | exact T|].
  pose proof (tokenize_tokens _ _ T) as L.
  apply (f_equal (@List.length Tok)) in L. rewrite live_length, length_firstn in L.
  pose proof cap_N as C. unfold TOKS_CAP in C.
  assert (List.length (all_tokens implicit_mul "2*(3+4)") = 9) by reflexivity. lia.
Defined.

(** ** A comma outside a call *)

Section Comma.
Variable m : Libm.
Variable vars : list Var.
Variable functions : list Function.

Local Abbreviation collapse := (collapse m vars functions).
Local Abbreviation eval := (eval m vars functions).
Local Abbreviation climbs := (climbs m vars functions).

(** [collapse] on a ['('] takes the delimiter after the value for the end of
    the parentheses, whichever it is. *)
Lemma collapse_paren_delim e v dc :
  climbs [] e v -> at_delim dc = Ok true -> is_op "(" dc = false ->
  forall s pre x post,
    live s = pre ++ x :: TokOp "(" :: flat_expr e ++ dc :: post -> fits s ->
    exists fuel s',
      (forall fuel', fuel <= fuel' -> collapse fuel' (List.length pre) s = Ok s')
      /\ live s' = pre ++ x :: TokNum v :: post /\ fits s'.
Proof.
  intros C Hd Hp s pre x post H F.
  destruct (climbs_eval m vars functions e v C s (pre ++ [x]) (TokOp "(") dc post)
    as (n1 & s1 & E1 & L1 & F1); try side H; try reflexivity; try assumption.
  rewrite length_app in E1. cbn [List.length] in E1.
  destruct (del_in s1 (pre ++ [x; TokOp "("]) [TokNum v; dc] post
              (List.length pre + 2) (List.length pre + 2 + 1 + 1))
    as (s2 & D2 & L2 & F2); try side L1.
  destruct (write_in s2 (pre ++ [x]) (TokOp "(") post (TokNum v)
              (List.length pre + 1))
    as (s3 & W3 & L3 & F3); try side L2.
  exists (S n1), s3. split; [|split; [rewrite L3; reassoc | assumption]].
  intros [|fuel] Hf; [lia|].
  rewrite collapse_S. unfold collapse_body.
  rewrite (read_in s (pre ++ [x]) (TokOp "(") (flat_expr e ++ dc :: post)) by side H.
  cbn [bind]. change (is_op "-" (TokOp "(")) with false. cbv iota. cbn [bind].
  rewrite (read_in s (pre ++ [x]) (TokOp "(") (flat_expr e ++ dc :: post)) by side H.
  cbn [bind]. change (is_op "(" (TokOp "(")) with true. cbv iota.
  rewrite E1 by lia. cbn [bind].
  rewrite (find_delim_in s1 (pre ++ [x; TokOp "("]) [TokNum v] dc post
             (List.length pre + 2) (List.length pre + 2 + 1))
    by (try side L1; repeat constructor).
  cbn [bind]. rewrite D2. cbn [bind]. rewrite W3. cbn [bind].
  rewrite (read_in s3 (pre ++ [x]) (TokNum v) post) by side L3.
  reflexivity.
Qed.

End Comma.

(** X24: a comma is a delimiter wherever it stands. [eval] on the tokens of
    a valid expression that a comma follows returns the value of that
    expression and leaves what follows the comma unread, whatever it is; and
    [collapse] on a ['('] takes a comma after the value for the closing
    parenthesis and deletes it. So ["1+2,*/nosuch"] is 3, and ["(1,-2)"] is
    [1-2]. *)
Theorem comma_ends_expression (m : Libm) (vars : list Var) (functions : list Function)
    (e : expr) :
  valid_expr vars functions e ->
  exists v,
    expr_val m vars functions e v
    /\ (forall s rest,
          live s = TokOp "(" :: flat_expr e ++ TokOp "," :: rest -> fits s ->
          exists fuel s',
            (forall fuel', fuel <= fuel' ->
               eval m vars functions fuel' 0 s = Ok (v, s'))
            /\ live s' = TokOp "(" :: TokNum v :: TokOp "," :: rest)
    /\ (forall s pre x post,
          live s = pre ++ x :: TokOp "(" :: flat_expr e ++ TokOp "," :: post ->
          fits s ->
          exists fuel s',
            (forall fuel', fuel <= fuel' ->
               collapse m vars functions fuel' (List.length pre) s = Ok s')
            /\ live s' = pre ++ x :: TokNum v :: post)
    /\ (forall fuel, 40 <= fuel ->
          run m builtin_vars (main_functions m) fuel "1+2,*/nosuch" = Ok 3%float
          /\ run m builtin_vars (main_functions m) fuel "(1,-2)" = Ok (-1)%float).
Proof.
  intros V.
  destruct (valid_has_value m vars functions (2 * size_expr e)) as (_ & _ & Hc).
  destruct (Hc [] e) as [v C]; [simpl; lia | assumption | constructor|].
  destruct (evaluator_refines m vars functions) as (_ & _ & R).
  exists v. split; [exact C|]. split; [|split].
  - intros s rest L F.
    destruct (climbs_eval m vars functions e v (R [] e v C) s [] (TokOp "(") (TokOp ",")
                rest)
      as (n & s' & E & L' & _); try reflexivity; try assumption.
    exists n, s'. split; [exact E | exact L'].
  - intros s pre x post L F.
    destruct (collapse_paren_delim m vars functions e v (TokOp ",") (R [] e v C)
                eq_refl eq_refl s pre x post L F) as (n & s' & E & L' & _).
    exists n, s'. split; [exact E | exact L'].
  - intros fuel Hf. split; run_example; vm_compute; reflexivity.
Qed.

Lemma comma_ends_expression_witness :
  exists v, expr_val sample_libm [] [] (EBin (TNum 1%float) "+" (ETerm (TNum 2%float))) v.
Proof.
  destruct (comma_ends_expression sample_libm [] []
              (EBin (TNum 1%float) "+" (ETerm (TNum 2%float)))) as (v & C & _).
  - cbn [valid_expr valid_term]. repeat split. vm_compute. lia.
  - exists v. exact C.
Defined.
